(** * Pistol-Shot-AR: the aim / trigger / target / scoring core of [App.tsx]

    A shallow embedding of the game logic of the React component [App]
    (src/unnamed/part_000, with src/constants.ts and src/types.ts) and the
    properties the specification states about it.

    Conventions of the embedding.
    - A JavaScript [number] that holds a coordinate, a distance, a life value
      or a random draw is a real number ([R]); binary64 rounding is idealised
      away (the one trajectory whose outcome hangs on a decimal constant is
      cross-checked on primitive floats, see [FloatCheck]).  Scores, combos,
      point values and millisecond timestamps are integers ([Z]).
    - [THREE.Vector3] and the few methods the component calls on it are
      written out as three.js defines them ([V3] below).  The ray/mesh
      intersection test of [THREE.Raycaster] is a parameter.
    - The mutable refs of the component ([enemiesRef], [vfxRef],
      [isTriggeredRef], ...) are the fields of one record [World] that every
      callback transforms.  Enemy objects live in a store and the enemy array
      holds references into it, as in the source: a mutation of an enemy is
      seen through every array that holds it.
    - The callbacks are modelled as they run after [initThree]: the refs to
      scene, camera, renderer, laser and crosshair are set there, before any
      callback is registered, and are never cleared, so the guards on them
      (lines 96, 203, 297, 379) pass.
    - React: [setGameState(updater)] applies a pure updater to the state
      cell; [gameState] read inside a callback is the snapshot of the render
      that created the callback, and is a parameter of [handleShoot] and
      [onResults].
    - [setTimeout] callbacks are kept in [timers] with their due time, and
      every callback of the model is given the time at which it runs.
    - Not modelled: background generation ([generateBackground] touches only
      [bgImage] and [isGeneratingBg]), the scene graph (the component never
      reads it back) and what the audio context does with a sound. *)

From Stdlib Require Floats.
From Stdlib Require Import Reals Lra Lia ZArith List String.
From stdpp Require Import base list.
Import ListNotations.

Local Open Scope R_scope.

(** ** THREE.Vector3 *)

Record Vector3 := mkV { vx : R; vy : R; vz : R }.

Module V3.

Definition zero : Vector3 := mkV 0 0 0.

Definition add (a b : Vector3) : Vector3 :=
  mkV (vx a + vx b) (vy a + vy b) (vz a + vz b).

Definition sub (a b : Vector3) : Vector3 :=
  mkV (vx a - vx b) (vy a - vy b) (vz a - vz b).

Definition multiplyScalar (a : Vector3) (s : R) : Vector3 :=
  mkV (vx a * s) (vy a * s) (vz a * s).

(** three.js: [divideScalar(s) { return this.multiplyScalar(1 / s) }] *)
Definition divideScalar (a : Vector3) (s : R) : Vector3 :=
  multiplyScalar a (1 / s).

Definition setScalar (s : R) : Vector3 := mkV s s s.

Definition dot (a b : Vector3) : R :=
  vx a * vx b + vy a * vy b + vz a * vz b.

Definition lengthSq (a : Vector3) : R := dot a a.

Definition length (a : Vector3) : R := sqrt (lengthSq a).

(** JavaScript [x || 1] on a number: [1] when [x] is [0]. *)
Definition or_one (x : R) : R := if Req_dec_T x 0 then 1 else x.

(** three.js: [normalize() { return this.divideScalar(this.length() || 1) }] *)
Definition normalize (a : Vector3) : Vector3 :=
  divideScalar a (or_one (length a)).

(** three.js: [lerp(v, alpha)]: [this.x += (v.x - this.x) * alpha], ... *)
Definition lerp (a v : Vector3) (alpha : R) : Vector3 :=
  mkV (vx a + (vx v - vx a) * alpha)
      (vy a + (vy v - vy a) * alpha)
      (vz a + (vz v - vz a) * alpha).

(** [MathUtils.clamp(x, lo, hi) = Math.max(lo, Math.min(hi, x))] *)
Definition clamp (x lo hi : R) : R := Rmax lo (Rmin hi x).

(** three.js:
    [angleTo(v) { const denominator = Math.sqrt(this.lengthSq() * v.lengthSq());
                  if (denominator === 0) return Math.PI / 2;
                  const theta = this.dot(v) / denominator;
                  return Math.acos(MathUtils.clamp(theta, -1, 1)) }] *)
Definition angleTo (a v : Vector3) : R :=
  let denominator := sqrt (lengthSq a * lengthSq v) in
  if Req_dec_T denominator 0 then PI / 2
  else acos (clamp (dot a v / denominator) (-1) 1).

End V3.

(** ** Landmarks (src/types.ts) *)

Record Point := mkPoint { px : R; py : R; pz : R }.

(** ** Aim resolver ([onResults], lines 285-295) *)

Definition gunOrigin (indexBase : Point) : Vector3 :=
  mkV ((px indexBase - 0.5) * 12) (- (py indexBase - 0.5) * 12) (-2).

(** The vector handed to [normalize()] at line 291. *)
Definition aimVector (indexTip indexBase : Point) : Vector3 :=
  mkV (px indexTip - px indexBase) (- (py indexTip - py indexBase)) (-0.5).

Definition aimDirection (indexTip indexBase : Point) : Vector3 :=
  V3.normalize (aimVector indexTip indexBase).

(** ** src/constants.ts *)

Definition ENEMY_COUNT : nat := 4.
Definition SPAWN_RADIUS : R := 15.
Definition SPEED_MIN : R := 0.05.
Definition SPEED_MAX : R := 0.12.
Definition AIM_ASSIST_RADIUS : R := 1.5.
Definition AIM_ASSIST_STRENGTH : R := 0.4.
Definition DETECTION_FREQ_MS : Z := 33.
Definition TRIGGER_THRESHOLD : R := 0.06.

(** ** src/types.ts *)

Inductive HitFlash := hit | miss.

Record GameState := mkGameState {
  score : Z;
  combo : Z;
  isGameOver : bool;
  handDetected : bool;
  loading : bool;
  loadingProgress : Z;
  statusMessage : string;
  lastHitTime : Z;
  hitFlash : option HitFlash
}.

(** The part of a [THREE.Mesh] the component reads or writes: position,
    Euler rotation, scale and the emissive colour of its material. *)
Record Mesh := mkMesh {
  position : Vector3;
  rotation : Vector3;
  scale : Vector3;
  color : Z;
  emissive : Z
}.

Record Enemy := mkEnemy {
  id : string;
  mesh : Mesh;
  velocity : Vector3;
  spawnTime : Z;
  isDying : bool;
  points : Z;
  type : string
}.

(** [text] is one of the two templates of [handleShoot]:
    [`+${totalPoints}${gameState.combo > 5 ? flame : ''}`] or ["MISS"]. *)
Inductive VfxText :=
| PointsText (totalPoints : Z) (flame : bool)
| MissText.

Record FloatingText := mkFloatingText {
  ft_id : string;
  text : VfxText;
  ft_position : Vector3;
  ft_color : string;
  life : R
}.

(** ** The detector's result object

    [results.multiHandLandmarks] may be absent; the array may be empty; a
    hand entry may be null; a landmark may be undefined (index out of range
    or a hole).  Reading a property of null / undefined throws. *)
Definition Landmarks := option (list (option Point)).

Record Results := mkResults {
  multiHandLandmarks : option (list Landmarks)
}.

(** ** The mutable refs of the component *)

Record Laser := mkLaser {
  laser_position : Vector3;
  laser_lookAt : Vector3;
  laser_opacity : R;
  laser_color : Z
}.

Record Crosshair := mkCrosshair {
  crosshair_position : Vector3;
  crosshair_color : Z;
  crosshair_scale : R
}.

Inductive OscillatorType := sine | square | sawtooth | triangle.

(** One call [playSound(frequency, type, duration, volume)]. *)
Record Sound := mkSound {
  frequency : Z;
  wave : OscillatorType;
  duration : R;
  volume : R
}.

(** The callbacks handed to [setTimeout]; an enemy is captured by
    reference. *)
Inductive TimerAction :=
| LaserReset
| FlashReset
| RemoveEnemy (enemy : nat).

Record Timer := mkTimer { due : Z; action : TimerAction }.

(** [state] is the React state cell ([setGameState] updaters are pure and
    applied in the order they are queued, so the cell is kept up to date);
    [store] holds every enemy object ever created, [enemies] is
    [enemiesRef.current], an array of references into [store];
    [sounds] records the calls to [playSound], oldest first;
    [randomCalls] and [idCalls] count the draws taken from the two random
    oracles of section [Game]. *)
Record World := mkWorld {
  state : GameState;
  store : list Enemy;
  enemies : list nat;
  vfx : list FloatingText;
  isTriggered : bool;
  lastDetection : Z;
  laser : Laser;
  crosshair : Crosshair;
  timers : list Timer;
  sounds : list Sound;
  randomCalls : nat;
  idCalls : nat
}.

Definition setGameState (f : GameState -> GameState) (w : World) : World :=
  mkWorld (f (state w)) (store w) (enemies w) (vfx w) (isTriggered w)
          (lastDetection w) (laser w) (crosshair w) (timers w) (sounds w)
          (randomCalls w) (idCalls w).

Definition set_store (x : list Enemy) (w : World) : World :=
  mkWorld (state w) x (enemies w) (vfx w) (isTriggered w)
          (lastDetection w) (laser w) (crosshair w) (timers w) (sounds w)
          (randomCalls w) (idCalls w).

Definition set_enemies (x : list nat) (w : World) : World :=
  mkWorld (state w) (store w) x (vfx w) (isTriggered w)
          (lastDetection w) (laser w) (crosshair w) (timers w) (sounds w)
          (randomCalls w) (idCalls w).

Definition set_vfx (x : list FloatingText) (w : World) : World :=
  mkWorld (state w) (store w) (enemies w) x (isTriggered w)
          (lastDetection w) (laser w) (crosshair w) (timers w) (sounds w)
          (randomCalls w) (idCalls w).

Definition set_isTriggered (x : bool) (w : World) : World :=
  mkWorld (state w) (store w) (enemies w) (vfx w) x
          (lastDetection w) (laser w) (crosshair w) (timers w) (sounds w)
          (randomCalls w) (idCalls w).

Definition set_lastDetection (x : Z) (w : World) : World :=
  mkWorld (state w) (store w) (enemies w) (vfx w) (isTriggered w)
          x (laser w) (crosshair w) (timers w) (sounds w)
          (randomCalls w) (idCalls w).

Definition set_laser (x : Laser) (w : World) : World :=
  mkWorld (state w) (store w) (enemies w) (vfx w) (isTriggered w)
          (lastDetection w) x (crosshair w) (timers w) (sounds w)
          (randomCalls w) (idCalls w).

Definition set_crosshair (x : Crosshair) (w : World) : World :=
  mkWorld (state w) (store w) (enemies w) (vfx w) (isTriggered w)
          (lastDetection w) (laser w) x (timers w) (sounds w)
          (randomCalls w) (idCalls w).

Definition set_timers (x : list Timer) (w : World) : World :=
  mkWorld (state w) (store w) (enemies w) (vfx w) (isTriggered w)
          (lastDetection w) (laser w) (crosshair w) x (sounds w)
          (randomCalls w) (idCalls w).

Definition set_sounds (x : list Sound) (w : World) : World :=
  mkWorld (state w) (store w) (enemies w) (vfx w) (isTriggered w)
          (lastDetection w) (laser w) (crosshair w) (timers w) x
          (randomCalls w) (idCalls w).

Definition set_randomCalls (x : nat) (w : World) : World :=
  mkWorld (state w) (store w) (enemies w) (vfx w) (isTriggered w)
          (lastDetection w) (laser w) (crosshair w) (timers w) (sounds w)
          x (idCalls w).

Definition set_idCalls (x : nat) (w : World) : World :=
  mkWorld (state w) (store w) (enemies w) (vfx w) (isTriggered w)
          (lastDetection w) (laser w) (crosshair w) (timers w) (sounds w)
          (randomCalls w) x.

(** The enemy objects of [enemiesRef.current], in array order. *)
Definition enemyObjects (w : World) : list Enemy :=
  omap (fun r => store w !! r) (enemies w).

(** [setTimeout(callback, delay)] issued at time [now]. *)
Definition setTimeout (now : Z) (a : TimerAction) (delay : Z) (w : World) : World :=
  set_timers (timers w ++ [mkTimer (now + delay) a]) w.

(** [playSound]: the call is recorded; what the audio context does with it
    is outside the component's logic. *)
Definition playSound (f : Z) (t : OscillatorType) (d v : R) (w : World) : World :=
  set_sounds (sounds w ++ [mkSound f t d v]) w.

(** ** The component's callbacks *)

(** [new THREE.Raycaster(origin, direction)] *)
Record Raycaster := mkRaycaster { ray_origin : Vector3; ray_direction : Vector3 }.

Record Intersection := mkIntersection { distance : R; point : Vector3 }.

(** JavaScript [Array.prototype.findIndex]; [None] stands for [-1]. *)
Fixpoint findIndex {A : Type} (p : A -> bool) (l : list A) : option nat :=
  match l with
  | [] => None
  | x :: rest => if p x then Some 0%nat else option_map S (findIndex p rest)
  end.

Definition AIM_ASSIST_ANGLE : R := AIM_ASSIST_RADIUS * (PI / 180) * 6.

(** One iteration of the [forEach] at lines 303-312; the accumulator is
    [(finalAimDir, targetFound)]. *)
Definition assistStep (gunOrigin : Vector3) (acc : Vector3 * bool) (enemy : Enemy)
  : Vector3 * bool :=
  if isDying enemy then acc
  else
    let toEnemy := V3.normalize (V3.sub (position (mesh enemy)) gunOrigin) in
    let angle := V3.angleTo (fst acc) toEnemy in
    if Rlt_dec angle AIM_ASSIST_ANGLE
    then (V3.lerp (fst acc) toEnemy AIM_ASSIST_STRENGTH, true)
    else acc.

Definition aimAssist (gunOrigin aimDirection : Vector3) (es : list Enemy)
  : Vector3 * bool :=
  fold_left (assistStep gunOrigin) es (aimDirection, false).

(** Line 325. *)
Definition triggerDistance (thumbTip indexBase : Point) : R :=
  sqrt ((px thumbTip - px indexBase) ^ 2 + (py thumbTip - py indexBase) ^ 2).

(** The per-frame tick of a floating text (lines 399-403): the callback of
    [filter] first mutates the item, then tests it. *)
Definition tickVfx (v : FloatingText) : FloatingText :=
  mkFloatingText (ft_id v) (text v)
    (mkV (vx (ft_position v)) (vy (ft_position v) + 0.04) (vz (ft_position v)))
    (ft_color v) (life v - 0.025).

Definition alive (v : FloatingText) : bool :=
  if Rlt_dec 0 (life v) then true else false.

Definition ageVfx (l : list FloatingText) : list FloatingText :=
  List.filter alive (map tickVfx l).

(** The spawn table of [spawnEnemy] (lines 98-113):
    (color, scale, speedMult, points, type). *)
Record Config := mkConfig {
  cfg_color : Z; cfg_scale : R; cfg_speedMult : R; cfg_points : Z; cfg_type : string
}.

Definition chooseConfig (rand : R) : Config :=
  if Rlt_dec rand 0.1 then mkConfig 0x33ffff 1.0 1.3 500 "phantom"
  else if Rlt_dec rand 0.25 then mkConfig 0xffff33 0.6 1.8 250 "racer"
  else if Rlt_dec rand 0.45 then mkConfig 0xbb33ff 1.8 0.6 150 "titan"
  else mkConfig 0xff3333 1.0 1.0 100 "normal".

(** The per-frame advancement of a live enemy (lines 382-389). *)
Definition advance (now : Z) (e : Enemy) : Enemy :=
  let m := mesh e in
  let m' :=
    mkMesh (V3.add (position m) (velocity e))
           (mkV (vx (rotation m) + 0.02) (vy (rotation m) + 0.03) (vz (rotation m)))
           (if String.eqb (type e) "phantom"
            then V3.setScalar (1.0 + sin (IZR now * 0.005) * 0.2)
            else scale m)
           (color m) (emissive m) in
  mkEnemy (id e) m' (velocity e) (spawnTime e) (isDying e) (points e) (type e).

Definition outOfBounds (e : Enemy) : bool :=
  if Rlt_dec 30 (V3.length (position (mesh e))) then true else false.

(** [enemy.isDying = true] (line 221). *)
Definition setDying (e : Enemy) : Enemy :=
  mkEnemy (id e) (mesh e) (velocity e) (spawnTime e) true (points e) (type e).

(** [enemy.mesh.scale.multiplyScalar(2.0)] and
    [material.emissive.setHex(0xffffff)] (lines 246-247). *)
Definition flare (e : Enemy) : Enemy :=
  let m := mesh e in
  mkEnemy (id e)
          (mkMesh (position m) (rotation m) (V3.multiplyScalar (scale m) 2.0)
                  (color m) 0xffffff)
          (velocity e) (spawnTime e) (isDying e) (points e) (type e).

(** A mutation of the enemy object behind reference [r]. *)
Definition updateEnemy (r : nat) (f : Enemy -> Enemy) (w : World) : World :=
  set_store (alter f r (store w)) w.

(** ** Exceptions

    A computation of [onResults] transforms the world and either returns a
    value or throws; the mutations made before the throw stay. *)
Definition M (A : Type) : Type := World -> World * option A.

Definition ret {A : Type} (a : A) : M A := fun w => (w, Some a).

Definition throw {A : Type} : M A := fun w => (w, None).

Definition bind {A B : Type} (m : M A) (k : A -> M B) : M B :=
  fun w => match m w with
           | (w', Some a) => k a w'
           | (w', None) => (w', None)
           end.

Definition modify (f : World -> World) : M unit := fun w => (f w, Some tt).

Definition gets {A : Type} (f : World -> A) : M A := fun w => (w, Some (f w)).

(** [try { body } catch (error) { console.error(..) }] *)
Definition tryCatch (body : M unit) (w : World) : World := fst (body w).

Declare Scope m_scope.
Delimit Scope m_scope with M.
Notation "x <- m ;;; k" := (bind m (fun x => k))
  (at level 100, m at next level, right associativity) : m_scope.
Notation "m ;;; k" := (bind m (fun _ => k))
  (at level 100, right associativity) : m_scope.

(** [landmarks[i]]: throws when [landmarks] is null or undefined, yields
    undefined for an index out of range or a hole. *)
Definition getIndex (landmarks : Landmarks) (i : nat) : M (option Point) :=
  match landmarks with
  | None => throw
  | Some l => ret (mjoin (l !! i))
  end.

(** The first property read of a landmark ([indexBase.x], ...): throws when
    the landmark is undefined. *)
Definition deref (p : option Point) : M Point :=
  match p with
  | None => throw
  | Some q => ret q
  end.

(** What [handleShoot] does before it looks for a target (lines 201-211). *)
Definition shotFired (now : Z) (w : World) : World :=
  setTimeout now LaserReset 50
    (set_laser (mkLaser (laser_position (laser w)) (laser_lookAt (laser w))
                        1.0 0xffffff)
       (playSound 150 square 0.1 0.4 w)).

Section Game.

(** The environment: the ray/mesh intersection test of three.js and the
    outcomes of [Math.random()].  [random k] is the k-th number drawn where
    the number itself is used; [randomId k] is the string produced by the
    k-th [Math.random().toString(..)] expression evaluated. *)
Variable intersectObject : Raycaster -> Mesh -> list Intersection.
Variable random : nat -> R.
Variable randomId : nat -> string.

(** [spawnEnemy] (lines 95-151), called at time [now]. *)
Definition spawnEnemy (now : Z) (w : World) : World :=
  let k := randomCalls w in
  let rand := random k in
  let config := chooseConfig rand in
  let angle := random (k + 1) * PI * 2 in
  let x := cos angle * SPAWN_RADIUS in
  let y := (random (k + 2) - 0.5) * 10 in
  let z := - sin angle * SPAWN_RADIUS in
  let pos := mkV x y z in
  let baseSpeed := SPEED_MIN + random (k + 3) * (SPEED_MAX - SPEED_MIN) in
  let speed := baseSpeed * cfg_speedMult config in
  let velocity :=
    V3.multiplyScalar (V3.normalize (V3.sub V3.zero pos)) speed in
  let e :=
    mkEnemy (randomId (idCalls w))
            (mkMesh pos V3.zero (V3.setScalar (cfg_scale config))
                    (cfg_color config) (cfg_color config))
            velocity now false (cfg_points config) (cfg_type config) in
  set_idCalls (S (idCalls w))
    (set_randomCalls (k + 4)
      (set_enemies (enemies w ++ [List.length (store w)])
        (set_store (store w ++ [e]) w))).

(** [triggerFlash] (lines 195-198). *)
Definition triggerFlash (now : Z) (t : HitFlash) (w : World) : World :=
  setTimeout now FlashReset 150
    (setGameState (fun prev =>
       mkGameState (score prev) (combo prev) (isGameOver prev) (handDetected prev)
                   (loading prev) (loadingProgress prev) (statusMessage prev)
                   (lastHitTime prev) (Some t)) w).

(** [e => raycaster.intersectObject(e.mesh).length > 0] *)
Definition intersects (raycaster : Raycaster) (e : Enemy) : bool :=
  match intersectObject raycaster (mesh e) with
  | [] => false
  | _ :: _ => true
  end.

(** The callback of [findIndex] at lines 214-217, on a reference. *)
Definition hitTest (raycaster : Raycaster) (w : World) (r : nat) : bool :=
  match store w !! r with
  | Some e => intersects raycaster e
  | None => false
  end.

(** [handleShoot] (lines 200-269).  [gameState] is the variable of that
    name in the closure of [handleShoot]: the state snapshot of the render
    that created the closure.  [prev] inside the updaters is the React state
    cell.  [now] is the time of the call; [lastHitTime], which the updater
    reads from the clock when React runs it, is given that time. *)
Definition handleShoot (gameState : GameState) (now : Z)
    (direction origin : Vector3) (w : World) : World :=
  let w := playSound 150 square 0.1 0.4 w in
  let w := set_laser (mkLaser (laser_position (laser w)) (laser_lookAt (laser w))
                              1.0 0xffffff) w in
  let w := setTimeout now LaserReset 50 w in
  let raycaster := mkRaycaster origin direction in
  match findIndex (hitTest raycaster w) (enemies w) with
  | Some hitEnemyIndex =>
      match enemies w !! hitEnemyIndex with
      | Some r =>
          match store w !! r with
          | Some enemy =>
              let w := updateEnemy r setDying w in
              let w := triggerFlash now hit w in
              let comboBonus := (combo gameState / 5 * 50)%Z in
              let totalPoints := (points enemy + comboBonus)%Z in
              let w := setGameState (fun prev =>
                 mkGameState (score prev + totalPoints) (combo prev + 1)
                   (isGameOver prev) (handDetected prev) (loading prev)
                   (loadingProgress prev) (statusMessage prev) now
                   (hitFlash prev)) w in
              let w := playSound (600 + combo gameState * 20) sine 0.3 0.4 w in
              let hitPos := position (mesh enemy) in
              let w := set_idCalls (S (idCalls w))
                 (set_vfx (vfx w ++
                    [mkFloatingText (randomId (idCalls w))
                       (PointsText totalPoints (5 <? combo gameState)%Z)
                       hitPos "#4ade80" 1.0]) w) in
              let w := updateEnemy r flare w in
              setTimeout now (RemoveEnemy r) 100 w
          | None => w
          end
      | None => w
      end
  | None =>
      let w := triggerFlash now miss w in
      let w := setGameState (fun prev =>
         mkGameState (score prev) 0 (isGameOver prev) (handDetected prev)
           (loading prev) (loadingProgress prev) (statusMessage prev)
           (lastHitTime prev) (hitFlash prev)) w in
      let w := playSound 100 sawtooth 0.2 0.2 w in
      let targetPos := V3.add origin (V3.multiplyScalar direction 15) in
      set_idCalls (S (idCalls w))
        (set_vfx (vfx w ++
           [mkFloatingText (randomId (idCalls w)) MissText targetPos "#f87171" 1.0]) w)
  end.

(** The world after a miss. *)
Definition missWorld (now : Z) (direction origin : Vector3) (w : World) : World :=
  let w1 := shotFired now w in
  mkWorld
    (mkGameState (score (state w)) 0 (isGameOver (state w)) (handDetected (state w))
       (loading (state w)) (loadingProgress (state w)) (statusMessage (state w))
       (lastHitTime (state w)) (Some miss))
    (store w) (enemies w)
    (vfx w ++ [mkFloatingText (randomId (idCalls w)) MissText
                 (V3.add origin (V3.multiplyScalar direction 15)) "#f87171" 1.0])
    (isTriggered w) (lastDetection w) (laser w1) (crosshair w)
    (timers w ++ [mkTimer (now + 50) LaserReset; mkTimer (now + 150) FlashReset])
    (sounds w ++ [mkSound 150 square 0.1 0.4; mkSound 100 sawtooth 0.2 0.2])
    (randomCalls w) (S (idCalls w)).

(** The world after a hit on the enemy [enemy] behind reference [r]. *)
Definition hitWorld (gameState : GameState) (now : Z) (r : nat) (enemy : Enemy)
    (w : World) : World :=
  let w1 := shotFired now w in
  let totalPoints := (points enemy + combo gameState / 5 * 50)%Z in
  mkWorld
    (mkGameState (score (state w) + totalPoints) (combo (state w) + 1)
       (isGameOver (state w)) (handDetected (state w))
       (loading (state w)) (loadingProgress (state w)) (statusMessage (state w))
       now (Some hit))
    (alter flare r (alter setDying r (store w))) (enemies w)
    (vfx w ++ [mkFloatingText (randomId (idCalls w))
                 (PointsText totalPoints (5 <? combo gameState)%Z)
                 (position (mesh enemy)) "#4ade80" 1.0])
    (isTriggered w) (lastDetection w) (laser w1) (crosshair w)
    (timers w ++ [mkTimer (now + 50) LaserReset; mkTimer (now + 150) FlashReset;
                  mkTimer (now + 100) (RemoveEnemy r)])
    (sounds w ++ [mkSound 150 square 0.1 0.4;
                  mkSound (600 + combo gameState * 20) sine 0.3 0.4])
    (randomCalls w) (S (idCalls w)).

(** The updaters of lines 278 and 337. *)
Definition handSeen (prev : GameState) : GameState :=
  if handDetected prev then prev
  else mkGameState (score prev) (combo prev) (isGameOver prev) true
         (loading prev) (loadingProgress prev) (statusMessage prev)
         (lastHitTime prev) (hitFlash prev).

Definition handLost (prev : GameState) : GameState :=
  if negb (handDetected prev) then prev
  else mkGameState (score prev) (combo prev) (isGameOver prev) false
         (loading prev) (loadingProgress prev) (statusMessage prev)
         (lastHitTime prev) (hitFlash prev).

(** The body of the [try] block of [onResults] (lines 277-338).
    [laserRef.current] and [crosshairRef.current] are set by [initThree]
    before [onResults] is registered and never cleared, so the test of
    line 297 holds. *)
Definition onResultsBody (gameState : GameState) (now : Z) (results : Results)
  : M unit :=
  (match multiHandLandmarks results with
   | Some (landmarks :: _) =>
       modify (setGameState handSeen) ;;;
       indexTip <- getIndex landmarks 8 ;;;
       indexBase <- getIndex landmarks 5 ;;;
       thumbTip <- getIndex landmarks 4 ;;;
       base <- deref indexBase ;;;
       let gunOrigin := gunOrigin base in
       tip <- deref indexTip ;;;
       let aimDirection := aimDirection tip base in
       modify (fun w => set_laser
         (mkLaser gunOrigin (laser_lookAt (laser w)) (laser_opacity (laser w))
                  (laser_color (laser w))) w) ;;;
       es <- gets enemyObjects ;;;
       let (finalAimDir, targetFound) := aimAssist gunOrigin aimDirection es in
       modify (fun w => set_crosshair
         (mkCrosshair (crosshair_position (crosshair w))
            (if targetFound then 0xffff00 else 0x00ff00)%Z
            (if targetFound then 1.6 + sin (IZR now * 0.01) * 0.2 else 1.0)) w) ;;;
       modify (fun w => set_laser
         (mkLaser (laser_position (laser w)) (V3.add gunOrigin finalAimDir)
                  (laser_opacity (laser w)) (laser_color (laser w))) w) ;;;
       (* line 321: multiplyScalar(20) mutates finalAimDir in place *)
       let finalAimDir := V3.multiplyScalar finalAimDir 20 in
       modify (fun w => set_crosshair
         (mkCrosshair (V3.add gunOrigin finalAimDir) (crosshair_color (crosshair w))
                      (crosshair_scale (crosshair w))) w) ;;;
       thumb <- deref thumbTip ;;;
       let dist := triggerDistance thumb base in
       if Rlt_dec dist TRIGGER_THRESHOLD then
         triggered <- gets isTriggered ;;;
         if negb triggered then
           modify (set_isTriggered true) ;;;
           modify (handleShoot gameState now (V3.normalize finalAimDir) gunOrigin)
         else ret tt
       else modify (set_isTriggered false)
   | _ =>
       modify (setGameState handLost)
   end)%M.

(** [onResults] (lines 271-342), called at time [now = Date.now()]. *)
Definition onResults (gameState : GameState) (now : Z) (results : Results)
    (w : World) : World :=
  if (now - lastDetection w <? DETECTION_FREQ_MS)%Z then w
  else tryCatch (onResultsBody gameState now results) (set_lastDetection now w).

(** The callback of the removal timer (lines 249-253); [r] is the enemy
    the closure captured. *)
Definition removeAndRespawn (now : Z) (r : nat) (w : World) : World :=
  match store w !! r with
  | Some enemy =>
      spawnEnemy now
        (set_enemies
           (List.filter (fun r' => match store w !! r' with
                                   | Some e => negb (String.eqb (id e) (id enemy))
                                   | None => true
                                   end) (enemies w)) w)
  | None => w
  end.

(** One iteration of the [forEach] of [animate] (lines 380-397) on the
    enemy behind reference [r]. *)
Definition animateEnemy (now : Z) (w : World) (r : nat) : World :=
  match store w !! r with
  | Some enemy =>
      let w := if isDying enemy then w else updateEnemy r (advance now) w in
      match store w !! r with
      | Some enemy' =>
          if outOfBounds enemy' then removeAndRespawn now r w else w
      | None => w
      end
  | None => w
  end.

(** [animate] (lines 376-407), called at time [now].  The [forEach] walks
    the array that was [enemiesRef.current] when the frame began: the arrays
    built by [filter] during the walk, and the enemies pushed onto them, are
    not visited. *)
Definition animate (now : Z) (w : World) : World :=
  let w := fold_left (animateEnemy now) (enemies w) w in
  set_vfx (ageVfx (vfx w)) w.

(** ** Mounting and the event loop *)

(** The argument of [useState] (lines 8-18). *)
Definition initialGameState : GameState :=
  mkGameState 0 0 false false true 0 "Initializing neural uplink..." 0 None.

(** The refs before [initThree] has run. *)
Definition emptyWorld : World :=
  mkWorld initialGameState [] [] [] false 0
          (mkLaser V3.zero V3.zero 0.6 0xff0000)
          (mkCrosshair V3.zero 0x00ff00 1.0)
          [] [] 0 0.

(** [initThree] (lines 153-193): scene, laser, crosshair and
    [for (let i = 0; i < ENEMY_COUNT; i++) spawnEnemy()]. *)
Definition initThree (now : Z) : World :=
  Nat.iter ENEMY_COUNT (spawnEnemy now) emptyWorld.

(** The effect of lines 344-415 has an empty dependency list: it runs once,
    after the first render, and registers the [onResults] of that render
    with the detector.  The [gameState] that this [onResults] and the
    [handleShoot] it calls close over is therefore the state of the first
    render, [initialGameState], for as long as the component is mounted. *)
Definition registeredOnResults : Z -> Results -> World -> World :=
  onResults initialGameState.

Definition registeredHandleShoot : Z -> Vector3 -> Vector3 -> World -> World :=
  handleShoot initialGameState.

Definition runTimer (now : Z) (a : TimerAction) (w : World) : World :=
  match a with
  | LaserReset =>
      set_laser (mkLaser (laser_position (laser w)) (laser_lookAt (laser w))
                         0.6 0xff0000) w
  | FlashReset =>
      setGameState (fun prev =>
        mkGameState (score prev) (combo prev) (isGameOver prev) (handDetected prev)
                    (loading prev) (loadingProgress prev) (statusMessage prev)
                    (lastHitTime prev) None) w
  | RemoveEnemy r => removeAndRespawn now r w
  end.

(** What the browser can call after mounting, with the time of the call:
    the detector delivers a result, an animation frame is due, or the
    [k]-th pending timer fires. *)
Inductive Event :=
| Detect (now : Z) (results : Results)
| Frame (now : Z)
| Fire (now : Z) (k : nat).

Definition eventTime (ev : Event) : Z :=
  match ev with
  | Detect now _ => now
  | Frame now => now
  | Fire now _ => now
  end.

(** One callback.  Time does not run backwards, and a timer does not fire
    before it is due. *)
Definition step (clock : Z) (ev : Event) (w : World) : option World :=
  if (eventTime ev <? clock)%Z then None
  else
    match ev with
    | Detect now results => Some (registeredOnResults now results w)
    | Frame now => Some (animate now w)
    | Fire now k =>
        match timers w !! k with
        | Some t =>
            if (now <? due t)%Z then None
            else Some (runTimer now (action t) (set_timers (delete k (timers w)) w))
        | None => None
        end
    end.

Fixpoint run (clock : Z) (evs : list Event) (w : World) : option World :=
  match evs with
  | [] => Some w
  | ev :: rest =>
      match step clock ev w with
      | Some w' => run (eventTime ev) rest w'
      | None => None
      end
  end.

(** The states the mounted component can be in. *)
Definition reachable (w : World) : Prop :=
  exists (t0 : Z) (evs : list Event), run t0 evs (initThree t0) = Some w.

End Game.

(** ** Summaries of a detection tick

    [aimWorld] is the world after lines 274-323 of a tick at time [now]
    that found a hand with index base [base] and index tip [tip];
    [shotDirection] is the direction [finalAimDir.normalize()] of line 330. *)
Definition assisted (base tip : Point) (w : World) : Vector3 * bool :=
  aimAssist (gunOrigin base) (aimDirection tip base) (enemyObjects w).

Definition aimWorld (now : Z) (base tip : Point) (w : World) : World :=
  let finalAimDir := fst (assisted base tip w) in
  let targetFound := snd (assisted base tip w) in
  mkWorld (handSeen (state w)) (store w) (enemies w) (vfx w) (isTriggered w) now
    (mkLaser (gunOrigin base) (V3.add (gunOrigin base) finalAimDir)
             (laser_opacity (laser w)) (laser_color (laser w)))
    (mkCrosshair (V3.add (gunOrigin base) (V3.multiplyScalar finalAimDir 20))
                 (if targetFound then 0xffff00 else 0x00ff00)%Z
                 (if targetFound then 1.6 + sin (IZR now * 0.01) * 0.2 else 1.0))
    (timers w) (sounds w) (randomCalls w) (idCalls w).

Definition shotDirection (base tip : Point) (w : World) : Vector3 :=
  V3.normalize (V3.multiplyScalar (fst (assisted base tip w)) 20).

(** The three landmarks a tick reads, when the result has a first hand in
    which all three are present: (thumb tip, index base, index tip). *)
Definition trackedHand (results : Results) : option (Point * Point * Point) :=
  match multiHandLandmarks results with
  | Some (Some l :: _) =>
      match mjoin (l !! 4%nat), mjoin (l !! 5%nat), mjoin (l !! 8%nat) with
      | Some thumbTip, Some indexBase, Some indexTip =>
          Some (thumbTip, indexBase, indexTip)
      | _, _, _ => None
      end
  | _ => None
  end.

(** The two landmarks the aim is computed from, when the result has a
    first hand in which both are present: (index base, index tip). *)
Definition aimLandmarks (results : Results) : option (Point * Point) :=
  match multiHandLandmarks results with
  | Some (Some l :: _) =>
      match mjoin (l !! 5%nat), mjoin (l !! 8%nat) with
      | Some indexBase, Some indexTip => Some (indexBase, indexTip)
      | _, _ => None
      end
  | _ => None
  end.

(** A result that reports no hand: the array is absent or empty. *)
Definition noHand (results : Results) : bool :=
  match multiHandLandmarks results with
  | Some (_ :: _) => false
  | _ => true
  end.

(** The thumb-tip to index-base distance of such a result. *)
Definition pinch (results : Results) : option R :=
  match trackedHand results with
  | Some (thumbTip, indexBase, _) => Some (triggerDistance thumbTip indexBase)
  | None => None
  end.

(** The fire signals so far: [handleShoot] begins with the one call
    [playSound(150, 'square', ..)] and nothing else plays a square wave. *)
Definition isShot (s : Sound) : bool :=
  match wave s with square => true | _ => false end.

Definition shots (w : World) : nat := List.length (List.filter isShot (sounds w)).

(** Successive detection ticks, each at least [DETECTION_FREQ_MS] after the
    last one that was processed. *)
Fixpoint spaced (last : Z) (ticks : list (Z * Results)) : Prop :=
  match ticks with
  | [] => True
  | (now, _) :: rest => (DETECTION_FREQ_MS <= now - last)%Z /\ spaced now rest
  end.

Section Ticks.

Variable intersectObject : Raycaster -> Mesh -> list Intersection.
Variable randomId : nat -> string.
Variable gameState : GameState.

Definition detect (w : World) (tick : Z * Results) : World :=
  onResults intersectObject randomId gameState (fst tick) (snd tick) w.

Definition detectAll (ticks : list (Z * Results)) (w : World) : World :=
  fold_left detect ticks w.

(** For each tick in turn, whether it produced a fire signal. *)
Fixpoint fireSignals (ticks : list (Z * Results)) (w : World) : list bool :=
  match ticks with
  | [] => []
  | tick :: rest =>
      (shots w <? shots (detect w tick))%nat :: fireSignals rest (detect w tick)
  end.

End Ticks.

(** The Trigger Detector as the specification words it (section 4.3), on
    the sequence of thumb-to-index distances and starting from edge flag
    [flag]: a frame fires when its distance is below the threshold and the
    flag is false; the flag is then true; a distance at or above the
    threshold resets it. *)
Fixpoint edgeSignals (flag : bool) (distances : list R) : list bool :=
  match distances with
  | [] => []
  | d :: rest =>
      if Rlt_dec d TRIGGER_THRESHOLD
      then negb flag :: edgeSignals true rest
      else false :: edgeSignals false rest
  end.

(** ** Summaries of an animation frame *)

(** The enemy as the bounds test of line 392 sees it: advanced unless it is
    dying. *)
Definition afterAdvance (now : Z) (e : Enemy) : Enemy :=
  if isDying e then e else advance now e.

(** Whether the enemy behind [r] is beyond the bounding radius once the
    frame at time [now] has advanced it. *)
Definition leaves (now : Z) (w : World) (r : nat) : bool :=
  match store w !! r with
  | Some e => outOfBounds (afterAdvance now e)
  | None => false
  end.

(** The array holds each enemy object once, and only objects that exist. *)
Definition wellFormed (w : World) : Prop :=
  NoDup (enemies w) /\ Forall (fun r => (r < List.length (store w))%nat) (enemies w).

(** ** Scenarios

    Concrete environments and worlds on which the callbacks are evaluated.
    What a ray intersects is decided by three.js from the torus geometry;
    the scenarios fix the outcome of that test instead of the geometry. *)

(** A ray on which every target lies: each mesh is intersected. *)
Definition hitsAll (rc : Raycaster) (m : Mesh) : list Intersection :=
  [mkIntersection 0 (position m)].

(** A ray that meets no mesh. *)
Definition hitsNone (rc : Raycaster) (m : Mesh) : list Intersection := [].

(** Pairwise different id strings: "a", "b", "c", ... *)
Definition ids (k : nat) : string :=
  String (Ascii.ascii_of_nat (97 + k)) EmptyString.

(** Every numeric draw is 0.5. *)
Definition draws (k : nat) : R := 0.5.

Definition normalMesh (z : R) : Mesh :=
  mkMesh (mkV 0 0 z) V3.zero (V3.setScalar 1.0) 0xff3333 0xff3333.

(** Two targets on the line of fire, [targetA] first in the array and
    already hit (dying, not yet removed), [targetB] live behind it. *)
Definition targetA : Enemy :=
  flare (setDying (mkEnemy "A" (normalMesh (-5)) (mkV 0 0 0.1) 0 false 100 "normal")).

Definition targetB : Enemy :=
  mkEnemy "B" (normalMesh (-10)) (mkV 0 0 0.1) 0 false 250 "racer".

Definition lineUp : World :=
  mkWorld initialGameState [targetA; targetB] [0; 1]%nat [] true 0
          (mkLaser V3.zero V3.zero 0.6 0xff0000)
          (mkCrosshair V3.zero 0x00ff00 1.0)
          [mkTimer 100 (RemoveEnemy 0)] [] 0 0.

(** A world in which five hits in a row have been scored: combo 5. *)
Definition comboFive : World :=
  mkWorld (mkGameState 500 5 false true false 0 "Uplink Established" 0 None)
          [targetB] [0%nat] [] false 0
          (mkLaser V3.zero V3.zero 0.6 0xff0000)
          (mkCrosshair V3.zero 0x00ff00 1.0)
          [] [] 0 0.

Definition forward : Vector3 := mkV 0 0 (-1).

(** A detector result with one hand of 21 landmarks; the landmarks the
    component does not read sit at the index base. *)
Definition handAt (thumbTip indexBase indexTip : Point) : Results :=
  mkResults (Some [Some (replicate 4 (Some indexBase)
                         ++ [Some thumbTip; Some indexBase]
                         ++ replicate 2 (Some indexBase)
                         ++ [Some indexTip]
                         ++ replicate 12 (Some indexBase))]).

Definition middle : Point := mkPoint 0.5 0.5 0.

(** A hand whose thumb tip is at distance [d] from its index base. *)
Definition pinchAt (d : R) : Results :=
  handAt (mkPoint (0.5 + d) 0.5 0) middle (mkPoint 0.5 0.4 0).

Definition pinchSequence : list (Z * Results) :=
  [(1000, pinchAt 0.03); (1033, pinchAt 0.03);
   (1066, pinchAt 0.08); (1100, pinchAt 0.03)]%Z.

(** A detector result whose only hand carries no landmarks. *)
Definition noLandmarks : Results := mkResults (Some [Some []]).

(** A schedule of callbacks after mounting at time 0: a pinch at 1000 ms
    fires, the hand opens at 1033 ms, a second pinch at 1066 ms fires
    again, and the six timers the two shots set fire when they are due. *)
Definition doubleHitTrace : list Event :=
  [Detect 1000 (pinchAt 0.03);
   Detect 1033 (pinchAt 0.08);
   Fire 1050 0;
   Detect 1066 (pinchAt 0.03);
   Fire 1100 1;
   Fire 1116 1;
   Fire 1150 0;
   Fire 1166 1;
   Fire 1216 0]%Z.

(** [targetA], dying, has drifted beyond the bounding radius; [targetB] is
    live and in bounds. *)
Definition farAway : World :=
  mkWorld initialGameState
          [mkEnemy "A" (normalMesh (-31)) (mkV 0 0 0.1) 0 true 100 "normal"; targetB]
          [0; 1]%nat [] false 0
          (mkLaser V3.zero V3.zero 0.6 0xff0000)
          (mkCrosshair V3.zero 0x00ff00 1.0)
          [] [] 0 0.

(** Two live targets in one direction from the origin, the second twice as
    far as the first; the unit vector towards both is [towardsBoth]. *)
Definition nearTarget : Enemy :=
  mkEnemy "n" (mkMesh (mkV 15 0 (-112)) V3.zero (V3.setScalar 1.0) 0xff3333 0xff3333)
          V3.zero 0 false 100 "normal".

Definition farTarget : Enemy :=
  mkEnemy "f" (mkMesh (mkV 30 0 (-224)) V3.zero (V3.setScalar 1.0) 0xff3333 0xff3333)
          V3.zero 0 false 100 "normal".

Definition towardsBoth : Vector3 := mkV (15 / 113) 0 (- (112 / 113)).

(** One shot and its aftermath, starting at time [t]: a pinch fires, the
    hand opens 33 ms later, and the three timers of the shot fire when due
    (laser reset at +50, removal and respawn at +100, flash reset
    at +150). *)
Definition volleyAt (t : Z) : list Event :=
  [Detect t (pinchAt 0.03); Detect (t + 33) (pinchAt 0.08);
   Fire (t + 50) 0; Fire (t + 100) 1; Fire (t + 150) 0]%Z.

Definition fiveVolleys : list Event :=
  (volleyAt 1000 ++ volleyAt 1200 ++ volleyAt 1400 ++ volleyAt 1600
   ++ volleyAt 1800)%Z.

Definition sixVolleys : list Event := fiveVolleys ++ volleyAt 2000.

(** The combo and the score a run ends with. *)
Definition comboAndScore (w : option World) : option (Z * Z) :=
  match w with
  | Some w => Some (combo (state w), score (state w))
  | None => None
  end.

(** ** Cross-check of the decay constant on binary64 floats

    [0x1.999999999999ap-6] is the binary64 value of the literal [0.025]. *)

Module FloatCheck.
Import Stdlib.Floats.Floats.
Local Open Scope float_scope.

Definition decay_rate : float := 0x1.999999999999ap-6.

Definition initial_life : float := 1.

Fixpoint decay (n : nat) (life : float) : float :=
  match n with
  | O => life
  | S k => decay k (life - decay_rate)
  end.

Definition positive (life : float) : bool := (0 <? life)%float.

End FloatCheck.

(** ** Derived notions used by the further properties *)

(** The enemy after the frames at times [times] have advanced it (lines
    382-389, once per frame). *)
Definition advanceAll (times : list Z) (e : Enemy) : Enemy :=
  fold_left (fun e now => advance now e) times e.

(** The fields a frame's walk over the enemies does not touch. *)
Definition besidesEnemies (w w' : World) : Prop :=
  state w' = state w /\ vfx w' = vfx w /\ timers w' = timers w /\
  isTriggered w' = isTriggered w /\ lastDetection w' = lastDetection w /\
  sounds w' = sounds w /\ laser w' = laser w /\ crosshair w' = crosshair w.

(** What one detection result does to the game: nothing beyond the hand
    flag, the aim and the edge flag, or one shot that misses, or one shot
    that hits the enemy behind a reference of the array. *)
Definition noShot (w w' : World) : Prop :=
  store w' = store w /\ vfx w' = vfx w /\ timers w' = timers w /\
  idCalls w' = idCalls w /\ sounds w' = sounds w /\
  score (state w') = score (state w) /\ combo (state w') = combo (state w).

Definition missShot (randomId : nat -> string) (now : Z) (w w' : World) : Prop :=
  exists pos,
    store w' = store w /\
    vfx w' = vfx w ++ [mkFloatingText (randomId (idCalls w)) MissText pos "#f87171" 1.0] /\
    timers w' = timers w ++ [mkTimer (now + 50) LaserReset; mkTimer (now + 150) FlashReset] /\
    idCalls w' = S (idCalls w) /\
    score (state w') = score (state w) /\ combo (state w') = 0%Z.

Definition hitShot (randomId : nat -> string) (gs : GameState) (now : Z) (w w' : World) : Prop :=
  exists i r e,
    enemies w !! i = Some r /\ store w !! r = Some e /\
    store w' = alter flare r (alter setDying r (store w)) /\
    vfx w' = vfx w ++ [mkFloatingText (randomId (idCalls w))
                         (PointsText (points e + combo gs / 5 * 50)
                                     (5 <? combo gs)%Z)
                         (position (mesh e)) "#4ade80" 1.0] /\
    timers w' = timers w ++ [mkTimer (now + 50) LaserReset; mkTimer (now + 150) FlashReset;
                             mkTimer (now + 100) (RemoveEnemy r)] /\
    idCalls w' = S (idCalls w) /\
    score (state w') = (score (state w) + (points e + combo gs / 5 * 50))%Z /\
    combo (state w') = (combo (state w) + 1)%Z.

(** The style of a floating text in the overlay (lines 486-493 of the
    render): [left] and [top] in percent, [opacity], the factor of
    [scale(..)] and the pixels of [translateY(..)]. *)
Record TextStyle := mkTextStyle {
  style_left : R; style_top : R; style_opacity : R;
  style_scale : R; style_translateY : R
}.

Definition textStyle (v : FloatingText) : TextStyle :=
  mkTextStyle ((vx (ft_position v) / 12 + 0.5) * 100)
              ((- vy (ft_position v) / 12 + 0.5) * 100)
              (life v)
              (0.8 + life v * 1.2)
              ((1 - life v) * -100).

(** Every enemy carries the points of one row of the spawn table. *)
Definition tablePoints (e : Enemy) : Prop :=
  points e = 100%Z \/ points e = 150%Z \/ points e = 250%Z \/ points e = 500%Z.

(** The component 1000 ms after mounting at time 0, when the first result
    of the detector, a pinch, has been processed and its shot has met no
    target. *)
Definition firstMiss : World :=
  registeredOnResults hitsNone ids 1000 (pinchAt 0.03) (initThree draws ids 0).

(** A timer that will remove the enemy behind [r] is pending. *)
Definition removalPending (w : World) (r : nat) : Prop :=
  exists t, In t (timers w) /\ action t = RemoveEnemy r.

(** The dying targets of the array of [w'] were dying targets of the array
    of [w]. *)
Definition noNewDying (w w' : World) : Prop :=
  forall r e', In r (enemies w') -> store w' !! r = Some e' -> isDying e' = true ->
               In r (enemies w) /\ exists e, store w !! r = Some e /\ isDying e = true.

(** The same moment when the shot has met every target on its way: the
    first target of the array is hit. *)
Definition firstHit (randomId : nat -> string) : World :=
  registeredOnResults hitsAll randomId 1000 (pinchAt 0.03) (initThree draws randomId 0).

(** Every id of the list is one of the first [n] strings drawn, and no two
    entries share an id. *)
Definition drawnIds {A : Type} (randomId : nat -> string) (key : A -> string)
    (n : nat) (l : list A) : Prop :=
  Forall (fun x => exists k, (k < n)%nat /\ key x = randomId k) l /\
  NoDup (map key l).

(** Id strings that never repeat: "", "a", "aa", ... *)
Definition unaryId (k : nat) : string :=
  Nat.iter k (String.append "a") EmptyString.

(** The ids of the enemy objects and of the floating texts are among the
    strings drawn so far, and no two enemies and no two texts share one. *)
Definition idsDrawn (randomId : nat -> string) (w : World) : Prop :=
  drawnIds randomId id (idCalls w) (store w) /\
  drawnIds randomId ft_id (idCalls w) (vfx w).

(** The feedback of a shot that is still showing is backed by a pending
    timer that will take it away: the screen flash by a [FlashReset], the
    white laser by a [LaserReset]. *)
Definition feedbackBacked (w : World) : Prop :=
  (hitFlash (state w) <> None ->
   exists t, In t (timers w) /\ action t = FlashReset) /\
  (laser_color (laser w) <> 0xff0000%Z ->
   exists t, In t (timers w) /\ action t = LaserReset).
(** ** Properties of the vector operations *)

Lemma lengthSq_nonneg (a : Vector3) : 0 <= V3.lengthSq a.
Proof. unfold V3.lengthSq, V3.dot. nra. Qed.

Lemma length_nonneg (a : Vector3) : 0 <= V3.length a.
Proof. apply sqrt_pos. Qed.

Lemma length_sqr (a : Vector3) : V3.length a * V3.length a = V3.lengthSq a.
Proof. apply sqrt_sqrt, lengthSq_nonneg. Qed.

Lemma length_multiplyScalar (a : Vector3) (s : R) :
  0 <= s -> V3.length (V3.multiplyScalar a s) = V3.length a * s.
Proof.
  intros Hs. unfold V3.length.
  replace (V3.lengthSq (V3.multiplyScalar a s)) with (V3.lengthSq a * (s * s))
    by (unfold V3.lengthSq, V3.dot, V3.multiplyScalar; cbn [vx vy vz]; ring).
  rewrite sqrt_mult_alt by apply lengthSq_nonneg.
  now rewrite sqrt_square.
Qed.

Lemma normalize_unit (a : Vector3) :
  V3.length a <> 0 -> V3.length (V3.normalize a) = 1.
Proof.
  intros Hne. pose proof (length_nonneg a) as Hpos.
  unfold V3.normalize, V3.divideScalar, V3.or_one.
  destruct (Req_dec_T (V3.length a) 0) as [E|_]; [contradiction|].
  rewrite length_multiplyScalar.
  - field. exact Hne.
  - apply Rlt_le. unfold Rdiv. rewrite Rmult_1_l. apply Rinv_0_lt_compat. lra.
Qed.

Lemma aimVector_length_ge (indexTip indexBase : Point) :
  0.5 <= V3.length (aimVector indexTip indexBase).
Proof.
  replace 0.5 with (sqrt (0.5 * 0.5)) by (rewrite sqrt_square; lra).
  apply sqrt_le_1_alt.
  unfold V3.lengthSq, V3.dot, aimVector; cbn [vx vy vz].
  pose proof (Rle_0_sqr (px indexTip - px indexBase)) as Hx.
  pose proof (Rle_0_sqr (- (py indexTip - py indexBase))) as Hy.
  unfold Rsqr in Hx, Hy. lra.
Qed.

(** C10. The vector normalised into the raw aim direction has z-component
    exactly -0.5 and norm at least 0.5 whatever the two landmarks are; the
    zero-length fallback of [normalize] ([length() || 1]) is therefore never
    taken, and the raw aim direction is a unit vector whose z-component is
    strictly negative - also when index tip and index base coincide. *)
Theorem aimDirection_well_defined :
  forall indexTip indexBase : Point,
    vz (aimVector indexTip indexBase) = -0.5 /\
    0.5 <= V3.length (aimVector indexTip indexBase) /\
    V3.or_one (V3.length (aimVector indexTip indexBase))
      = V3.length (aimVector indexTip indexBase) /\
    V3.length (aimDirection indexTip indexBase) = 1 /\
    vz (aimDirection indexTip indexBase) < 0 /\
    aimDirection indexBase indexBase = mkV 0 0 (-1).
Proof.
  intros tip base.
  pose proof (aimVector_length_ge tip base) as Hge.
  assert (Hor : V3.or_one (V3.length (aimVector tip base))
                = V3.length (aimVector tip base)).
  { unfold V3.or_one. destruct (Req_dec_T _ 0); [lra | reflexivity]. }
  repeat split.
  - exact Hge.
  - exact Hor.
  - apply normalize_unit. lra.
  - unfold aimDirection, V3.normalize. rewrite Hor.
    unfold V3.divideScalar, V3.multiplyScalar; cbn [vx vy vz].
    rewrite (proj1 (conj eq_refl I) : vz (aimVector tip base) = -0.5).
    assert (0 < 1 / V3.length (aimVector tip base)).
    { unfold Rdiv. rewrite Rmult_1_l. apply Rinv_0_lt_compat. lra. }
    nra.
  - unfold aimDirection, V3.normalize.
    assert (Hl : V3.length (aimVector base base) = 0.5).
    { unfold V3.length, V3.lengthSq, V3.dot, aimVector; cbn [vx vy vz].
      replace ((px base - px base) * (px base - px base) +
               - (py base - py base) * - (py base - py base) +
               -0.5 * -0.5) with (0.5 * 0.5) by lra.
      rewrite sqrt_square; lra. }
    rewrite Hl. unfold V3.or_one.
    destruct (Req_dec_T 0.5 0); [lra|].
    unfold V3.divideScalar, V3.multiplyScalar, aimVector; cbn [vx vy vz].
    f_equal; lra.
Qed.


(** ** Hit resolution and scoring *)

Lemma findIndex_Some {A : Type} (p : A -> bool) (l : list A) (i : nat) :
  findIndex p l = Some i ->
  exists x, l !! i = Some x /\ p x = true /\
            forall j y, (j < i)%nat -> l !! j = Some y -> p y = false.
Proof.
  revert i. induction l as [|a l IH]; intros i H; cbn in H; [discriminate|].
  destruct (p a) eqn:Hp.
  - injection H as <-. exists a. repeat split; [assumption|]. intros j y Hj. lia.
  - destruct (findIndex p l) as [k|] eqn:Hk; [|discriminate].
    injection H as <-. destruct (IH k eq_refl) as (x & Hx & Hpx & Hlt).
    exists x. repeat split; try assumption.
    intros [|j] y Hj Hy; cbn in Hy.
    + congruence.
    + apply (Hlt j); [lia | assumption].
Qed.

Lemma findIndex_None {A : Type} (p : A -> bool) (l : list A) :
  findIndex p l = None <-> (forall x, In x l -> p x = false).
Proof.
  induction l as [|a l IH]; cbn.
  - split; [intros _ x [] | reflexivity].
  - destruct (p a) eqn:Hp.
    + split; [discriminate|]. intros H. specialize (H a (or_introl eq_refl)). congruence.
    + destruct (findIndex p l) as [k|]; cbn.
      * split; [discriminate|]. intros H.
        assert (Some k = None) by (apply IH; intros x Hx; apply H; now right).
        discriminate.
      * split; [|reflexivity]. intros _ x [<-|Hx]; [assumption|]. now apply IH.
Qed.

Ltac unfold_world :=
  cbv beta iota zeta delta
    [setTimeout playSound triggerFlash updateEnemy setGameState
     set_store set_enemies set_vfx set_isTriggered set_lastDetection
     set_laser set_crosshair set_timers set_sounds set_randomCalls
     set_idCalls
     state store enemies vfx isTriggered lastDetection laser crosshair
     timers sounds randomCalls idCalls
     score combo isGameOver handDetected loading loadingProgress
     statusMessage lastHitTime hitFlash
     laser_position laser_lookAt laser_opacity laser_color
     crosshair_position crosshair_color crosshair_scale].

Section HitResolution.

Variable intersectObject : Raycaster -> Mesh -> list Intersection.
Variable randomId : nat -> string.


Lemma handleShoot_miss gameState now direction origin w :
  findIndex (hitTest intersectObject (mkRaycaster origin direction) w) (enemies w) = None ->
  handleShoot intersectObject randomId gameState now direction origin w
  = missWorld randomId now direction origin w.
Proof.
  intros H. unfold handleShoot.
  change (hitTest intersectObject ?rc (setTimeout _ _ _ _))
    with (hitTest intersectObject rc w).
  cbn [enemies setTimeout set_timers set_laser playSound set_sounds].
  rewrite H. unfold missWorld, shotFired. unfold_world.
  now rewrite <- !app_assoc.
Qed.

Lemma handleShoot_hit gameState now direction origin w i :
  findIndex (hitTest intersectObject (mkRaycaster origin direction) w) (enemies w) = Some i ->
  exists r enemy,
    enemies w !! i = Some r /\ store w !! r = Some enemy /\
    intersects intersectObject (mkRaycaster origin direction) enemy = true /\
    handleShoot intersectObject randomId gameState now direction origin w
    = hitWorld randomId gameState now r enemy w.
Proof.
  intros H. destruct (findIndex_Some _ _ _ H) as (r & Hr & Hp & _).
  unfold hitTest in Hp.
  destruct (store w !! r) as [enemy|] eqn:He; [|discriminate].
  exists r, enemy. repeat split; try assumption.
  unfold handleShoot.
  change (hitTest intersectObject ?rc (setTimeout _ _ _ _))
    with (hitTest intersectObject rc w).
  cbn [enemies store setTimeout set_timers set_laser playSound set_sounds].
  rewrite H, Hr, He. unfold hitWorld, shotFired. unfold_world.
  now rewrite <- !app_assoc.
Qed.

(** First match: when the ray meets the first enemy of the array, that
    enemy is the one hit, whatever lies behind it and however far it is. *)
Lemma first_match_wins gameState now direction origin w a rest ea :
  enemies w = a :: rest -> store w !! a = Some ea ->
  intersects intersectObject (mkRaycaster origin direction) ea = true ->
  handleShoot intersectObject randomId gameState now direction origin w
  = hitWorld randomId gameState now a ea w.
Proof.
  intros Hen Ha Hi.
  assert (H : findIndex (hitTest intersectObject (mkRaycaster origin direction) w)
                (enemies w) = Some 0%nat).
  { rewrite Hen. cbn [findIndex]. unfold hitTest at 1. now rewrite Ha, Hi. }
  destruct (handleShoot_hit gameState now direction origin w 0%nat H)
    as (r & enemy & Hr & He & _ & ->).
  rewrite Hen in Hr. injection Hr as <-. rewrite Ha in He. now injection He as <-.
Qed.

(** The reward of a hit: the base points of the enemy plus the bonus
    computed from the combo of the captured [gameState]; the combo of the
    state cell goes up by one. *)
Lemma handleShoot_hit_reward gameState now direction origin w i :
  findIndex (hitTest intersectObject (mkRaycaster origin direction) w) (enemies w) = Some i ->
  exists r enemy,
    enemies w !! i = Some r /\ store w !! r = Some enemy /\
    score (state (handleShoot intersectObject randomId gameState now direction origin w))
    = (score (state w) + (points enemy + combo gameState / 5 * 50))%Z /\
    combo (state (handleShoot intersectObject randomId gameState now direction origin w))
    = (combo (state w) + 1)%Z.
Proof.
  intros H. destruct (handleShoot_hit gameState now direction origin w i H)
    as (r & enemy & Hr & He & _ & ->).
  exists r, enemy. now repeat split.
Qed.

(** C9. A fire signal whose ray meets no target is a miss: the combo
    becomes 0 whatever it was, the score and the targets are left as they
    are, and a "MISS" text is shown.  Every fire signal is either such a
    miss or a hit (one points text, combo plus one), never both and never
    neither. *)
Theorem miss_resets_combo :
  forall gameState now direction origin w,
    let w' := handleShoot intersectObject randomId gameState now direction origin w in
    let target :=
      findIndex (hitTest intersectObject (mkRaycaster origin direction) w) (enemies w) in
    (target = None ->
       combo (state w') = 0%Z /\ score (state w') = score (state w) /\
       store w' = store w /\ enemies w' = enemies w /\
       exists v, vfx w' = vfx w ++ [v] /\ text v = MissText) /\
    (target <> None ->
       combo (state w') = (combo (state w) + 1)%Z /\
       exists v p f, vfx w' = vfx w ++ [v] /\ text v = PointsText p f).
Proof.
  intros gameState now direction origin w w' target. subst w'. split.
  - intros H. unfold target in H. rewrite (handleShoot_miss _ _ _ _ _ H).
    repeat split; try reflexivity. eexists. split; reflexivity.
  - intros H. destruct target as [i|] eqn:Ht; [|congruence]. unfold target in Ht.
    destruct (handleShoot_hit gameState now direction origin w i Ht)
      as (r & enemy & _ & _ & _ & ->).
    split; [reflexivity|]. do 3 eexists. split; reflexivity.
Qed.

End HitResolution.

Lemma miss_resets_combo_witness :
  combo (state (handleShoot hitsNone ids initialGameState 0 forward V3.zero comboFive))
  = 0%Z.
Proof.
  apply (miss_resets_combo hitsNone ids initialGameState 0 forward V3.zero comboFive).
  reflexivity.
Defined.

(** C1 (the code at the failing input).  [targetA] is dying and first in
    the array, [targetB] is live, the ray meets both.  The fire resolves
    against the dying [targetA]: it is found at index 0, its points are
    scored again and a second removal timer is queued for it; [targetB] is
    left untouched. *)
Theorem fire_selects_dying_target :
  let rc := mkRaycaster V3.zero forward in
  let w' := handleShoot hitsAll ids initialGameState 66 forward V3.zero lineUp in
  isDying targetA = true /\ isDying targetB = false /\
  intersects hitsAll rc targetA = true /\ intersects hitsAll rc targetB = true /\
  findIndex (hitTest hitsAll rc lineUp) (enemies lineUp) = Some 0%nat /\
  score (state w') = (score (state lineUp) + points targetA)%Z /\
  timers w' = [mkTimer 100 (RemoveEnemy 0); mkTimer 116 LaserReset;
               mkTimer 216 FlashReset; mkTimer 166 (RemoveEnemy 0)] /\
  store w' !! 1%nat = Some targetB.
Proof.
  cbv zeta.
  assert (H : findIndex (hitTest hitsAll (mkRaycaster V3.zero forward) lineUp)
                (enemies lineUp) = Some 0%nat) by reflexivity.
  destruct (handleShoot_hit hitsAll ids initialGameState 66 forward V3.zero lineUp _ H)
    as (r & enemy & Hr & He & _ & ->).
  injection Hr as <-. injection He as <-.
  repeat split.
Qed.

(** The registered handler on a world with combo 5: a target worth 250
    points is hit, the score goes up by 250, not by 250 + 50, and the combo
    becomes 6. *)
Lemma registered_hit_at_combo_five :
  let w' := registeredHandleShoot hitsAll ids 0 forward V3.zero comboFive in
  combo (state comboFive) = 5%Z /\
  score (state w') = (score (state comboFive) + 250)%Z /\
  combo (state w') = 6%Z.
Proof.
  cbv zeta. unfold registeredHandleShoot.
  assert (H : findIndex (hitTest hitsAll (mkRaycaster V3.zero forward) comboFive)
                (enemies comboFive) = Some 0%nat) by reflexivity.
  destruct (handleShoot_hit hitsAll ids initialGameState 0 forward V3.zero comboFive _ H)
    as (r & enemy & Hr & He & _ & ->).
  injection Hr as <-. injection He as <-.
  repeat split.
Qed.

(** ** Detection ticks *)

Section Detection.

Variable intersectObject : Raycaster -> Mesh -> list Intersection.
Variable randomId : nat -> string.
Variable gameState : GameState.

Lemma onResults_throttled now results w :
  (now - lastDetection w < DETECTION_FREQ_MS)%Z ->
  onResults intersectObject randomId gameState now results w = w.
Proof.
  intros H. unfold onResults. apply Z.ltb_lt in H. now rewrite H.
Qed.

Lemma onResults_tracked now results thumb base tip w :
  (DETECTION_FREQ_MS <= now - lastDetection w)%Z ->
  trackedHand results = Some (thumb, base, tip) ->
  onResults intersectObject randomId gameState now results w =
    if Rlt_dec (triggerDistance thumb base) TRIGGER_THRESHOLD then
      if isTriggered w then aimWorld now base tip w
      else handleShoot intersectObject randomId gameState now
             (shotDirection base tip w) (gunOrigin base)
             (set_isTriggered true (aimWorld now base tip w))
    else set_isTriggered false (aimWorld now base tip w).
Proof.
  intros Ht Hh. unfold onResults.
  apply Z.ltb_ge in Ht. rewrite Ht. clear Ht.
  unfold trackedHand in Hh. destruct results as [[[|[l|] rest]|]]; try discriminate.
  cbv beta iota delta [multiHandLandmarks] in Hh.
  destruct (mjoin (l !! 4%nat)) as [th|] eqn:E4; [|discriminate].
  destruct (mjoin (l !! 5%nat)) as [ba|] eqn:E5; [|discriminate].
  destruct (mjoin (l !! 8%nat)) as [ti|] eqn:E8; [|discriminate].
  injection Hh as -> -> ->.
  unfold tryCatch, onResultsBody. cbn [multiHandLandmarks].
  cbv beta iota zeta delta [bind modify gets getIndex ret].
  rewrite E4, E5, E8.
  cbv beta iota zeta delta [bind modify gets deref ret].
  change (enemyObjects (set_laser _ _)) with (enemyObjects w).
  unfold aimWorld, shotDirection, assisted.
  destruct (aimAssist (gunOrigin base) (aimDirection tip base) (enemyObjects w))
    as [finalAimDir targetFound].
  destruct w as [st sto en vf tr ld [lp ll lo lc] [cp cc cs] ti so rc ic].
  unfold_world. cbv beta iota delta [negb fst snd].
  destruct (Rlt_dec (triggerDistance thumb base) TRIGGER_THRESHOLD);
    [destruct tr|]; reflexivity.
Qed.

Lemma shots_app l1 l2 :
  List.length (List.filter isShot (l1 ++ l2))
  = (List.length (List.filter isShot l1) + List.length (List.filter isShot l2))%nat.
Proof. now rewrite List.filter_app, List.length_app. Qed.

Lemma handleShoot_shots gs now direction origin w :
  shots (handleShoot intersectObject randomId gs now direction origin w) = S (shots w) /\
  isTriggered (handleShoot intersectObject randomId gs now direction origin w) = isTriggered w /\
  lastDetection (handleShoot intersectObject randomId gs now direction origin w)
  = lastDetection w.
Proof.
  destruct (findIndex (hitTest intersectObject (mkRaycaster origin direction) w) (enemies w))
    as [i|] eqn:H.
  - destruct (handleShoot_hit intersectObject randomId gs now direction origin w i H)
      as (r & enemy & _ & _ & _ & ->).
    unfold shots, hitWorld. cbv beta iota zeta delta [sounds isTriggered lastDetection].
    rewrite shots_app. repeat split. cbn [List.filter isShot wave List.length]. lia.
  - rewrite (handleShoot_miss intersectObject randomId gs now direction origin w H).
    unfold shots, missWorld. cbv beta iota zeta delta [sounds isTriggered lastDetection].
    rewrite shots_app. repeat split. cbn [List.filter isShot wave List.length]. lia.
Qed.

(** One processed tick that sees a hand pinching at distance [d]. *)
Lemma detect_tracked now results d w :
  (DETECTION_FREQ_MS <= now - lastDetection w)%Z ->
  pinch results = Some d ->
  let w' := detect intersectObject randomId gameState w (now, results) in
  lastDetection w' = now /\
  (d < TRIGGER_THRESHOLD ->
     isTriggered w' = true /\
     shots w' = if isTriggered w then shots w else S (shots w)) /\
  (TRIGGER_THRESHOLD <= d -> isTriggered w' = false /\ shots w' = shots w).
Proof.
  intros Ht Hp. unfold pinch in Hp.
  destruct (trackedHand results) as [[[thumb base] tip]|] eqn:Hh; [|discriminate].
  injection Hp as <-. cbv zeta. unfold detect. cbn [fst snd].
  rewrite (onResults_tracked now results thumb base tip w Ht Hh).
  destruct (Rlt_dec (triggerDistance thumb base) TRIGGER_THRESHOLD) as [Hlt|Hge].
  - split; [|split]; [| |intros ?; lra].
    + destruct (isTriggered w); [reflexivity|].
      now rewrite (proj2 (proj2 (handleShoot_shots gameState now _ _ _))).
    + intros _. destruct (isTriggered w) eqn:Etr.
      * now split.
      * destruct (handleShoot_shots gameState now (shotDirection base tip w)
                    (gunOrigin base) (set_isTriggered true (aimWorld now base tip w)))
          as (Hs & Hi & _).
        rewrite Hs, Hi. now split.
  - split; [reflexivity|]. split; [intros ?; lra|]. intros _. now split.
Qed.

(** The ticks of the code produce the fire signals of [edgeSignals]. *)
Lemma fireSignals_edge ticks : forall distances w,
  spaced (lastDetection w) ticks ->
  map (fun tick => pinch (snd tick)) ticks = map Some distances ->
  fireSignals intersectObject randomId gameState ticks w
  = edgeSignals (isTriggered w) distances.
Proof.
  induction ticks as [|[now results] ticks IH]; intros [|d ds] w Hs Hm;
    try discriminate; [reflexivity|].
  cbn [map snd] in Hm. injection Hm as Hp Hm. destruct Hs as [Ht Hs].
  destruct (detect_tracked now results d w Ht Hp) as (Hl & Hlt & Hge).
  cbn [fireSignals edgeSignals].
  destruct (Rlt_dec d TRIGGER_THRESHOLD) as [H|H].
  - destruct (Hlt H) as [Hi Hsh]. rewrite Hsh.
    rewrite (IH ds _); [|now rewrite Hl|assumption]. rewrite Hi.
    f_equal. destruct (isTriggered w); cbn [negb].
    + apply Nat.ltb_irrefl.
    + apply Nat.ltb_lt. lia.
  - destruct (Hge ltac:(lra)) as [Hi Hsh]. rewrite Hsh.
    rewrite (IH ds _); [|now rewrite Hl|assumption]. rewrite Hi.
    f_equal. apply Nat.ltb_irrefl.
Qed.

End Detection.

Lemma edgeSignals_hold flag distances :
  Forall (fun d => d < TRIGGER_THRESHOLD) distances ->
  edgeSignals flag distances
  = match distances with
    | [] => []
    | _ :: rest => negb flag :: List.repeat false (List.length rest)
    end.
Proof.
  intros H. revert flag. induction H as [|d ds Hd Hds IH]; intros flag; [reflexivity|].
  cbn [edgeSignals]. destruct (Rlt_dec d TRIGGER_THRESHOLD); [|contradiction].
  f_equal. rewrite IH. destruct ds; reflexivity.
Qed.

Lemma triggerDistance_pinchAt d :
  0 <= d -> pinch (pinchAt d) = Some d.
Proof.
  intros Hd. unfold pinch, pinchAt, handAt, trackedHand, middle.
  cbn [multiHandLandmarks replicate app lookup list_lookup mjoin option_join].
  unfold triggerDistance. cbn [px py]. f_equal.
  replace (0.5 + d - 0.5) with d by lra.
  replace (0.5 - 0.5) with 0 by lra.
  replace (d ^ 2 + 0 ^ 2) with (d ^ 2) by ring.
  now apply sqrt_pow2.
Qed.

(** C3. The trigger is edge-triggered.  On a processed detection tick that
    sees a hand at thumb-to-index distance [d], a fire signal is emitted
    exactly when [d] is below the threshold and the edge flag is false, and
    the flag is true afterwards; the flag is false after the tick exactly
    when [d] is at or above the threshold.  Hence the ticks of the code
    fire as the detector of the specification does; a run of frames that are
    all below the threshold fires once, on its first frame, when it starts
    with the flag down, and not at all when it starts with the flag up; and
    the distances 0.03, 0.03, 0.08, 0.03 fire on frames 1 and 4 only. *)
Theorem trigger_is_edge_triggered :
  forall (intersectObject : Raycaster -> Mesh -> list Intersection)
         (randomId : nat -> string) (gameState : GameState),
    (forall now results d w,
        (DETECTION_FREQ_MS <= now - lastDetection w)%Z ->
        pinch results = Some d ->
        let w' := detect intersectObject randomId gameState w (now, results) in
        (shots w' = S (shots w) <-> d < TRIGGER_THRESHOLD /\ isTriggered w = false) /\
        (shots w' = shots w <-> ~ (d < TRIGGER_THRESHOLD /\ isTriggered w = false)) /\
        (d < TRIGGER_THRESHOLD -> isTriggered w' = true) /\
        (isTriggered w' = false <-> TRIGGER_THRESHOLD <= d)) /\
    (forall ticks distances w,
        spaced (lastDetection w) ticks ->
        map (fun tick => pinch (snd tick)) ticks = map Some distances ->
        fireSignals intersectObject randomId gameState ticks w
        = edgeSignals (isTriggered w) distances) /\
    (forall tick ticks distances w,
        spaced (lastDetection w) (tick :: ticks) ->
        map (fun tick => pinch (snd tick)) (tick :: ticks) = map Some distances ->
        Forall (fun d => d < TRIGGER_THRESHOLD) distances ->
        fireSignals intersectObject randomId gameState (tick :: ticks) w
        = negb (isTriggered w) :: List.repeat false (List.length ticks)) /\
    (forall ticks w,
        spaced (lastDetection w) ticks ->
        map (fun tick => pinch (snd tick)) ticks
        = [Some 0.03; Some 0.03; Some 0.08; Some 0.03] ->
        isTriggered w = false ->
        fireSignals intersectObject randomId gameState ticks w
        = [true; false; false; true]).
Proof.
  intros intersectObject randomId gameState. repeat apply conj.
  - intros now results d w Ht Hp.
    destruct (detect_tracked intersectObject randomId gameState now results d w Ht Hp)
      as (_ & Hlt & Hge).
    cbv zeta. destruct (Rlt_dec d TRIGGER_THRESHOLD) as [H|H].
    + destruct (Hlt H) as [Hi Hs]. rewrite Hi, Hs.
      destruct (isTriggered w); repeat split; intros; try lia; try lra;
        try discriminate; try tauto.
      all: try (match goal with H0 : _ /\ _ |- _ => destruct H0; discriminate end).
      all: try (exfalso; match goal with H0 : ~ _ |- _ => apply H0; now split end).
    + destruct (Hge ltac:(lra)) as [Hi Hs]. rewrite Hi, Hs.
      repeat split; intros; try lia; try lra; try tauto.
  - intros ticks distances w. apply fireSignals_edge.
  - intros tick ticks distances w Hs Hm HF.
    rewrite (fireSignals_edge intersectObject randomId gameState _ distances w Hs Hm).
    rewrite (edgeSignals_hold _ _ HF).
    destruct distances as [|d ds]; [discriminate|].
    cbn [map] in Hm. injection Hm as _ Hm.
    apply (f_equal (@List.length _)) in Hm. rewrite !List.length_map in Hm.
    now rewrite Hm.
  - intros ticks w Hs Hm Hi.
    rewrite (fireSignals_edge intersectObject randomId gameState _
               [0.03; 0.03; 0.08; 0.03] w Hs Hm).
    rewrite Hi. cbn [edgeSignals]. unfold TRIGGER_THRESHOLD.
    repeat match goal with
           | |- context [Rlt_dec ?a ?b] => destruct (Rlt_dec a b); try lra
           end.
    reflexivity.
Qed.

Lemma trigger_is_edge_triggered_witness :
  fireSignals hitsNone ids initialGameState pinchSequence comboFive
  = [true; false; false; true].
Proof.
  apply (trigger_is_edge_triggered hitsNone ids initialGameState).
  - cbv [spaced pinchSequence comboFive lastDetection DETECTION_FREQ_MS]. lia.
  - unfold pinchSequence. cbn [map snd].
    rewrite !triggerDistance_pinchAt by lra. reflexivity.
  - reflexivity.
Defined.

(** ** Floating texts *)

Lemma alive_tickVfx v : alive (tickVfx v) = true <-> 0.025 < life v.
Proof.
  unfold alive, tickVfx. cbn [life].
  destruct (Rlt_dec 0 (life v - 0.025)); split; intros; try discriminate;
    try reflexivity; lra.
Qed.

Lemma ageVfx_app l1 l2 : ageVfx (l1 ++ l2) = ageVfx l1 ++ ageVfx l2.
Proof. unfold ageVfx. now rewrite map_app, List.filter_app. Qed.

Lemma ageVfx_In l v' :
  In v' (ageVfx l) <-> exists v, In v l /\ v' = tickVfx v /\ 0.025 < life v.
Proof.
  unfold ageVfx. rewrite List.filter_In, List.in_map_iff. split.
  - intros [(v & <- & Hv) Ha]. exists v. repeat split; try assumption.
    now apply alive_tickVfx.
  - intros (v & Hv & -> & Hl). split; [now exists v | now apply alive_tickVfx].
Qed.

Lemma ageVfx_bound b l :
  Forall (fun v => life v <= b) l ->
  Forall (fun v => 0 < life v <= b - 0.025) (ageVfx l).
Proof.
  intros H. apply List.Forall_forall. intros v' Hv'.
  apply ageVfx_In in Hv' as (v & Hv & -> & Hl).
  rewrite List.Forall_forall in H. specialize (H v Hv).
  unfold tickVfx; cbn [life]. lra.
Qed.

Lemma iter_ageVfx_bound n l :
  Forall (fun v => life v <= 1) l ->
  Forall (fun v => 0 < life v <= 1 - INR (S n) * 0.025) (Nat.iter (S n) ageVfx l).
Proof.
  intros H. induction n as [|n IH].
  - cbn [Nat.iter nat_rect]. replace (1 - INR 1 * 0.025) with (1 - 0.025) by (cbn [INR]; lra).
    now apply ageVfx_bound.
  - change (Nat.iter (S (S n)) ageVfx l) with (ageVfx (Nat.iter (S n) ageVfx l)).
    replace (1 - INR (S (S n)) * 0.025) with (1 - INR (S n) * 0.025 - 0.025)
      by (rewrite (S_INR (S n)); lra).
    apply ageVfx_bound. eapply List.Forall_impl; [|exact IH].
    cbv beta. intros v Hv. lra.
Qed.

Lemma iter_ageVfx_nil n : Nat.iter n ageVfx [] = [].
Proof. induction n as [|n IH]; [reflexivity|]. cbn [Nat.iter nat_rect]. fold (Nat.iter n ageVfx (@nil FloatingText)). now rewrite IH. Qed.

Lemma iter_ageVfx_expired n l :
  Forall (fun v => life v <= 1) l -> (40 <= n)%nat -> Nat.iter n ageVfx l = [].
Proof.
  intros H Hn.
  replace n with ((n - 40) + 40)%nat by lia. rewrite Nat.iter_add.
  assert (H40 : Nat.iter 40 ageVfx l = []).
  { pose proof (iter_ageVfx_bound 39 l H) as HF.
    destruct (Nat.iter 40 ageVfx l) as [|v rest]; [reflexivity|].
    apply List.Forall_inv in HF.
    replace (INR 40) with 40 in HF by (cbv [INR]; lra). lra. }
  rewrite H40. apply iter_ageVfx_nil.
Qed.

Lemma tickVfx_iter n v :
  life (Nat.iter n tickVfx v) = life v - INR n * 0.025 /\
  vy (ft_position (Nat.iter n tickVfx v)) = vy (ft_position v) + INR n * 0.04 /\
  vx (ft_position (Nat.iter n tickVfx v)) = vx (ft_position v) /\
  vz (ft_position (Nat.iter n tickVfx v)) = vz (ft_position v) /\
  text (Nat.iter n tickVfx v) = text v.
Proof.
  induction n as [|n (IH1 & IH2 & IH3 & IH4 & IH5)].
  - cbn [Nat.iter nat_rect INR]. repeat split; lra.
  - change (Nat.iter (S n) tickVfx v) with (tickVfx (Nat.iter n tickVfx v)).
    rewrite S_INR. set (u := Nat.iter n tickVfx v) in *.
    unfold tickVfx. cbn [life ft_position vx vy vz text].
    repeat split; try assumption; lra.
Qed.

Lemma iter_ageVfx_single n v :
  INR n * 0.025 < life v -> Nat.iter n ageVfx [v] = [Nat.iter n tickVfx v].
Proof.
  induction n as [|n IH]; intros H; [reflexivity|].
  rewrite S_INR in H.
  change (Nat.iter (S n) ageVfx [v]) with (ageVfx (Nat.iter n ageVfx [v])).
  rewrite IH by lra.
  change (Nat.iter (S n) tickVfx v) with (tickVfx (Nat.iter n tickVfx v)).
  unfold ageVfx. cbn [map List.filter].
  assert (Ha : alive (tickVfx (Nat.iter n tickVfx v)) = true).
  { apply alive_tickVfx. rewrite (proj1 (tickVfx_iter n v)). lra. }
  now rewrite Ha.
Qed.

Section Frames.

Variable random : nat -> R.
Variable randomId : nat -> string.

Lemma spawnEnemy_vfx now w : vfx (spawnEnemy random randomId now w) = vfx w.
Proof. reflexivity. Qed.

Lemma removeAndRespawn_vfx now r w :
  vfx (removeAndRespawn random randomId now r w) = vfx w.
Proof. unfold removeAndRespawn. now destruct (store w !! r). Qed.

Lemma animateEnemy_vfx now w r :
  vfx (animateEnemy random randomId now w r) = vfx w.
Proof.
  unfold animateEnemy. destruct (store w !! r) as [enemy|]; [|reflexivity].
  destruct (isDying enemy).
  - destruct (store w !! r) as [e'|]; [|reflexivity].
    destruct (outOfBounds e'); [apply removeAndRespawn_vfx | reflexivity].
  - destruct (store (updateEnemy r (advance now) w) !! r) as [e'|]; [|reflexivity].
    destruct (outOfBounds e'); [now rewrite removeAndRespawn_vfx | reflexivity].
Qed.

Lemma animate_vfx now w :
  vfx (animate random randomId now w) = ageVfx (vfx w).
Proof.
  unfold animate. cbn [vfx set_vfx]. f_equal.
  generalize (enemies w) at 1. intros l. revert w.
  induction l as [|r l IH]; intros w; [reflexivity|].
  cbn [fold_left]. rewrite IH. apply animateEnemy_vfx.
Qed.

End Frames.

(** C7. Every frame takes exactly 0.025 from the life of each floating
    text and adds exactly 0.04 to its y position, and keeps the item exactly
    when the new life is above 0.  An item created with life 1.0 is present,
    with life 1 - 0.025 n (strictly decreasing in n), after each of the
    first n < 40 frames, and no item of life at most 1 is left after 40
    frames or more. *)
Theorem vfx_decay :
  forall (random : nat -> R) (randomId : nat -> string),
    (forall now w, vfx (animate random randomId now w) = ageVfx (vfx w)) /\
    (forall v,
        life (tickVfx v) = life v - 0.025 /\
        life (tickVfx v) < life v /\
        ft_position (tickVfx v)
        = mkV (vx (ft_position v)) (vy (ft_position v) + 0.04) (vz (ft_position v))) /\
    (forall l v',
        In v' (ageVfx l) <-> exists v, In v l /\ v' = tickVfx v /\ ~ life v' <= 0) /\
    (forall v n,
        life v = 1.0 -> (n < 40)%nat ->
        Nat.iter n ageVfx [v] = [Nat.iter n tickVfx v] /\
        life (Nat.iter n tickVfx v) = 1 - INR n * 0.025 /\
        vy (ft_position (Nat.iter n tickVfx v)) = vy (ft_position v) + INR n * 0.04) /\
    (forall l n,
        Forall (fun v => life v <= 1.0) l -> (40 <= n)%nat ->
        Nat.iter n ageVfx l = []).
Proof.
  intros random randomId. repeat apply conj.
  - apply animate_vfx.
  - intros v. unfold tickVfx. cbn [life ft_position]. repeat split. lra.
  - intros l v'. rewrite ageVfx_In. split.
    + intros (v & Hv & -> & Hl). exists v. repeat split; try assumption.
      unfold tickVfx; cbn [life]. lra.
    + intros (v & Hv & -> & Hl). exists v. repeat split; try assumption.
      unfold tickVfx in Hl; cbn [life] in Hl. lra.
  - intros v n Hv Hn.
    destruct (tickVfx_iter n v) as (H1 & H2 & _).
    assert (INR n < 40).
    { replace 40 with (INR 40) by (cbv [INR]; lra). now apply lt_INR. }
    repeat split.
    + apply iter_ageVfx_single. lra.
    + lra.
    + lra.
  - intros l n H Hn. apply iter_ageVfx_expired; [|assumption].
    eapply List.Forall_impl; [|exact H]. cbv beta. intros v Hv. lra.
Qed.

Lemma vfx_decay_witness :
  Nat.iter 40 ageVfx [mkFloatingText "m" MissText V3.zero "#f87171" 1.0] = [].
Proof.
  apply (vfx_decay draws ids).
  - constructor; [cbn [life]; lra | constructor].
  - lia.
Defined.

(** On binary64 numbers the item survives 39 subtractions of 0.025 from 1.0
    and not the 40th, as on the reals. *)
Lemma float_decay_40 :
  FloatCheck.positive (FloatCheck.decay 39 FloatCheck.initial_life) = true /\
  FloatCheck.positive (FloatCheck.decay 40 FloatCheck.initial_life) = false.
Proof. split; vm_compute; reflexivity. Qed.

(** ** Exceptions in a detection tick *)

Lemma handSeen_spec s :
  handDetected (handSeen s) = true /\ score (handSeen s) = score s /\
  combo (handSeen s) = combo s /\ isGameOver (handSeen s) = isGameOver s /\
  loading (handSeen s) = loading s /\
  loadingProgress (handSeen s) = loadingProgress s /\
  statusMessage (handSeen s) = statusMessage s /\
  lastHitTime (handSeen s) = lastHitTime s /\ hitFlash (handSeen s) = hitFlash s.
Proof. unfold handSeen. destruct (handDetected s) eqn:E; now repeat split. Qed.

Section Exceptions.

Variable intersectObject : Raycaster -> Mesh -> list Intersection.
Variable randomId : nat -> string.
Variable gameState : GameState.

(** The world the [catch] is left with when the body of [onResults]
    throws: either nothing but the state update of line 278 has happened,
    or (thumb tip missing) the aim of lines 285-323 has been committed. *)
Lemma onResults_throws now results w :
  (DETECTION_FREQ_MS <= now - lastDetection w)%Z ->
  snd (onResultsBody intersectObject randomId gameState now results
         (set_lastDetection now w)) = None ->
  noHand results = false /\
  ((aimLandmarks results = None /\
    onResults intersectObject randomId gameState now results w
    = setGameState handSeen (set_lastDetection now w)) \/
   (exists base tip,
      aimLandmarks results = Some (base, tip) /\
      onResults intersectObject randomId gameState now results w
      = aimWorld now base tip w)).
Proof.
  intros Ht. unfold onResults. apply Z.ltb_ge in Ht. rewrite Ht. clear Ht.
  unfold tryCatch, onResultsBody, aimLandmarks, noHand.
  destruct results as [[[|[l|] rest]|]]; cbn [multiHandLandmarks];
    cbv beta iota zeta delta [bind modify gets getIndex ret throw];
    cbn [fst snd]; try discriminate.
  - destruct (mjoin (l !! 5%nat)) as [base|] eqn:E5;
      cbv beta iota zeta delta [bind modify gets deref ret throw]; cbn [fst snd].
    + destruct (mjoin (l !! 8%nat)) as [tip|] eqn:E8;
        cbv beta iota zeta delta [bind modify gets deref ret throw]; cbn [fst snd].
      * change (enemyObjects (set_laser _ _)) with (enemyObjects w).
        destruct (mjoin (l !! 4%nat)) as [thumb|] eqn:E4;
          cbv beta iota zeta delta [bind modify gets deref ret throw].
        -- destruct (aimAssist (gunOrigin base) (aimDirection tip base) (enemyObjects w))
             as [finalAimDir targetFound]. cbn [fst snd].
           destruct (Rlt_dec (triggerDistance thumb base) TRIGGER_THRESHOLD);
             [destruct (negb _)|]; discriminate.
        -- intros _. split; [reflexivity|]. right. exists base, tip.
           split; [reflexivity|]. unfold aimWorld, assisted.
           destruct (aimAssist (gunOrigin base) (aimDirection tip base) (enemyObjects w))
             as [finalAimDir targetFound].
           destruct w as [st sto en vf tr ld [lp ll lo lc] [cp cc cs] ti so rc ic].
           reflexivity.
      * intros _. split; [reflexivity|]. left. now split.
    + intros _. split; [reflexivity|]. left. now split.
  - intros _. split; [reflexivity|]. left. now split.
Qed.

(** A result with a hand in which one of the three landmarks read is
    missing makes the body throw. *)
Lemma onResultsBody_untracked now results w :
  noHand results = false -> trackedHand results = None ->
  snd (onResultsBody intersectObject randomId gameState now results w) = None.
Proof.
  unfold onResultsBody, trackedHand, noHand.
  destruct results as [[[|[l|] rest]|]]; cbn [multiHandLandmarks];
    try discriminate; intros _;
    cbv beta iota zeta delta [bind modify gets getIndex ret throw];
    cbn [fst snd]; try reflexivity.
  destruct (mjoin (l !! 5%nat)) as [base|];
    cbv beta iota zeta delta [bind modify gets deref ret throw];
    [|now destruct (mjoin (l !! 4%nat))].
  destruct (mjoin (l !! 4%nat)) as [thumb|];
    destruct (mjoin (l !! 8%nat)) as [tip|]; try discriminate;
    cbv beta iota zeta delta [bind modify gets deref ret throw]; try reflexivity.
  intros _.
  destruct (aimAssist (gunOrigin base) (aimDirection tip base) _). reflexivity.
Qed.

Lemma onResults_noHand now results w :
  (DETECTION_FREQ_MS <= now - lastDetection w)%Z ->
  noHand results = true ->
  onResults intersectObject randomId gameState now results w
  = setGameState handLost (set_lastDetection now w).
Proof.
  intros Ht. unfold onResults. apply Z.ltb_ge in Ht. rewrite Ht. clear Ht.
  unfold tryCatch, onResultsBody, noHand.
  destruct results as [[[|landmarks rest]|]]; cbn [multiHandLandmarks];
    try discriminate; reflexivity.
Qed.

Lemma handleShoot_handDetected gs now direction origin w :
  handDetected (state (handleShoot intersectObject randomId gs now direction origin w))
  = handDetected (state w).
Proof.
  destruct (findIndex (hitTest intersectObject (mkRaycaster origin direction) w) (enemies w))
    as [i|] eqn:H.
  - destruct (handleShoot_hit intersectObject randomId gs now direction origin w i H)
      as (r & enemy & _ & _ & _ & ->). reflexivity.
  - now rewrite (handleShoot_miss intersectObject randomId gs now direction origin w H).
Qed.

(** A tick that sees a hand leaves [handDetected] true, thrown or not. *)
Lemma onResults_hand now results w :
  (DETECTION_FREQ_MS <= now - lastDetection w)%Z ->
  noHand results = false ->
  handDetected (state (onResults intersectObject randomId gameState now results w))
  = true.
Proof.
  intros Ht Hn. destruct (trackedHand results) as [[[thumb base] tip]|] eqn:Hh.
  - rewrite (onResults_tracked intersectObject randomId gameState now results
               thumb base tip w Ht Hh).
    destruct (Rlt_dec _ _); [destruct (isTriggered w)|];
      rewrite ?handleShoot_handDetected; apply handSeen_spec.
  - pose proof (onResultsBody_untracked now results (set_lastDetection now w) Hn Hh)
      as Hthrow.
    destruct (onResults_throws now results w Ht Hthrow)
      as (_ & [(_ & ->) | (base & tip & _ & ->)]); apply handSeen_spec.
Qed.

End Exceptions.

(** C8 (as stated, it fails).  The hand entry of [noLandmarks] carries no
    landmarks, so the body of [onResults] throws at [indexBase.x]; the
    state update of line 278 has then already been queued: [handDetected]
    was false before the tick and is true after it. *)
Lemma exception_changes_state :
  snd (onResultsBody hitsNone ids initialGameState 1000 noLandmarks
         (set_lastDetection 1000 lineUp)) = None /\
  handDetected (state lineUp) = false /\
  handDetected (state (onResults hitsNone ids initialGameState 1000 noLandmarks lineUp))
  = true /\
  ~ (forall (now : Z) (results : Results) (w : World),
        snd (onResultsBody hitsNone ids initialGameState now results
               (set_lastDetection now w)) = None ->
        onResults hitsNone ids initialGameState now results w = w).
Proof.
  assert (H1 : snd (onResultsBody hitsNone ids initialGameState 1000 noLandmarks
                      (set_lastDetection 1000 lineUp)) = None) by reflexivity.
  assert (H3 : handDetected
                 (state (onResults hitsNone ids initialGameState 1000 noLandmarks lineUp))
               = true) by (apply onResults_hand; [cbv; discriminate | reflexivity]).
  repeat split; try assumption.
  intros H. specialize (H 1000%Z noLandmarks lineUp H1). rewrite H in H3. discriminate.
Qed.

(** C8 (amended).  When the body of [onResults] throws on a processed
    tick, the exception is caught and the tick leaves score, combo, targets,
    floating texts, trigger flag, timers and sounds as they were.  It has
    recorded the time of the tick and, since a hand was reported, set
    [handDetected] to true; the laser and the crosshair keep their previous
    aim when the index base or the index tip is the missing landmark.  On no
    tick, thrown or not, does [handDetected] go from true to false unless
    the result reports no hand. *)
Theorem exception_is_caught :
  forall (intersectObject : Raycaster -> Mesh -> list Intersection)
         (randomId : nat -> string) (gameState : GameState),
    (forall now results w,
        (DETECTION_FREQ_MS <= now - lastDetection w)%Z ->
        snd (onResultsBody intersectObject randomId gameState now results
               (set_lastDetection now w)) = None ->
        let w' := onResults intersectObject randomId gameState now results w in
        noHand results = false /\
        state w' = handSeen (state w) /\ handDetected (state w') = true /\
        score (state w') = score (state w) /\ combo (state w') = combo (state w) /\
        store w' = store w /\ enemies w' = enemies w /\ vfx w' = vfx w /\
        isTriggered w' = isTriggered w /\ timers w' = timers w /\
        sounds w' = sounds w /\ lastDetection w' = now /\
        (aimLandmarks results = None ->
           laser w' = laser w /\ crosshair w' = crosshair w)) /\
    (forall now results w,
        handDetected (state w) = true ->
        handDetected (state (onResults intersectObject randomId gameState now results w))
        = false ->
        noHand results = true).
Proof.
  intros intersectObject randomId gameState. split.
  - intros now results w Ht Hthrow. cbv zeta.
    destruct (onResults_throws intersectObject randomId gameState now results w Ht Hthrow)
      as (Hn & [(Ha & ->) | (base & tip & Ha & ->)]).
    + pose proof (handSeen_spec (state w)) as (H1 & H2 & H3 & _).
      repeat split; try assumption; try reflexivity.
    + pose proof (handSeen_spec (state w)) as (H1 & H2 & H3 & _).
      repeat split; try assumption; try reflexivity.
      all: congruence.
  - intros now results w Hw Hw'.
    destruct (Z.lt_ge_cases (now - lastDetection w) DETECTION_FREQ_MS) as [Ht|Ht].
    + rewrite (onResults_throttled intersectObject randomId gameState now results w Ht)
        in Hw'. congruence.
    + destruct (noHand results) eqn:Hn; [reflexivity|].
      rewrite (onResults_hand intersectObject randomId gameState now results w Ht Hn)
        in Hw'. discriminate.
Qed.

Lemma exception_is_caught_witness :
  score (state (onResults hitsNone ids initialGameState 1000 noLandmarks comboFive))
  = score (state comboFive) /\
  isTriggered (onResults hitsNone ids initialGameState 1000 noLandmarks comboFive)
  = isTriggered comboFive.
Proof.
  assert (Ht : (DETECTION_FREQ_MS <= 1000 - lastDetection comboFive)%Z)
    by (cbv; discriminate).
  assert (Hthrow : snd (onResultsBody hitsNone ids initialGameState 1000 noLandmarks
                          (set_lastDetection 1000 comboFive)) = None) by reflexivity.
  pose proof (proj1 (exception_is_caught hitsNone ids initialGameState)
                1000%Z noLandmarks comboFive Ht Hthrow) as H.
  cbv zeta in H. split; apply H.
Defined.

(** ** The population of targets *)

Section Population.

Variable intersectObject : Raycaster -> Mesh -> list Intersection.
Variable random : nat -> R.
Variable randomId : nat -> string.

Lemma onResults_fire gs now results d w :
  (DETECTION_FREQ_MS <= now - lastDetection w)%Z ->
  pinch results = Some d -> d < TRIGGER_THRESHOLD -> isTriggered w = false ->
  exists thumb base tip,
    trackedHand results = Some (thumb, base, tip) /\
    onResults intersectObject randomId gs now results w
    = handleShoot intersectObject randomId gs now (shotDirection base tip w)
        (gunOrigin base) (set_isTriggered true (aimWorld now base tip w)).
Proof.
  intros Ht Hp Hd Hi. unfold pinch in Hp.
  destruct (trackedHand results) as [[[thumb base] tip]|] eqn:Hh; [|discriminate].
  injection Hp as <-. exists thumb, base, tip. split; [reflexivity|].
  rewrite (onResults_tracked intersectObject randomId gs now results thumb base tip w Ht Hh).
  destruct (Rlt_dec _ _); [|contradiction]. now rewrite Hi.
Qed.

Lemma onResults_release gs now results d w :
  (DETECTION_FREQ_MS <= now - lastDetection w)%Z ->
  pinch results = Some d -> TRIGGER_THRESHOLD <= d ->
  exists thumb base tip,
    trackedHand results = Some (thumb, base, tip) /\
    onResults intersectObject randomId gs now results w
    = set_isTriggered false (aimWorld now base tip w).
Proof.
  intros Ht Hp Hd. unfold pinch in Hp.
  destruct (trackedHand results) as [[[thumb base] tip]|] eqn:Hh; [|discriminate].
  injection Hp as <-. exists thumb, base, tip. split; [reflexivity|].
  rewrite (onResults_tracked intersectObject randomId gs now results thumb base tip w Ht Hh).
  destruct (Rlt_dec _ _); [lra | reflexivity].
Qed.

Lemma run_cons clock ev rest w w' :
  step intersectObject random randomId clock ev w = Some w' ->
  run intersectObject random randomId clock (ev :: rest) w
  = run intersectObject random randomId (eventTime ev) rest w'.
Proof. intros H. cbn [run]. now rewrite H. Qed.

Lemma step_Detect clock now results w :
  (clock <= now)%Z ->
  step intersectObject random randomId clock (Detect now results) w
  = Some (registeredOnResults intersectObject randomId now results w).
Proof.
  intros H. unfold step. cbn [eventTime]. apply Z.ltb_ge in H. now rewrite H.
Qed.

Lemma step_Fire clock now k t w :
  (clock <= now)%Z -> timers w !! k = Some t -> (due t <= now)%Z ->
  step intersectObject random randomId clock (Fire now k) w
  = Some (runTimer random randomId now (action t) (set_timers (delete k (timers w)) w)).
Proof.
  intros H Ht Hd. unfold step. cbn [eventTime].
  apply Z.ltb_ge in H. rewrite H, Ht. apply Z.ltb_ge in Hd. now rewrite Hd.
Qed.

End Population.

Lemma pinchAt_tracked d :
  trackedHand (pinchAt d)
  = Some (mkPoint (0.5 + d) 0.5 0, middle, mkPoint 0.5 0.4 0).
Proof. reflexivity. Qed.

Ltac fire_step d :=
  erewrite run_cons; cycle 1; [apply step_Detect; lia|]; cbn [eventTime];
  unfold registeredOnResults at 1;
  match goal with
  | |- run _ _ _ _ _ (onResults _ _ _ ?now ?res ?w) = _ =>
      let Hh := fresh "Hh" in
      destruct (onResults_fire hitsAll ids initialGameState now res d w)
        as (? & ? & ? & Hh & ->);
      [apply Z.leb_le; reflexivity | apply triggerDistance_pinchAt; lra
      | unfold TRIGGER_THRESHOLD; lra | reflexivity |];
      rewrite pinchAt_tracked in Hh; injection Hh as <- <- <-
  end.

Ltac release_step d :=
  erewrite run_cons; cycle 1; [apply step_Detect; lia|]; cbn [eventTime];
  unfold registeredOnResults at 1;
  match goal with
  | |- run _ _ _ _ _ (onResults _ _ _ ?now ?res ?w) = _ =>
      let Hh := fresh "Hh" in
      destruct (onResults_release hitsAll ids initialGameState now res d w)
        as (? & ? & ? & Hh & ->);
      [apply Z.leb_le; reflexivity | apply triggerDistance_pinchAt; lra
      | unfold TRIGGER_THRESHOLD; lra |];
      rewrite pinchAt_tracked in Hh; injection Hh as <- <- <-
  end.

Ltac timer_step :=
  erewrite run_cons; cycle 1;
  [eapply step_Fire; [lia | reflexivity | apply Z.leb_le; reflexivity]|];
  cbn [eventTime].

(** C4 (the code at the failing input).  Mounted at time 0 with four
    targets, the component is taken through [doubleHitTrace]: both shots
    resolve against the target at index 0 (the second one while it is dying),
    so two removal timers are queued for it.  The first removes it and
    spawns a replacement; the second finds nothing to remove and spawns
    again.  When every timer has fired, five targets are in the array. *)
Theorem double_hit_grows_population :
  exists w,
    reachable hitsAll draws ids w /\
    run hitsAll draws ids 0 doubleHitTrace (initThree draws ids 0) = Some w /\
    List.length (enemies (initThree draws ids 0)) = ENEMY_COUNT /\
    List.length (enemies w) = 5%nat /\
    map (fun r => isDying <$> store w !! r) (enemies w)
    = [Some false; Some false; Some false; Some false; Some false] /\
    timers w = [].
Proof.
  assert (H : exists w,
             run hitsAll draws ids 0 doubleHitTrace (initThree draws ids 0) = Some w /\
             List.length (enemies w) = 5%nat /\
             map (fun r => isDying <$> store w !! r) (enemies w)
             = [Some false; Some false; Some false; Some false; Some false] /\
             timers w = []).
  { eexists. split.
    - unfold doubleHitTrace.
      fire_step 0.03. release_step 0.08. timer_step. fire_step 0.03.
      timer_step. timer_step. timer_step. timer_step. timer_step.
      reflexivity.
    - repeat split; reflexivity. }
  destruct H as (w & Hrun & Hrest). exists w. split; [|split; [|split]].
  - exists 0%Z, doubleHitTrace. exact Hrun.
  - exact Hrun.
  - reflexivity.
  - exact Hrest.
Qed.

(** The same schedule without the second pinch: one shot, one removal, one
    replacement, four targets. *)
Lemma single_hit_keeps_population :
  exists w,
    run hitsAll draws ids 0
      [Detect 1000 (pinchAt 0.03); Detect 1033 (pinchAt 0.08); Fire 1050 0;
       Fire 1100 1; Fire 1150 0]%Z (initThree draws ids 0) = Some w /\
    List.length (enemies w) = ENEMY_COUNT /\ timers w = [].
Proof.
  eexists. split.
  - fire_step 0.03. release_step 0.08. timer_step. timer_step. timer_step.
    reflexivity.
  - split; reflexivity.
Qed.

(** ** Animation frames *)

Section Bounds.

Variable random : nat -> R.
Variable randomId : nat -> string.

Lemma removeAndRespawn_fields now r w e :
  store w !! r = Some e ->
  enemies (removeAndRespawn random randomId now r w)
  = List.filter (fun r' => match store w !! r' with
                           | Some e' => negb (String.eqb (id e') (id e))
                           | None => true
                           end) (enemies w) ++ [List.length (store w)] /\
  exists new, store (removeAndRespawn random randomId now r w) = store w ++ [new].
Proof.
  intros He. unfold removeAndRespawn. rewrite He. split; [reflexivity|].
  eexists. reflexivity.
Qed.

Lemma removeAndRespawn_removes now r w e :
  store w !! r = Some e ->
  ~ In r (enemies (removeAndRespawn random randomId now r w)).
Proof.
  intros He. destruct (removeAndRespawn_fields now r w e He) as [-> _].
  rewrite List.in_app_iff, List.filter_In. intros [[_ H]|[H|[]]].
  - rewrite He, String.eqb_refl in H. discriminate.
  - apply lookup_lt_Some in He. lia.
Qed.

Lemma removeAndRespawn_keeps_out now r w e r0 :
  store w !! r = Some e -> (r0 < List.length (store w))%nat ->
  ~ In r0 (enemies w) ->
  ~ In r0 (enemies (removeAndRespawn random randomId now r w)).
Proof.
  intros He Hr0 Hn. destruct (removeAndRespawn_fields now r w e He) as [-> _].
  rewrite List.in_app_iff, List.filter_In. intros [[H _]|[H|[]]]; [tauto | lia].
Qed.

(** [animateEnemy] on an enemy that exists, by cases on [isDying]. *)
Lemma animateEnemy_cases now w r e :
  store w !! r = Some e ->
  animateEnemy random randomId now w r
  = let w1 := if isDying e then w else updateEnemy r (advance now) w in
    if outOfBounds (afterAdvance now e)
    then removeAndRespawn random randomId now r w1 else w1.
Proof.
  intros He. unfold animateEnemy, afterAdvance. rewrite He. cbv zeta.
  destruct (isDying e).
  - now rewrite He.
  - unfold updateEnemy at 1. cbn [store set_store].
    rewrite list_lookup_alter_eq, He. reflexivity.
Qed.

Lemma afterAdvance_store now w r e :
  store w !! r = Some e ->
  store (if isDying e then w else updateEnemy r (advance now) w) !! r
  = Some (afterAdvance now e) /\
  List.length (store (if isDying e then w else updateEnemy r (advance now) w))
  = List.length (store w) /\
  enemies (if isDying e then w else updateEnemy r (advance now) w) = enemies w /\
  forall r', r' <> r ->
    store (if isDying e then w else updateEnemy r (advance now) w) !! r'
    = store w !! r'.
Proof.
  intros He. unfold afterAdvance. destruct (isDying e).
  - now repeat split.
  - unfold updateEnemy. cbn [store enemies set_store]. repeat split.
    + now rewrite list_lookup_alter_eq, He.
    + apply length_alter.
    + intros r' Hr'. now apply list_lookup_alter_ne.
Qed.

Lemma animateEnemy_spec now w r :
  let w' := animateEnemy random randomId now w r in
  List.length (store w')
  = (List.length (store w) + if leaves now w r then 1 else 0)%nat /\
  (forall r', r' <> r -> (r' < List.length (store w))%nat ->
              store w' !! r' = store w !! r') /\
  (forall r0, (r0 < List.length (store w))%nat ->
              ~ In r0 (enemies w) -> ~ In r0 (enemies w')) /\
  (leaves now w r = true -> ~ In r (enemies w')).
Proof.
  cbv zeta. unfold leaves.
  destruct (store w !! r) as [e|] eqn:He.
  - rewrite (animateEnemy_cases now w r e He). cbv zeta.
    destruct (afterAdvance_store now w r e He) as (H1 & H2 & H3 & H4).
    set (w1 := if isDying e then w else updateEnemy r (advance now) w) in *.
    destruct (outOfBounds (afterAdvance now e)).
    + destruct (removeAndRespawn_fields now r w1 _ H1) as [_ [new Hs]].
      repeat split.
      * rewrite Hs, List.length_app, H2. reflexivity.
      * intros r' Hr' Hlt. rewrite Hs, lookup_app_l by lia. now apply H4.
      * intros r0 Hr0 Hn. apply (removeAndRespawn_keeps_out now r w1 _ r0 H1).
        -- lia.
        -- now rewrite H3.
      * intros _. apply (removeAndRespawn_removes now r w1 _ H1).
    + repeat split.
      * lia.
      * intros r' Hr' _. now apply H4.
      * intros r0 _ Hn. now rewrite H3.
      * discriminate.
  - unfold animateEnemy. rewrite He. repeat split; try lia; try tauto; discriminate.
Qed.

Lemma animate_walk now l : forall w,
  NoDup l -> Forall (fun r => (r < List.length (store w))%nat) l ->
  let w' := fold_left (animateEnemy random randomId now) l w in
  List.length (store w')
  = (List.length (store w) + List.length (List.filter (leaves now w) l))%nat /\
  (forall r', ~ In r' l -> (r' < List.length (store w))%nat ->
              store w' !! r' = store w !! r') /\
  (forall r0, (r0 < List.length (store w))%nat ->
              ~ In r0 (enemies w) -> ~ In r0 (enemies w')) /\
  (forall r, In r l -> leaves now w r = true -> ~ In r (enemies w')).
Proof.
  induction l as [|r l IH]; intros w Hnd Hv; cbv zeta.
  - cbn [fold_left List.filter List.length]. repeat split; try tauto. lia.
  - apply NoDup_cons in Hnd as [Hr Hnd]. apply Forall_cons in Hv as [Hrv Hv].
    rewrite list_elem_of_In in Hr.
    destruct (animateEnemy_spec now w r) as (L1 & O1 & N1 & R1).
    set (w1 := animateEnemy random randomId now w r) in *.
    assert (Hv1 : Forall (fun r' => (r' < List.length (store w1))%nat) l).
    { eapply Forall_impl; [exact Hv|]. cbv beta. intros; lia. }
    assert (Hl : forall r', In r' l -> leaves now w1 r' = leaves now w r').
    { intros r' Hr'. unfold leaves. rewrite O1; [reflexivity| |].
      - intros ->. contradiction.
      - rewrite Forall_forall in Hv. apply Hv. now apply list_elem_of_In. }
    destruct (IH w1 Hnd Hv1) as (La & Oa & Na & Ra). cbn [fold_left].
    fold w1. repeat split.
    + rewrite La, L1. rewrite (List.filter_ext_in _ _ _ Hl).
      cbn [List.filter]. destruct (leaves now w r); cbn [List.length]; lia.
    + intros r' Hr' Hlt. rewrite Oa.
      * apply O1; [|assumption]. intros ->. apply Hr'. now left.
      * intros H. apply Hr'. now right.
      * lia.
    + intros r0 Hr0 Hn. apply Na; [lia|]. now apply N1.
    + intros r' [<-|Hr'] Hlv.
      * apply Na; [lia|]. now apply R1.
      * apply Ra; [assumption|]. now rewrite Hl.
Qed.

(** *** The replacement of a target that leaves *)

Lemma spawnEnemy_new now w :
  exists new,
    store (spawnEnemy random randomId now w) = store w ++ [new] /\
    enemies (spawnEnemy random randomId now w) = enemies w ++ [List.length (store w)] /\
    idCalls (spawnEnemy random randomId now w) = S (idCalls w) /\
    id new = randomId (idCalls w) /\ isDying new = false /\ spawnTime new = now.
Proof. eexists. repeat split. Qed.

Lemma afterAdvance_id now e : id (afterAdvance now e) = id e.
Proof. unfold afterAdvance. now destruct (isDying e). Qed.

Lemma animateEnemy_idCalls now w r :
  leaves now w r = false ->
  idCalls (animateEnemy random randomId now w r) = idCalls w.
Proof.
  unfold leaves. destruct (store w !! r) as [e|] eqn:He.
  - intros Hl. rewrite (animateEnemy_cases now w r e He). cbv zeta. rewrite Hl.
    now destruct (isDying e).
  - intros _. unfold animateEnemy. now rewrite He.
Qed.

(** The iteration of the walk on a target that leaves: the target is taken
    out of the array and the reference of a new live enemy is pushed. *)
Lemma animateEnemy_leaver now w r e :
  store w !! r = Some e -> leaves now w r = true ->
  ~ In r (enemies (animateEnemy random randomId now w r)) /\
  In (List.length (store w)) (enemies (animateEnemy random randomId now w r)) /\
  idCalls (animateEnemy random randomId now w r) = S (idCalls w) /\
  exists new,
    store (animateEnemy random randomId now w r) !! List.length (store w) = Some new /\
    id new = randomId (idCalls w) /\ isDying new = false /\ spawnTime new = now.
Proof.
  intros He Hl. unfold leaves in Hl. rewrite He in Hl.
  rewrite (animateEnemy_cases now w r e He). cbv zeta. rewrite Hl.
  destruct (afterAdvance_store now w r e He) as (H1 & H2 & H3 & H4).
  assert (Hc : idCalls (if isDying e then w else updateEnemy r (advance now) w)
               = idCalls w) by now destruct (isDying e).
  set (w1 := if isDying e then w else updateEnemy r (advance now) w) in *.
  split; [exact (removeAndRespawn_removes now r w1 _ H1)|].
  unfold removeAndRespawn. rewrite H1.
  destruct (spawnEnemy_new now
              (set_enemies
                 (List.filter (fun r' => match store w1 !! r' with
                                         | Some e0 => negb (String.eqb (id e0)
                                                              (id (afterAdvance now e)))
                                         | None => true
                                         end) (enemies w1)) w1))
    as (new & -> & -> & -> & Hi & Hd & Hs).
  cbn [store enemies idCalls set_enemies] in *. rewrite H2, Hc in *.
  repeat split.
  - apply List.in_app_iff. right. now left.
  - exists new. rewrite lookup_app_r by lia. rewrite H2, Nat.sub_diag.
    repeat split; assumption.
Qed.

(** A reference of the array that the walk does not visit stays in the
    array, with its object, unless a target that leaves shares its id. *)
Lemma animateEnemy_keeps now w r n en :
  store w !! n = Some en -> n <> r -> In n (enemies w) ->
  (forall e, store w !! r = Some e -> leaves now w r = true -> id e <> id en) ->
  In n (enemies (animateEnemy random randomId now w r)) /\
  store (animateEnemy random randomId now w r) !! n = Some en.
Proof.
  intros Hn Hne Hin Hid. destruct (store w !! r) as [e|] eqn:He.
  - rewrite (animateEnemy_cases now w r e He). cbv zeta.
    destruct (afterAdvance_store now w r e He) as (H1 & H2 & H3 & H4).
    specialize (Hid e eq_refl). unfold leaves in Hid. rewrite He in Hid.
    set (w1 := if isDying e then w else updateEnemy r (advance now) w) in *.
    destruct (outOfBounds (afterAdvance now e)).
    + destruct (removeAndRespawn_fields now r w1 _ H1) as [-> [new ->]].
      split.
      * apply List.in_app_iff. left. apply List.filter_In. rewrite H3.
        split; [assumption|]. rewrite (H4 n Hne), Hn, afterAdvance_id.
        apply negb_true_iff, String.eqb_neq. intros E. now apply (Hid eq_refl).
      * rewrite lookup_app_l by (rewrite H2; now apply lookup_lt_Some in Hn).
        now rewrite (H4 n Hne).
    + rewrite H3. split; [assumption|]. now rewrite (H4 n Hne).
  - unfold animateEnemy. rewrite He. now split.
Qed.

Lemma walk_keeps now l : forall w n en,
  NoDup l -> Forall (fun r => (r < List.length (store w))%nat) l ->
  store w !! n = Some en -> ~ In n l -> In n (enemies w) ->
  (forall r e, In r l -> store w !! r = Some e -> leaves now w r = true ->
               id e <> id en) ->
  In n (enemies (fold_left (animateEnemy random randomId now) l w)) /\
  store (fold_left (animateEnemy random randomId now) l w) !! n = Some en.
Proof.
  induction l as [|r l IH]; intros w n en Hnd Hv Hn Hout Hin Hid; [now split|].
  apply NoDup_cons in Hnd as [Hr Hnd]. apply Forall_cons in Hv as [Hrv Hv].
  rewrite list_elem_of_In in Hr.
  destruct (animateEnemy_spec now w r) as (L1 & O1 & _ & _).
  destruct (animateEnemy_keeps now w r n en Hn) as [K1 K2].
  { intros ->. apply Hout. now left. }
  { assumption. }
  { intros e He Hl. apply (Hid r e); [now left | assumption | assumption]. }
  set (w1 := animateEnemy random randomId now w r) in *.
  cbn [fold_left]. fold w1. apply IH; try assumption.
  - eapply Forall_impl; [exact Hv|]. cbv beta. intros; lia.
  - intros H. apply Hout. now right.
  - intros r' e' Hr' He' Hl'.
    assert (Hlt : (r' < List.length (store w))%nat).
    { rewrite Forall_forall in Hv. apply Hv. now apply list_elem_of_In. }
    assert (Hne : r' <> r) by (intros ->; contradiction).
    apply (Hid r' e'); [now right | now rewrite <- (O1 r' Hne Hlt) |].
    unfold leaves in *. now rewrite <- (O1 r' Hne Hlt).
Qed.

(** The new enemies of a frame: one for each target that leaves, behind
    the next free references, in the array when the frame ends and live,
    provided the ids drawn for them differ from the ids of the targets
    that leave. *)
Lemma walk_new now l : forall w,
  NoDup l -> Forall (fun r => (r < List.length (store w))%nat) l ->
  (forall r e k, In r l -> store w !! r = Some e -> leaves now w r = true ->
                 (k < List.length (List.filter (leaves now w) l))%nat ->
                 id e <> randomId (idCalls w + k)) ->
  forall i, (i < List.length (List.filter (leaves now w) l))%nat ->
    In (List.length (store w) + i)%nat
       (enemies (fold_left (animateEnemy random randomId now) l w)) /\
    exists new,
      store (fold_left (animateEnemy random randomId now) l w)
        !! (List.length (store w) + i)%nat = Some new /\
      id new = randomId (idCalls w + i) /\ isDying new = false /\ spawnTime new = now.
Proof.
  induction l as [|r l IH]; intros w Hnd Hv Hid i Hi; [cbn in Hi; lia|].
  apply NoDup_cons in Hnd as [Hr Hnd]. apply Forall_cons in Hv as [Hrv Hv].
  rewrite list_elem_of_In in Hr.
  destruct (animateEnemy_spec now w r) as (L1 & O1 & _ & _).
  assert (Hsame : forall r', In r' l ->
            store (animateEnemy random randomId now w r) !! r' = store w !! r' /\
            leaves now (animateEnemy random randomId now w r) r' = leaves now w r').
  { intros r' Hr'.
    assert (Hlt : (r' < List.length (store w))%nat).
    { rewrite Forall_forall in Hv. apply Hv. now apply list_elem_of_In. }
    assert (Hne : r' <> r) by (intros ->; contradiction).
    unfold leaves. now rewrite (O1 r' Hne Hlt). }
  assert (Hfil : List.filter (leaves now (animateEnemy random randomId now w r)) l
                 = List.filter (leaves now w) l).
  { apply List.filter_ext_in. intros r' Hr'. now apply Hsame. }
  assert (Hv1 : Forall (fun r' => (r' < List.length
                                          (store (animateEnemy random randomId now w r)))%nat) l).
  { eapply Forall_impl; [exact Hv|]. cbv beta. intros; lia. }
  cbn [List.filter] in Hi, Hid. cbn [fold_left].
  destruct (leaves now w r) eqn:Hl.
  - destruct (store w !! r) as [e|] eqn:He;
      [|unfold leaves in Hl; rewrite He in Hl; discriminate].
    destruct (animateEnemy_leaver now w r e He Hl) as (_ & Kin & Kc & new & Kst & Ki & Kd & Ks).
    try rewrite Hl in L1. cbn [List.length] in Hi, Hid.
    set (w1 := animateEnemy random randomId now w r) in *.
    destruct i as [|i].
    + rewrite !Nat.add_0_r.
      destruct (walk_keeps now l w1 (List.length (store w)) new Hnd Hv1 Kst) as [K1 K2].
      * intros H. rewrite Forall_forall in Hv.
        apply list_elem_of_In in H. specialize (Hv _ H). cbv beta in Hv. lia.
      * exact Kin.
      * intros r' e' Hr' He' Hl'. destruct (Hsame r' Hr') as [S1 S2].
        rewrite Ki. replace (idCalls w) with (idCalls w + 0)%nat by lia.
        apply (Hid r' e' 0%nat); [now right | now rewrite <- S1 | now rewrite <- S2 | lia].
      * split; [exact K1|]. exists new. repeat split; assumption.
    + destruct (IH w1 Hnd Hv1) with (i := i) as (K1 & new' & K2 & K3 & K4 & K5).
      * intros r' e' k Hr' He' Hl' Hk. destruct (Hsame r' Hr') as [S1 S2].
        rewrite Kc. replace (S (idCalls w) + k)%nat with (idCalls w + S k)%nat by lia.
        rewrite Hfil in Hk.
        apply (Hid r' e' (S k)); [now right | now rewrite <- S1 | now rewrite <- S2 | lia].
      * rewrite Hfil. lia.
      * replace (List.length (store w) + S i)%nat
          with (List.length (store w1) + i)%nat by lia.
        split; [exact K1|]. exists new'. repeat split; try assumption.
        rewrite K3, Kc. f_equal. lia.
  - pose proof (animateEnemy_idCalls now w r Hl) as Kc.
    try rewrite Hl in L1. rewrite Nat.add_0_r in L1.
    set (w1 := animateEnemy random randomId now w r) in *.
    destruct (IH w1 Hnd Hv1) with (i := i) as (K1 & new' & K2 & K3 & K4 & K5).
    + intros r' e' k Hr' He' Hl' Hk. destruct (Hsame r' Hr') as [S1 S2].
      rewrite Kc. rewrite Hfil in Hk.
      apply (Hid r' e' k); [now right | now rewrite <- S1 | now rewrite <- S2 | assumption].
    + now rewrite Hfil.
    + rewrite L1, Kc in *. split; [exact K1|]. exists new'. now repeat split.
Qed.


End Bounds.

Lemma length_on_axis z : 0 <= z -> V3.length (mkV 0 0 (- z)) = z.
Proof.
  intros Hz. unfold V3.length, V3.lengthSq, V3.dot. cbn [vx vy vz].
  replace (0 * 0 + 0 * 0 + - z * - z) with (z * z) by lra.
  now apply sqrt_square.
Qed.

(** C5. In a frame, every target whose distance from the origin exceeds 30
    once the frame has advanced it (a dying target is not advanced) is gone
    from the array when the frame ends, and [spawnEnemy] has created one new
    enemy for each such target.  The test does not look at [isDying]: a
    dying target beyond the radius is removed like any other.  The
    iteration of the walk that removes the target pushes the reference of
    its replacement, a new live enemy with the id just drawn, onto the
    array; and the replacements are in the array when the frame ends, behind
    the next free references, provided the ids drawn for them differ from
    the ids of the targets that leave (removal is by id). *)
Theorem out_of_bounds_removed :
  forall (random : nat -> R) (randomId : nat -> string) (now : Z) (w : World),
    wellFormed w ->
    let w' := animate random randomId now w in
    let leavers := List.length (List.filter (leaves now w) (enemies w)) in
    (forall r e,
        In r (enemies w) -> store w !! r = Some e ->
        30 < V3.length (position (mesh (afterAdvance now e))) ->
        ~ In r (enemies w')) /\
    (forall r e,
        In r (enemies w) -> store w !! r = Some e -> isDying e = true ->
        30 < V3.length (position (mesh e)) ->
        ~ In r (enemies w')) /\
    List.length (store w') = (List.length (store w) + leavers)%nat /\
    (forall w0 r e,
        store w0 !! r = Some e ->
        30 < V3.length (position (mesh (afterAdvance now e))) ->
        let w1 := animateEnemy random randomId now w0 r in
        ~ In r (enemies w1) /\
        In (List.length (store w0)) (enemies w1) /\
        exists new,
          store w1 !! List.length (store w0) = Some new /\
          id new = randomId (idCalls w0) /\ isDying new = false /\
          spawnTime new = now) /\
    ((forall r e k,
         In r (enemies w) -> store w !! r = Some e -> leaves now w r = true ->
         (k < leavers)%nat -> id e <> randomId (idCalls w + k)%nat) ->
     forall i, (i < leavers)%nat ->
       In (List.length (store w) + i)%nat (enemies w') /\
       exists new,
         store w' !! (List.length (store w) + i)%nat = Some new /\
         id new = randomId (idCalls w + i)%nat /\ isDying new = false /\
         spawnTime new = now).
Proof.
  intros random randomId now w [Hnd Hv]. cbv zeta.
  destruct (animate_walk random randomId now (enemies w) w Hnd Hv)
    as (L & _ & _ & Rm).
  assert (Hleaves : forall w0 r e, store w0 !! r = Some e ->
             30 < V3.length (position (mesh (afterAdvance now e))) ->
             leaves now w0 r = true).
  { intros w0 r e He Hfar. unfold leaves, outOfBounds. rewrite He.
    destruct (Rlt_dec 30 _); [reflexivity | contradiction]. }
  assert (Hmain : forall r e,
             In r (enemies w) -> store w !! r = Some e ->
             30 < V3.length (position (mesh (afterAdvance now e))) ->
             ~ In r (enemies (animate random randomId now w))).
  { intros r e Hr He Hfar. unfold animate. cbn [enemies set_vfx].
    apply Rm; [assumption|]. now apply (Hleaves w r e). }
  repeat apply conj.
  - exact Hmain.
  - intros r e Hr He Hd Hfar. apply (Hmain r e Hr He).
    unfold afterAdvance. now rewrite Hd.
  - exact L.
  - intros w0 r e He Hfar.
    destruct (animateEnemy_leaver random randomId now w0 r e He (Hleaves w0 r e He Hfar))
      as (K1 & K2 & _ & new & K3 & K4 & K5 & K6).
    split; [exact K1|]. split; [exact K2|]. exists new. now repeat split.
  - intros Hid i Hi. unfold animate. cbn [enemies store set_vfx].
    now apply (walk_new random randomId now (enemies w) w Hnd Hv Hid i).
Qed.

Lemma out_of_bounds_removed_witness :
  ~ In 0%nat (enemies (animate draws ids 16 farAway)) /\
  In 2%nat (enemies (animate draws ids 16 farAway)) /\
  exists new,
    store (animate draws ids 16 farAway) !! 2%nat = Some new /\
    id new = ids 0 /\ isDying new = false /\ spawnTime new = 16%Z.
Proof.
  assert (Hwf : wellFormed farAway).
  { split.
    - repeat constructor; cbv [farAway enemies]; rewrite ?list_elem_of_In;
        cbn [In]; lia.
    - repeat constructor; cbv [farAway store List.length]; lia. }
  assert (Hfar : 30 < V3.length (position (mesh (afterAdvance 16
                   (mkEnemy "A" (normalMesh (-31)) (mkV 0 0 0.1) 0 true 100 "normal"))))).
  { cbn [afterAdvance isDying mesh position normalMesh].
    replace (-31) with (- (31)) by lra. rewrite length_on_axis; lra. }
  assert (Hl0 : leaves 16 farAway 0 = true).
  { unfold leaves, outOfBounds. cbn [farAway store lookup list_lookup].
    destruct (Rlt_dec 30 _); [reflexivity | contradiction]. }
  destruct (out_of_bounds_removed draws ids 16 farAway Hwf) as (H1 & _ & _ & _ & H5).
  cbv zeta in H5. cbn [farAway enemies List.filter] in H5. rewrite Hl0 in H5.
  split.
  - eapply (H1 0%nat); [now left | reflexivity | exact Hfar].
  - apply (H5) with (i := 0%nat).
    + intros r e k [<-|[<-|[]]] [= <-] _ Hk;
        destruct (leaves 16 farAway 1) in Hk; cbn [List.length] in Hk;
        (destruct k as [|[|k]]; [discriminate | discriminate | lia]).
    + destruct (leaves 16 farAway 1); cbn [List.length]; lia.
Defined.

(** ** Aim assist *)

Lemma assistStep_dying gunOrigin acc enemy :
  isDying enemy = true -> assistStep gunOrigin acc enemy = acc.
Proof. intros H. unfold assistStep. now rewrite H. Qed.

Lemma aimAssist_fold gunOrigin es : forall acc,
  fold_left (assistStep gunOrigin) es acc
  = fold_left (assistStep gunOrigin) (List.filter (fun e => negb (isDying e)) es) acc.
Proof.
  induction es as [|e es IH]; intros acc; [reflexivity|].
  cbn [fold_left List.filter]. destruct (isDying e) eqn:Hd; cbn [negb].
  - rewrite (assistStep_dying _ _ _ Hd). apply IH.
  - cbn [fold_left]. apply IH.
Qed.

Lemma aimAssist_snoc gunOrigin aimDirection es enemy :
  aimAssist gunOrigin aimDirection (es ++ [enemy])
  = assistStep gunOrigin (aimAssist gunOrigin aimDirection es) enemy.
Proof. unfold aimAssist. now rewrite fold_left_app. Qed.

(** The threshold is pi/20, nine degrees. *)
Lemma AIM_ASSIST_ANGLE_eq : AIM_ASSIST_ANGLE = PI / 20.
Proof. unfold AIM_ASSIST_ANGLE, AIM_ASSIST_RADIUS. lra. Qed.

Lemma cos_AIM_ASSIST_ANGLE : cos AIM_ASSIST_ANGLE < 99 / 100.
Proof.
  rewrite AIM_ASSIST_ANGLE_eq. pose proof PI2_3_2 as H3. pose proof PI_4 as H4.
  apply Rlt_le_trans with (cos (3 / 20)).
  - apply cos_decreasing_1; lra.
  - destruct (cos_bound (3 / 20) 0) as [_ Hub]; [lra | lra |].
    eapply Rle_trans; [exact Hub|].
    unfold cos_approx. cbn [Nat.mul Nat.add sum_f_R0]. unfold cos_term.
    cbn [Nat.mul Nat.add pow fact INR]. lra.
Qed.

(** A sufficient test for [angleTo a v < theta] that avoids the arc
    cosine: the cosine of the angle, [dot / sqrt (lengthSq * lengthSq)], is
    at least [c], and [c] exceeds [cos theta]. *)
Lemma angleTo_lt (c theta : R) (a v : Vector3) :
  0 < c <= 1 -> cos theta < c -> 0 <= theta <= PI ->
  0 < V3.dot a v -> 0 < V3.lengthSq a * V3.lengthSq v ->
  c * c * (V3.lengthSq a * V3.lengthSq v) <= V3.dot a v * V3.dot a v ->
  V3.angleTo a v < theta.
Proof.
  intros Hc Hcos Hth Hdot HL Hsq. unfold V3.angleTo. cbv zeta.
  set (L := V3.lengthSq a * V3.lengthSq v) in *.
  pose proof (sqrt_lt_R0 L HL) as HD. pose proof (sqrt_sqrt L (Rlt_le _ _ HL)) as HDD.
  set (D := sqrt L) in *.
  destruct (Req_dec_T D 0) as [E|_]; [lra|].
  assert (Hx : c <= V3.dot a v / D).
  { apply Rmult_le_reg_r with D; [assumption|].
    unfold Rdiv. rewrite Rmult_assoc, Rinv_l, Rmult_1_r by lra.
    destruct (Rle_dec (c * D) (V3.dot a v)) as [|Hn]; [assumption|].
    exfalso. apply Rnot_le_lt in Hn.
    assert (V3.dot a v * V3.dot a v < (c * D) * (c * D)) by nra.
    nra. }
  set (x := V3.dot a v / D) in *.
  assert (Hy : c <= V3.clamp x (-1) 1 <= 1).
  { unfold V3.clamp, Rmax, Rmin.
    destruct (Rle_dec 1 x); destruct (Rle_dec (-1) _); lra. }
  set (y := V3.clamp x (-1) 1) in *.
  destruct (Rlt_dec (acos y) theta) as [|Hn]; [assumption|]. exfalso.
  apply Rnot_lt_le in Hn.
  pose proof (acos_bound y) as Hb.
  assert (cos (acos y) <= cos theta) by (apply cos_decr_1; lra).
  rewrite cos_acos in H by lra. lra.
Qed.


Lemma normalize_eq (v : Vector3) (l : R) :
  0 < l -> V3.lengthSq v = l * l ->
  V3.normalize v = mkV (vx v / l) (vy v / l) (vz v / l).
Proof.
  intros Hl Hv. unfold V3.normalize, V3.length. rewrite Hv, sqrt_square by lra.
  unfold V3.or_one. destruct (Req_dec_T l 0); [lra|].
  unfold V3.divideScalar, V3.multiplyScalar. f_equal; unfold Rdiv; ring.
Qed.

Lemma aimAssist_two_pulls gunOrigin aimDirection e1 e2 :
  let t1 := V3.normalize (V3.sub (position (mesh e1)) gunOrigin) in
  let t2 := V3.normalize (V3.sub (position (mesh e2)) gunOrigin) in
  isDying e1 = false -> isDying e2 = false ->
  V3.angleTo aimDirection t1 < AIM_ASSIST_ANGLE ->
  V3.angleTo (V3.lerp aimDirection t1 AIM_ASSIST_STRENGTH) t2 < AIM_ASSIST_ANGLE ->
  aimAssist gunOrigin aimDirection [e1; e2]
  = (V3.lerp (V3.lerp aimDirection t1 AIM_ASSIST_STRENGTH) t2
       AIM_ASSIST_STRENGTH, true).
Proof.
  intros t1 t2 H1 H2 Ha1 Ha2. unfold aimAssist. cbn [fold_left].
  unfold assistStep at 2. rewrite H1. cbn [fst]. fold t1.
  destruct (Rlt_dec (V3.angleTo aimDirection t1) AIM_ASSIST_ANGLE); [|contradiction].
  unfold assistStep. rewrite H2. cbn [fst]. fold t2.
  destruct (Rlt_dec _ AIM_ASSIST_ANGLE); [reflexivity | contradiction].
Qed.

Lemma cauchy_schwarz (a v : Vector3) :
  V3.dot a v * V3.dot a v <= V3.lengthSq a * V3.lengthSq v.
Proof.
  unfold V3.lengthSq, V3.dot. destruct a as [a1 a2 a3], v as [v1 v2 v3]. cbn [vx vy vz].
  pose proof (Rle_0_sqr (a1 * v2 - a2 * v1)) as H1.
  pose proof (Rle_0_sqr (a1 * v3 - a3 * v1)) as H2.
  pose proof (Rle_0_sqr (a2 * v3 - a3 * v2)) as H3.
  unfold Rsqr in *. nra.
Qed.

(** An angle below the assist angle is an acute one: both vectors are
    non-zero and their dot product is positive. *)
Lemma angleTo_acute (a v : Vector3) :
  V3.angleTo a v < AIM_ASSIST_ANGLE ->
  0 < V3.dot a v /\ 0 < V3.lengthSq a * V3.lengthSq v.
Proof.
  rewrite AIM_ASSIST_ANGLE_eq. unfold V3.angleTo. cbv zeta.
  pose proof PI_RGT_0 as Hpi.
  destruct (Req_dec_T (sqrt (V3.lengthSq a * V3.lengthSq v)) 0) as [E|Hne]; [lra|].
  intros Hlt.
  assert (HD : 0 < sqrt (V3.lengthSq a * V3.lengthSq v)).
  { pose proof (sqrt_pos (V3.lengthSq a * V3.lengthSq v)). lra. }
  split.
  - destruct (Rlt_dec 0 (V3.dot a v)) as [|Hn]; [assumption|]. exfalso.
    set (x := V3.dot a v / sqrt (V3.lengthSq a * V3.lengthSq v)) in *.
    assert (Hx : x <= 0).
    { unfold x, Rdiv. apply Rnot_lt_le in Hn.
      replace 0 with (0 * / sqrt (V3.lengthSq a * V3.lengthSq v)) by ring.
      apply Rmult_le_compat_r; [|assumption].
      apply Rlt_le, Rinv_0_lt_compat, HD. }
    assert (Hc : -1 <= V3.clamp x (-1) 1 <= 0).
    { unfold V3.clamp. split.
      - apply Rmax_l.
      - apply Rmax_lub; [lra|]. eapply Rle_trans; [apply Rmin_r|assumption]. }
    pose proof (acos_bound (V3.clamp x (-1) 1)) as Hb.
    assert (Hcos : 0 < cos (acos (V3.clamp x (-1) 1))) by (apply cos_gt_0; lra).
    rewrite cos_acos in Hcos by lra. lra.
  - destruct (Rle_lt_dec (V3.lengthSq a * V3.lengthSq v) 0) as [Hle|]; [|assumption].
    exfalso. pose proof (lengthSq_nonneg a). pose proof (lengthSq_nonneg v).
    assert (E0 : V3.lengthSq a * V3.lengthSq v = 0) by nra.
    rewrite E0, sqrt_0 in HD. lra.
Qed.

Lemma lengthSq_lerp (a v : Vector3) :
  V3.lengthSq (V3.lerp a v AIM_ASSIST_STRENGTH)
  = 0.36 * V3.lengthSq a + 0.48 * V3.dot a v + 0.16 * V3.lengthSq v.
Proof.
  unfold V3.lengthSq, V3.dot, V3.lerp, AIM_ASSIST_STRENGTH.
  destruct a as [a1 a2 a3], v as [v1 v2 v3]. cbn [vx vy vz]. lra.
Qed.

Lemma acos_anti (y y' : R) : -1 <= y -> y <= y' -> y' <= 1 -> acos y' <= acos y.
Proof.
  intros H1 H2 H3. destruct (Rle_dec (acos y') (acos y)) as [|Hn]; [assumption|].
  exfalso. apply Rnot_le_lt in Hn.
  pose proof (acos_bound y) as Hb. pose proof (acos_bound y') as Hb'.
  assert (cos (acos y') < cos (acos y)) by (apply cos_decreasing_1; lra).
  rewrite !cos_acos in H by lra. lra.
Qed.

Lemma clamp_mono (x x' : R) : x <= x' -> V3.clamp x (-1) 1 <= V3.clamp x' (-1) 1.
Proof.
  intros H. unfold V3.clamp, Rmax, Rmin.
  destruct (Rle_dec 1 x); destruct (Rle_dec 1 x');
    repeat (match goal with
            | |- context [Rle_dec ?a ?b] => destruct (Rle_dec a b)
            end); lra.
Qed.

Lemma clamp_bounds (x : R) : -1 <= V3.clamp x (-1) 1 <= 1.
Proof.
  unfold V3.clamp, Rmax, Rmin.
  destruct (Rle_dec 1 x); destruct (Rle_dec (-1) _); lra.
Qed.

Lemma dot_lerp (a v : Vector3) :
  V3.dot (V3.lerp a v AIM_ASSIST_STRENGTH) v = 0.6 * V3.dot a v + 0.4 * V3.lengthSq v.
Proof.
  unfold V3.lengthSq, V3.dot, V3.lerp, AIM_ASSIST_STRENGTH.
  destruct a as [a1 a2 a3], v as [v1 v2 v3]. cbn [vx vy vz]. lra.
Qed.

(** A pull towards [v] leaves the offset from [v] at six tenths. *)
Lemma lerp_offset (a v : Vector3) :
  V3.sub (V3.lerp a v AIM_ASSIST_STRENGTH) v = V3.multiplyScalar (V3.sub a v) 0.6.
Proof.
  unfold V3.sub, V3.lerp, V3.multiplyScalar, AIM_ASSIST_STRENGTH. cbn [vx vy vz].
  f_equal; lra.
Qed.

(** A pull towards a direction inside the cone does not widen the angle to
    that direction. *)
Lemma angleTo_lerp (a v : Vector3) :
  V3.angleTo a v < AIM_ASSIST_ANGLE ->
  V3.angleTo (V3.lerp a v AIM_ASSIST_STRENGTH) v <= V3.angleTo a v.
Proof.
  intros Hlt. destruct (angleTo_acute a v Hlt) as [Hp HSU].
  pose proof (cauchy_schwarz a v) as Hcs.
  pose proof (lengthSq_nonneg a) as HS0. pose proof (lengthSq_nonneg v) as HU0.
  pose proof (lengthSq_lerp a v) as ES. pose proof (dot_lerp a v) as Ep.
  unfold V3.angleTo. cbv zeta.
  set (a' := V3.lerp a v AIM_ASSIST_STRENGTH) in *.
  set (p := V3.dot a v) in *. set (S := V3.lengthSq a) in *.
  set (U := V3.lengthSq v) in *. set (p' := V3.dot a' v) in *.
  set (S' := V3.lengthSq a') in *.
  assert (HU : 0 < U) by nra. assert (HS : 0 < S) by nra.
  assert (HS' : 0 < S') by lra.
  assert (HSU' : 0 < S' * U) by (apply Rmult_lt_0_compat; assumption).
  pose proof (sqrt_lt_R0 _ HSU) as HD. pose proof (sqrt_lt_R0 _ HSU') as HD'.
  pose proof (sqrt_sqrt _ (Rlt_le _ _ HSU)) as HDD.
  pose proof (sqrt_sqrt _ (Rlt_le _ _ HSU')) as HDD'.
  set (D := sqrt (S * U)) in *. set (D' := sqrt (S' * U)) in *.
  destruct (Req_dec_T D' 0) as [E|_]; [lra|].
  destruct (Req_dec_T D 0) as [E|_]; [lra|].
  apply acos_anti; [apply clamp_bounds | | apply clamp_bounds].
  apply clamp_mono.
  assert (Hkey : 0 <= U * ((0.48 * p + 0.16 * U) * (S * U - p * p))).
  { apply Rmult_le_pos; [lra|]. apply Rmult_le_pos; lra. }
  assert (Hcross : p * D' <= p' * D).
  { destruct (Rle_dec (p * D') (p' * D)) as [|Hn]; [assumption|]. exfalso.
    apply Rnot_le_lt in Hn.
    assert (Hp' : 0 < p') by lra.
    assert (H0 : 0 <= p' * D) by (apply Rmult_le_pos; lra).
    assert (Hsq : (p' * D) * (p' * D) < (p * D') * (p * D'))
      by (apply Rmult_le_0_lt_compat; assumption).
    replace ((p' * D) * (p' * D)) with (p' * p' * (D * D)) in Hsq by ring.
    replace ((p * D') * (p * D')) with (p * p * (D' * D')) in Hsq by ring.
    rewrite HDD, HDD', ES, Ep in Hsq. lra. }
  unfold Rdiv.
  apply Rmult_le_reg_r with (D * D'); [apply Rmult_lt_0_compat; assumption|].
  replace (p * / D * (D * D')) with (p * D') by (field; lra).
  replace (p' * / D' * (D * D')) with (p' * D) by (field; lra).
  exact Hcross.
Qed.

(** Live targets that all lie in one direction [t] from the ray origin,
    inside the cone of the aim: every one of them pulls, each on top of the
    pulls before it. *)
Lemma aimAssist_in_line gunOrigin t es : forall a found,
  Forall (fun e => isDying e = false /\
                   V3.normalize (V3.sub (position (mesh e)) gunOrigin) = t) es ->
  V3.angleTo a t < AIM_ASSIST_ANGLE ->
  V3.sub (fst (fold_left (assistStep gunOrigin) es (a, found))) t
  = V3.multiplyScalar (V3.sub a t) (0.6 ^ List.length es) /\
  (es <> [] -> snd (fold_left (assistStep gunOrigin) es (a, found)) = true).
Proof.
  induction es as [|e es IH]; intros a found Hall Ha.
  - cbn [fold_left fst List.length pow]. split; [|congruence].
    unfold V3.sub, V3.multiplyScalar. cbn [vx vy vz]. f_equal; ring.
  - apply Forall_cons in Hall as [[Hd Ht] Hall].
    cbn [fold_left]. unfold assistStep at 2 4. rewrite Hd, Ht. cbn [fst].
    destruct (Rlt_dec (V3.angleTo a t) AIM_ASSIST_ANGLE); [|contradiction].
    assert (Ha' : V3.angleTo (V3.lerp a t AIM_ASSIST_STRENGTH) t < AIM_ASSIST_ANGLE).
    { eapply Rle_lt_trans; [apply angleTo_lerp; exact Ha | exact Ha]. }
    destruct (IH (V3.lerp a t AIM_ASSIST_STRENGTH) true Hall Ha') as [E S].
    split.
    + rewrite E, lerp_offset. cbn [List.length pow].
      unfold V3.sub, V3.multiplyScalar. cbn [vx vy vz]. f_equal; ring.
    + intros _. destruct es as [|e' es']; [reflexivity|]. apply S. discriminate.
Qed.

(** C6. The aim assist walks the target list in order and skips dying
    targets.  A live target pulls exactly when the angle between the aim
    direction as adjusted so far and the unit direction from the ray origin
    to the target is below AIM_ASSIST_RADIUS * (pi/180) * 6.  The pull moves
    every coordinate of the aim four tenths of the way to that direction:
    the offset from it shrinks to six tenths, and the angle to it does not
    grow.  The pulls compound: the second of two qualifying targets is
    tested against, and pulls, the direction the first has already moved,
    which leaves 0.36 of the aim, 0.24 of the first direction and 0.4 of
    the second; and n live targets in one direction inside the cone all
    pull, leaving 0.6^n of the offset, where a single pull towards one
    selected target would leave 0.6 of it. *)
Theorem aim_assist_compounds :
  forall gunOrigin aimDirection : Vector3,
    (forall es,
        aimAssist gunOrigin aimDirection es
        = aimAssist gunOrigin aimDirection
            (List.filter (fun e => negb (isDying e)) es)) /\
    (forall es enemy,
        aimAssist gunOrigin aimDirection (es ++ [enemy])
        = assistStep gunOrigin (aimAssist gunOrigin aimDirection es) enemy) /\
    (forall dir found enemy,
        let toEnemy := V3.normalize (V3.sub (position (mesh enemy)) gunOrigin) in
        let pulled := assistStep gunOrigin (dir, found) enemy in
        (isDying enemy = true -> pulled = (dir, found)) /\
        (isDying enemy = false ->
         ~ V3.angleTo dir toEnemy < 1.5 * (PI / 180) * 6 -> pulled = (dir, found)) /\
        (isDying enemy = false ->
         V3.angleTo dir toEnemy < 1.5 * (PI / 180) * 6 ->
         pulled = (mkV (0.6 * vx dir + 0.4 * vx toEnemy)
                       (0.6 * vy dir + 0.4 * vy toEnemy)
                       (0.6 * vz dir + 0.4 * vz toEnemy), true) /\
         V3.sub (fst pulled) toEnemy = V3.multiplyScalar (V3.sub dir toEnemy) 0.6 /\
         V3.angleTo (fst pulled) toEnemy <= V3.angleTo dir toEnemy)) /\
    (forall e1 e2,
        let t1 := V3.normalize (V3.sub (position (mesh e1)) gunOrigin) in
        let t2 := V3.normalize (V3.sub (position (mesh e2)) gunOrigin) in
        isDying e1 = false -> isDying e2 = false ->
        V3.angleTo aimDirection t1 < AIM_ASSIST_ANGLE ->
        V3.angleTo (V3.lerp aimDirection t1 AIM_ASSIST_STRENGTH) t2 < AIM_ASSIST_ANGLE ->
        aimAssist gunOrigin aimDirection [e1; e2]
        = (mkV (0.36 * vx aimDirection + 0.24 * vx t1 + 0.4 * vx t2)
               (0.36 * vy aimDirection + 0.24 * vy t1 + 0.4 * vy t2)
               (0.36 * vz aimDirection + 0.24 * vz t1 + 0.4 * vz t2), true)) /\
    (forall t es,
        es <> [] ->
        Forall (fun e => isDying e = false /\
                         V3.normalize (V3.sub (position (mesh e)) gunOrigin) = t) es ->
        V3.angleTo aimDirection t < AIM_ASSIST_ANGLE ->
        snd (aimAssist gunOrigin aimDirection es) = true /\
        V3.sub (fst (aimAssist gunOrigin aimDirection es)) t
        = V3.multiplyScalar (V3.sub aimDirection t) (0.6 ^ List.length es)).
Proof.
  intros gunOrigin aimDirection. repeat apply conj.
  - intros es. apply aimAssist_fold.
  - apply aimAssist_snoc.
  - intros dir found enemy toEnemy pulled. subst pulled.
    replace (1.5 * (PI / 180) * 6) with AIM_ASSIST_ANGLE
      by (unfold AIM_ASSIST_ANGLE, AIM_ASSIST_RADIUS; lra).
    repeat apply conj.
    + intros Hd. now apply assistStep_dying.
    + intros Hd Hn. unfold assistStep. rewrite Hd. cbn [fst]. fold toEnemy.
      destruct (Rlt_dec _ _); [contradiction | reflexivity].
    + intros Hd Ha. unfold assistStep. rewrite Hd. cbn [fst]. fold toEnemy.
      destruct (Rlt_dec _ _); [|contradiction]. cbn [fst]. repeat apply conj.
      * unfold V3.lerp, AIM_ASSIST_STRENGTH. do 2 f_equal; lra.
      * apply lerp_offset.
      * now apply angleTo_lerp.
  - intros e1 e2 t1 t2 H1 H2 Ha1 Ha2.
    rewrite (aimAssist_two_pulls gunOrigin aimDirection e1 e2 H1 H2 Ha1 Ha2).
    fold t1 t2. unfold V3.lerp, AIM_ASSIST_STRENGTH. cbn [vx vy vz].
    do 2 f_equal; lra.
  - intros t es Hne Hall Ha. unfold aimAssist.
    destruct (aimAssist_in_line gunOrigin t es aimDirection false Hall Ha) as [E S].
    split; [now apply S | exact E].
Qed.

Lemma towards_nearTarget :
  V3.normalize (V3.sub (position (mesh nearTarget)) V3.zero) = towardsBoth.
Proof.
  rewrite (normalize_eq _ 113).
  - unfold towardsBoth, V3.sub, V3.zero, nearTarget. cbn [mesh position vx vy vz].
    f_equal; lra.
  - lra.
  - unfold V3.lengthSq, V3.dot, V3.sub, V3.zero, nearTarget.
    cbn [mesh position vx vy vz]. lra.
Qed.

Lemma towards_farTarget :
  V3.normalize (V3.sub (position (mesh farTarget)) V3.zero) = towardsBoth.
Proof.
  rewrite (normalize_eq _ 226).
  - unfold towardsBoth, V3.sub, V3.zero, farTarget. cbn [mesh position vx vy vz].
    f_equal; lra.
  - lra.
  - unfold V3.lengthSq, V3.dot, V3.sub, V3.zero, farTarget.
    cbn [mesh position vx vy vz]. lra.
Qed.

Lemma angle_forward_towardsBoth :
  V3.angleTo forward towardsBoth < AIM_ASSIST_ANGLE.
Proof.
  pose proof PI2_3_2 as H3. pose proof PI_4 as H4.
  apply (angleTo_lt (99 / 100)); try lra.
  - apply cos_AIM_ASSIST_ANGLE.
  - rewrite AIM_ASSIST_ANGLE_eq. lra.
  - unfold V3.dot, forward, towardsBoth. cbn [vx vy vz]. lra.
  - unfold V3.lengthSq, V3.dot, forward, towardsBoth. cbn [vx vy vz]. lra.
  - unfold V3.lengthSq, V3.dot, forward, towardsBoth. cbn [vx vy vz]. lra.
Qed.

Lemma angle_pulled_towardsBoth :
  V3.angleTo (V3.lerp forward towardsBoth AIM_ASSIST_STRENGTH) towardsBoth
  < AIM_ASSIST_ANGLE.
Proof.
  pose proof PI2_3_2 as H3. pose proof PI_4 as H4.
  apply (angleTo_lt (99 / 100)); try lra.
  - apply cos_AIM_ASSIST_ANGLE.
  - rewrite AIM_ASSIST_ANGLE_eq. lra.
  - unfold V3.dot, V3.lerp, AIM_ASSIST_STRENGTH, forward, towardsBoth.
    cbn [vx vy vz]. lra.
  - unfold V3.lengthSq, V3.dot, V3.lerp, AIM_ASSIST_STRENGTH, forward, towardsBoth.
    cbn [vx vy vz]. lra.
  - unfold V3.lengthSq, V3.dot, V3.lerp, AIM_ASSIST_STRENGTH, forward, towardsBoth.
    cbn [vx vy vz]. lra.
Qed.

Lemma aim_assist_compounds_witness :
  snd (aimAssist V3.zero forward [nearTarget; farTarget]) = true /\
  vx (fst (aimAssist V3.zero forward [nearTarget; farTarget])) = 0.64 * (15 / 113) /\
  vz (fst (aimAssist V3.zero forward [nearTarget; farTarget]))
  = - (0.36 + 0.64 * (112 / 113)).
Proof.
  destruct (proj2 (proj2 (proj2 (proj2 (aim_assist_compounds V3.zero forward))))
              towardsBoth [nearTarget; farTarget]) as [Hs Hv].
  - discriminate.
  - repeat constructor; [apply towards_nearTarget | apply towards_farTarget].
  - apply angle_forward_towardsBoth.
  - split; [exact Hs|].
    pose proof (f_equal vx Hv) as Hx. pose proof (f_equal vz Hv) as Hz.
    unfold V3.sub, V3.multiplyScalar, forward, towardsBoth in Hx, Hz.
    cbn [vx vy vz List.length pow] in Hx, Hz. unfold forward. split; lra.
Defined.

(** With two targets in line the x component of the assisted direction is
    0.64 * 15/113: two pulls of 0.4, where a single pull towards the nearest
    target would give 0.4 * 15/113. *)
Lemma double_pull :
  vx (fst (aimAssist V3.zero forward [nearTarget; farTarget])) = 0.64 * (15 / 113) /\
  snd (aimAssist V3.zero forward [nearTarget; farTarget]) = true /\
  vx (V3.lerp forward towardsBoth AIM_ASSIST_STRENGTH) = 0.4 * (15 / 113).
Proof.
  pose proof (aimAssist_two_pulls V3.zero forward nearTarget farTarget) as H.
  cbv zeta in H. rewrite towards_nearTarget, towards_farTarget in H.
  rewrite H;
    [| reflexivity | reflexivity
     | apply angle_forward_towardsBoth | apply angle_pulled_towardsBoth].
  cbn [fst snd].
  unfold V3.lerp, AIM_ASSIST_STRENGTH, forward, towardsBoth. cbn [vx vy vz].
  repeat split; lra.
Qed.

Lemma chooseConfig_normal rand :
  0.45 <= rand -> chooseConfig rand = mkConfig 0xff3333 1.0 1.0 100 "normal".
Proof.
  intros H. unfold chooseConfig.
  repeat (destruct (Rlt_dec rand _); [lra|]). reflexivity.
Qed.

Ltac name_world :=
  match goal with
  | |- context [run _ _ _ _ _ ?w] =>
      tryif is_var w then idtac else (let n := fresh "w" in set (n := w))
  end.

Ltac shared_timer_step :=
  match goal with
  | |- context [run _ _ _ ?c (Fire ?now ?k :: _) ?w] =>
      let o := eval lazy in (timers w !! k) in
      match o with
      | Some ?t =>
          rewrite (run_cons hitsAll draws ids c (Fire now k) _ w _
                     (step_Fire hitsAll draws ids c now k t w
                        ltac:(lia) ltac:(reflexivity)
                        ltac:(apply Z.leb_le; reflexivity)));
          cbn [eventTime]; name_world
      end
  end.

Ltac shared_fire_step d :=
  erewrite run_cons; cycle 1; [apply step_Detect; lia|]; cbn [eventTime];
  unfold registeredOnResults at 1;
  match goal with
  | |- context [run _ _ _ _ _ (onResults _ _ _ ?now ?res ?w)] =>
      let Hh := fresh "Hh" in
      destruct (onResults_fire hitsAll ids initialGameState now res d w)
        as (? & ? & ? & Hh & ->);
      [apply Z.leb_le; reflexivity | apply triggerDistance_pinchAt; lra
      | unfold TRIGGER_THRESHOLD; lra | reflexivity |];
      rewrite pinchAt_tracked in Hh; injection Hh as <- <- <-
  end; name_world.

Ltac shared_release_step d :=
  erewrite run_cons; cycle 1; [apply step_Detect; lia|]; cbn [eventTime];
  unfold registeredOnResults at 1;
  match goal with
  | |- context [run _ _ _ _ _ (onResults _ _ _ ?now ?res ?w)] =>
      let Hh := fresh "Hh" in
      destruct (onResults_release hitsAll ids initialGameState now res d w)
        as (? & ? & ? & Hh & ->);
      [apply Z.leb_le; reflexivity | apply triggerDistance_pinchAt; lra
      | unfold TRIGGER_THRESHOLD; lra |];
      rewrite pinchAt_tracked in Hh; injection Hh as <- <- <-
  end; name_world.

Ltac volley :=
  shared_fire_step 0.03; shared_release_step 0.08;
  shared_timer_step; shared_timer_step; shared_timer_step.

Ltac eval_score :=
  cbn [run comboAndScore];
  lazy -[chooseConfig draws Z.add Z.mul Z.div]; unfold draws;
  rewrite !chooseConfig_normal by lra; reflexivity.

(** C2 (the code at the failing input).  After mounting, five shots in a
    row hit targets worth 100 points each: the combo is 5 and the score
    500.  The sixth shot, fired at combo 5 through the handler the component
    registered, hits another 100-point target: the score becomes 600, not
    500 + 100 + floor(5/5) * 50 = 650, and the combo becomes 6. *)
Theorem sixth_hit_scores_base_points :
  comboAndScore (run hitsAll draws ids 0 fiveVolleys (initThree draws ids 0))
  = Some (5, 500)%Z /\
  comboAndScore (run hitsAll draws ids 0 sixVolleys (initThree draws ids 0))
  = Some (6, 600)%Z.
Proof.
  split.
  - unfold fiveVolleys, volleyAt. cbn [app].
    volley. volley. volley. volley. volley.
    eval_score.
  - unfold sixVolleys, fiveVolleys, volleyAt. cbn [app].
    volley. volley. volley. volley. volley. volley.
    eval_score.
Qed.

(** ** Well-formedness of the enemy array is an invariant *)

Lemma wellFormed_same w w' :
  enemies w' = enemies w -> List.length (store w') = List.length (store w) ->
  wellFormed w -> wellFormed w'.
Proof. unfold wellFormed. intros -> ->. tauto. Qed.

Section Invariant.

Variable intersectObject : Raycaster -> Mesh -> list Intersection.
Variable random : nat -> R.
Variable randomId : nat -> string.

Lemma wellFormed_spawnEnemy now w :
  wellFormed w -> wellFormed (spawnEnemy random randomId now w).
Proof.
  intros [Hnd Hv]. unfold wellFormed.
  change (enemies (spawnEnemy random randomId now w))
    with (enemies w ++ [List.length (store w)]).
  assert (Hl : List.length (store (spawnEnemy random randomId now w))
               = S (List.length (store w))).
  { unfold spawnEnemy. cbv zeta. cbn [store set_idCalls set_randomCalls set_enemies set_store].
    rewrite List.length_app. cbn [List.length]. lia. }
  rewrite Hl. split.
  - apply NoDup_app. split; [assumption|]. split; [|apply NoDup_singleton].
    intros r Hr Hr'. apply list_elem_of_singleton in Hr'. subst r.
    rewrite Forall_forall in Hv. specialize (Hv _ Hr). lia.
  - apply Forall_app. split.
    + eapply Forall_impl; [exact Hv|]. cbv beta. intros; lia.
    + repeat constructor.
Qed.

Lemma wellFormed_filter p w :
  wellFormed w -> wellFormed (set_enemies (List.filter p (enemies w)) w).
Proof.
  intros [Hnd Hv]. unfold wellFormed. cbn [enemies store set_enemies]. split.
  - apply NoDup_ListNoDup. apply List.NoDup_filter. now apply NoDup_ListNoDup.
  - apply Forall_forall. intros r Hr. apply list_elem_of_In, List.filter_In in Hr.
    rewrite Forall_forall in Hv. apply Hv. apply list_elem_of_In. tauto.
Qed.

Lemma wellFormed_removeAndRespawn now r w :
  wellFormed w -> wellFormed (removeAndRespawn random randomId now r w).
Proof.
  intros H. unfold removeAndRespawn. destruct (store w !! r); [|assumption].
  apply wellFormed_spawnEnemy. now apply wellFormed_filter.
Qed.

Lemma wellFormed_updateEnemy r f w :
  wellFormed w -> wellFormed (updateEnemy r f w).
Proof.
  apply wellFormed_same; [reflexivity|].
  unfold updateEnemy. cbn [store set_store]. apply length_alter.
Qed.

Lemma wellFormed_animateEnemy now w r :
  wellFormed w -> wellFormed (animateEnemy random randomId now w r).
Proof.
  intros H. unfold animateEnemy. destruct (store w !! r) as [e|]; [|assumption].
  assert (H1 : wellFormed (if isDying e then w else updateEnemy r (advance now) w))
    by (destruct (isDying e); [assumption | now apply wellFormed_updateEnemy]).
  destruct (store _ !! r) as [e'|]; [|assumption].
  destruct (outOfBounds e'); [now apply wellFormed_removeAndRespawn | assumption].
Qed.

Lemma wellFormed_animate now w :
  wellFormed w -> wellFormed (animate random randomId now w).
Proof.
  intros H. unfold animate.
  apply (wellFormed_same (fold_left (animateEnemy random randomId now) (enemies w) w));
    [reflexivity | reflexivity |].
  generalize (enemies w) at 1. intros l. revert w H.
  induction l as [|r l IH]; intros w H; [assumption|].
  cbn [fold_left]. apply IH. now apply wellFormed_animateEnemy.
Qed.

Lemma wellFormed_handleShoot gs now direction origin w :
  wellFormed w ->
  wellFormed (handleShoot intersectObject randomId gs now direction origin w).
Proof.
  destruct (findIndex (hitTest intersectObject (mkRaycaster origin direction) w) (enemies w))
    as [i|] eqn:H.
  - destruct (handleShoot_hit intersectObject randomId gs now direction origin w i H)
      as (r & enemy & _ & _ & _ & ->).
    apply wellFormed_same; [reflexivity|].
    unfold hitWorld. cbn [store]. now rewrite !length_alter.
  - rewrite (handleShoot_miss intersectObject randomId gs now direction origin w H).
    now apply wellFormed_same.
Qed.

Lemma wellFormed_onResults gs now results w :
  wellFormed w -> wellFormed (onResults intersectObject randomId gs now results w).
Proof.
  intros H.
  destruct (Z.lt_ge_cases (now - lastDetection w) DETECTION_FREQ_MS) as [Ht|Ht].
  { now rewrite onResults_throttled. }
  destruct (noHand results) eqn:Hn.
  { rewrite onResults_noHand by assumption. revert H. now apply wellFormed_same. }
  assert (Ha : forall base tip, wellFormed (aimWorld now base tip w))
    by (intros; revert H; now apply wellFormed_same).
  destruct (trackedHand results) as [[[thumb base] tip]|] eqn:Hh.
  - rewrite (onResults_tracked intersectObject randomId gs now results
               thumb base tip w Ht Hh).
    destruct (Rlt_dec _ _); [destruct (isTriggered w)|].
    + apply Ha.
    + apply wellFormed_handleShoot.
      generalize (Ha base tip). now apply wellFormed_same.
    + generalize (Ha base tip). now apply wellFormed_same.
  - pose proof (onResultsBody_untracked intersectObject randomId gs now results
                  (set_lastDetection now w) Hn Hh) as Hthrow.
    destruct (onResults_throws intersectObject randomId gs now results w Ht Hthrow)
      as (_ & [(_ & ->) | (base & tip & _ & ->)]).
    + revert H. now apply wellFormed_same.
    + apply Ha.
Qed.

Lemma wellFormed_runTimer now a w :
  wellFormed w -> wellFormed (runTimer random randomId now a w).
Proof.
  intros H. destruct a; cbn [runTimer].
  - revert H. now apply wellFormed_same.
  - revert H. now apply wellFormed_same.
  - now apply wellFormed_removeAndRespawn.
Qed.

Lemma wellFormed_step clock ev w w' :
  step intersectObject random randomId clock ev w = Some w' ->
  wellFormed w -> wellFormed w'.
Proof.
  unfold step. destruct (eventTime ev <? clock)%Z; [discriminate|].
  destruct ev as [now results|now|now k].
  - intros [= <-]. apply wellFormed_onResults.
  - intros [= <-]. apply wellFormed_animate.
  - destruct (timers w !! k) as [t|]; [|discriminate].
    destruct (now <? due t)%Z; [discriminate|].
    intros [= <-] H. apply wellFormed_runTimer. revert H. now apply wellFormed_same.
Qed.

Lemma wellFormed_initThree now : wellFormed (initThree random randomId now).
Proof.
  unfold initThree, ENEMY_COUNT. cbn [Nat.iter nat_rect].
  do 4 apply wellFormed_spawnEnemy.
  split; [apply NoDup_nil_2 | apply Forall_nil_2].
Qed.

(** Every state the mounted component can be in is well-formed. *)
Lemma reachable_wellFormed w :
  reachable intersectObject random randomId w -> wellFormed w.
Proof.
  intros (t0 & evs & Hrun).
  pose proof (wellFormed_initThree t0) as H0.
  revert Hrun H0. generalize t0 at 1 as clock. generalize (initThree random randomId t0).
  induction evs as [|ev evs IH]; intros w0 clock Hrun H0; cbn [run] in Hrun.
  - now injection Hrun as <-.
  - destruct (step intersectObject random randomId clock ev w0) as [w1|] eqn:Hs;
      [|discriminate].
    apply (IH w1 (eventTime ev) Hrun). now apply (wellFormed_step clock ev w0).
Qed.

End Invariant.

(** The situation of [lineUp] arises in a run: after the first shot of
    [doubleHitTrace] the target at index 0 is dying and still in the array;
    the second shot, 66 ms after the first, resolves against it again and
    queues a second removal for the same enemy. *)
Lemma second_shot_hits_dying_target :
  exists w1 w2,
    run hitsAll draws ids 0
      [Detect 1000 (pinchAt 0.03); Detect 1033 (pinchAt 0.08); Fire 1050 0]%Z
      (initThree draws ids 0) = Some w1 /\
    map (fun r => isDying <$> store w1 !! r) (enemies w1)
    = [Some true; Some false; Some false; Some false] /\
    run hitsAll draws ids 1050 [Detect 1066 (pinchAt 0.03)]%Z w1 = Some w2 /\
    combo (state w2) = 2%Z /\
    timers w2 = [mkTimer 1150 FlashReset; mkTimer 1100 (RemoveEnemy 0);
                 mkTimer 1116 LaserReset; mkTimer 1216 FlashReset;
                 mkTimer 1166 (RemoveEnemy 0)].
Proof.
  eexists. eexists. split; [|split; [|split; [|split]]].
  - fire_step 0.03. release_step 0.08. timer_step. reflexivity.
  - reflexivity.
  - fire_step 0.03. reflexivity.
  - reflexivity.
  - reflexivity.
Qed.

(** ** Removal and replacement *)

Section Replacement.

Variable random : nat -> R.
Variable randomId : nat -> string.

Lemma filter_remove_one (p : nat -> bool) (r : nat) (l : list nat) :
  NoDup l -> In r l -> p r = false ->
  (forall r', In r' l -> r' <> r -> p r' = true) ->
  S (List.length (List.filter p l)) = List.length l.
Proof.
  induction l as [|a l IH]; intros Hnd Hin Hr Hp; [destruct Hin|].
  apply NoDup_cons in Hnd as [Ha Hnd]. rewrite list_elem_of_In in Ha.
  cbn [List.filter]. destruct Hin as [->|Hin].
  - rewrite Hr. cbn [List.length]. f_equal.
    assert (Hall : List.filter p l = l).
    { apply List.forallb_filter_id, List.forallb_forall. intros r' Hr'.
      apply Hp; [now right|]. intros ->. contradiction. }
    now rewrite Hall.
  - assert (a <> r) by (intros ->; contradiction).
    rewrite (Hp a); [|now left|assumption]. cbn [List.length]. f_equal.
    apply IH; try assumption. intros r' Hr' Hne. apply Hp; [now right|assumption].
Qed.

(** The removal callback on an enemy that is in the array under an id of
    its own: one out, one in. *)
Lemma removeAndRespawn_replaces now r w e :
  wellFormed w -> store w !! r = Some e -> In r (enemies w) ->
  (forall r' e', In r' (enemies w) -> r' <> r -> store w !! r' = Some e' ->
                 id e' <> id e) ->
  List.length (enemies (removeAndRespawn random randomId now r w))
  = List.length (enemies w).
Proof.
  intros [Hnd Hv] He Hin Hid.
  destruct (removeAndRespawn_fields random randomId now r w e He) as [-> _].
  rewrite List.length_app. cbn [List.length].
  rewrite Nat.add_1_r. apply (filter_remove_one _ r); try assumption.
  - now rewrite He, String.eqb_refl.
  - intros r' Hr' Hne. destruct (store w !! r') as [e'|] eqn:He'; [|reflexivity].
    apply negb_true_iff, String.eqb_neq. now apply (Hid r' e').
Qed.

(** The same callback on an enemy that is no longer in the array: nothing
    out, one in. *)
Lemma removeAndRespawn_adds now r w e :
  store w !! r = Some e ->
  (forall r' e', In r' (enemies w) -> store w !! r' = Some e' -> id e' <> id e) ->
  List.length (enemies (removeAndRespawn random randomId now r w))
  = S (List.length (enemies w)).
Proof.
  intros He Hid.
  destruct (removeAndRespawn_fields random randomId now r w e He) as [-> _].
  rewrite List.length_app. cbn [List.length]. rewrite Nat.add_1_r. f_equal. f_equal.
  apply List.forallb_filter_id, List.forallb_forall. intros r' Hr'.
  destruct (store w !! r') as [e'|] eqn:He'; [|reflexivity].
  apply negb_true_iff, String.eqb_neq. now apply (Hid r' e').
Qed.

End Replacement.

(** * Further properties of the callbacks *)

(** ** Case analysis of the callbacks *)

Section Cases.

Variable intersectObject : Raycaster -> Mesh -> list Intersection.
Variable random : nat -> R.
Variable randomId : nat -> string.

Lemma handleShoot_cases gs now direction origin w :
  handleShoot intersectObject randomId gs now direction origin w
  = missWorld randomId now direction origin w \/
  exists i r e,
    enemies w !! i = Some r /\ store w !! r = Some e /\
    handleShoot intersectObject randomId gs now direction origin w
    = hitWorld randomId gs now r e w.
Proof.
  destruct (findIndex (hitTest intersectObject (mkRaycaster origin direction) w) (enemies w))
    as [i|] eqn:H.
  - right. destruct (handleShoot_hit intersectObject randomId gs now direction origin w i H)
      as (r & e & Hr & He & _ & Heq). now exists i, r, e.
  - left. now apply handleShoot_miss.
Qed.

Lemma onResults_cases gs now results w :
  onResults intersectObject randomId gs now results w = w \/
  onResults intersectObject randomId gs now results w
  = setGameState handLost (set_lastDetection now w) \/
  onResults intersectObject randomId gs now results w
  = setGameState handSeen (set_lastDetection now w) \/
  exists base tip,
    onResults intersectObject randomId gs now results w = aimWorld now base tip w \/
    onResults intersectObject randomId gs now results w
    = set_isTriggered false (aimWorld now base tip w) \/
    (isTriggered w = false /\
     onResults intersectObject randomId gs now results w
     = handleShoot intersectObject randomId gs now (shotDirection base tip w)
         (gunOrigin base) (set_isTriggered true (aimWorld now base tip w))).
Proof.
  destruct (Z.lt_ge_cases (now - lastDetection w) DETECTION_FREQ_MS) as [Ht|Ht].
  { left. now apply onResults_throttled. }
  destruct (noHand results) eqn:Hn.
  { right; left. now apply onResults_noHand. }
  destruct (trackedHand results) as [[[thumb base] tip]|] eqn:Hh.
  - right; right; right. exists base, tip.
    rewrite (onResults_tracked intersectObject randomId gs now results
               thumb base tip w Ht Hh).
    destruct (Rlt_dec _ _); [destruct (isTriggered w) eqn:E|]; tauto.
  - pose proof (onResultsBody_untracked intersectObject randomId gs now results
                  (set_lastDetection now w) Hn Hh) as Hthrow.
    destruct (onResults_throws intersectObject randomId gs now results w Ht Hthrow)
      as (_ & [(_ & ->) | (base & tip & _ & ->)]).
    + right; right; left. reflexivity.
    + right; right; right. exists base, tip. now left.
Qed.

Lemma step_cases clock ev w w' :
  step intersectObject random randomId clock ev w = Some w' ->
  (exists now results,
      w' = onResults intersectObject randomId initialGameState now results w) \/
  (exists now, w' = animate random randomId now w) \/
  (exists now k t,
      timers w !! k = Some t /\
      w' = runTimer random randomId now (action t)
             (set_timers (delete k (timers w)) w)).
Proof.
  unfold step. destruct (eventTime ev <? clock)%Z; [discriminate|].
  destruct ev as [now results|now|now k].
  - intros [= <-]. left. now exists now, results.
  - intros [= <-]. right; left. now exists now.
  - destruct (timers w !! k) as [t|] eqn:Ht; [|discriminate].
    destruct (now <? due t)%Z; [discriminate|].
    intros [= <-]. right; right. now exists now, k, t.
Qed.

(** Induction over the states the mounted component can be in. *)
Lemma reachable_inv (P : World -> Prop) :
  (forall t0, P (initThree random randomId t0)) ->
  (forall clock ev w w',
      P w -> step intersectObject random randomId clock ev w = Some w' -> P w') ->
  forall w, reachable intersectObject random randomId w -> P w.
Proof.
  intros Hinit Hstep w (t0 & evs & Hrun). pose proof (Hinit t0) as H0.
  revert Hrun H0. generalize t0 at 1 as clock. generalize (initThree random randomId t0).
  induction evs as [|ev evs IH]; intros w0 clock Hrun H0; cbn [run] in Hrun.
  - now injection Hrun as <-.
  - destruct (step intersectObject random randomId clock ev w0) as [w1|] eqn:Hs;
      [|discriminate].
    apply (IH w1 (eventTime ev) Hrun). now apply (Hstep clock ev w0).
Qed.

End Cases.

(** ** Spawning *)

Lemma chooseConfig_cases rand :
  (rand < 0.1 /\ chooseConfig rand = mkConfig 0x33ffff 1.0 1.3 500 "phantom") \/
  (0.1 <= rand < 0.25 /\ chooseConfig rand = mkConfig 0xffff33 0.6 1.8 250 "racer") \/
  (0.25 <= rand < 0.45 /\ chooseConfig rand = mkConfig 0xbb33ff 1.8 0.6 150 "titan") \/
  (0.45 <= rand /\ chooseConfig rand = mkConfig 0xff3333 1.0 1.0 100 "normal").
Proof.
  unfold chooseConfig.
  destruct (Rlt_dec rand 0.1); [left; now split|].
  destruct (Rlt_dec rand 0.25); [right; left; split; [lra|reflexivity]|].
  destruct (Rlt_dec rand 0.45); [right; right; left; split; [lra|reflexivity]|].
  right; right; right. split; [lra|reflexivity].
Qed.

Lemma chooseConfig_bounds rand :
  (100 <= cfg_points (chooseConfig rand) <= 500)%Z /\
  0.6 <= cfg_speedMult (chooseConfig rand) <= 1.8 /\
  0.6 <= cfg_scale (chooseConfig rand) <= 1.8.
Proof.
  destruct (chooseConfig_cases rand) as [[_ ->]|[[_ ->]|[[_ ->]|[_ ->]]]];
    cbn [cfg_points cfg_speedMult cfg_scale]; repeat split; try lia; lra.
Qed.

Lemma length_scaled (a : Vector3) (s : R) :
  V3.length (V3.multiplyScalar a s) = V3.length a * Rabs s.
Proof.
  unfold V3.length.
  replace (V3.lengthSq (V3.multiplyScalar a s)) with (V3.lengthSq a * (s * s))
    by (unfold V3.lengthSq, V3.dot, V3.multiplyScalar; cbn [vx vy vz]; ring).
  rewrite sqrt_mult_alt by apply lengthSq_nonneg.
  f_equal. replace (s * s) with (Rsqr s) by reflexivity. apply sqrt_Rsqr_abs.
Qed.

(** The spawn point lies on the cylinder of radius [SPAWN_RADIUS] around
    the vertical axis. *)
Lemma spawn_point a y :
  V3.lengthSq (mkV (cos a * SPAWN_RADIUS) y (- sin a * SPAWN_RADIUS))
  = 225 + y * y.
Proof.
  unfold V3.lengthSq, V3.dot, SPAWN_RADIUS. cbn [vx vy vz].
  pose proof (sin2_cos2 a) as H. unfold Rsqr in H.
  replace (cos a * 15 * (cos a * 15) + y * y + - sin a * 15 * (- sin a * 15))
    with (225 * (sin a * sin a + cos a * cos a) + y * y) by ring.
  rewrite H. ring.
Qed.

Lemma spawn_point_length a y :
  -5 <= y <= 5 ->
  15 <= V3.length (mkV (cos a * SPAWN_RADIUS) y (- sin a * SPAWN_RADIUS)) < 30.
Proof.
  intros Hy. assert (Hyy : 0 <= y * y <= 25) by nra.
  unfold V3.length. rewrite spawn_point. split.
  - replace 15 with (sqrt (15 * 15)) by (rewrite sqrt_square; lra).
    apply sqrt_le_1_alt. lra.
  - replace 30 with (sqrt (30 * 30)) by (rewrite sqrt_square; lra).
    apply sqrt_lt_1_alt. lra.
Qed.

Section Spawn.

Variable random : nat -> R.
Variable randomId : nat -> string.

Lemma spawnEnemy_store now w :
  exists e,
    store (spawnEnemy random randomId now w) = store w ++ [e] /\
    enemies (spawnEnemy random randomId now w) = enemies w ++ [List.length (store w)] /\
    e = mkEnemy (randomId (idCalls w))
          (mkMesh (mkV (cos (random (randomCalls w + 1)%nat * PI * 2) * SPAWN_RADIUS)
                       ((random (randomCalls w + 2)%nat - 0.5) * 10)
                       (- sin (random (randomCalls w + 1)%nat * PI * 2) * SPAWN_RADIUS))
                  V3.zero
                  (V3.setScalar (cfg_scale (chooseConfig (random (randomCalls w)))))
                  (cfg_color (chooseConfig (random (randomCalls w))))
                  (cfg_color (chooseConfig (random (randomCalls w)))))
          (V3.multiplyScalar
             (V3.normalize
                (V3.sub V3.zero
                   (mkV (cos (random (randomCalls w + 1)%nat * PI * 2) * SPAWN_RADIUS)
                        ((random (randomCalls w + 2)%nat - 0.5) * 10)
                        (- sin (random (randomCalls w + 1)%nat * PI * 2) * SPAWN_RADIUS))))
             ((SPEED_MIN + random (randomCalls w + 3)%nat * (SPEED_MAX - SPEED_MIN))
              * cfg_speedMult (chooseConfig (random (randomCalls w)))))
          now false (cfg_points (chooseConfig (random (randomCalls w))))
          (cfg_type (chooseConfig (random (randomCalls w)))).
Proof. eexists. repeat split. Qed.

Lemma spawnEnemy_all_in_bounds now w :
  0 <= random (randomCalls w + 2)%nat < 1 ->
  Forall (fun e => outOfBounds e = false) (store w) ->
  Forall (fun e => outOfBounds e = false) (store (spawnEnemy random randomId now w)).
Proof.
  intros Hr H. destruct (spawnEnemy_store now w) as (e & -> & _ & ->).
  apply Forall_app. split; [assumption|]. constructor; [|constructor].
  unfold outOfBounds. cbn [mesh position].
  pose proof (spawn_point_length (random (randomCalls w + 1)%nat * PI * 2)
                ((random (randomCalls w + 2)%nat - 0.5) * 10) ltac:(lra)).
  destruct (Rlt_dec 30 _); [lra | reflexivity].
Qed.

(** X1. A spawned target is live, carries the id just drawn, and sits on
    the cylinder of radius 15 around the vertical axis at a height within
    5 of the horizontal plane: between 15 and 30 from the origin, so inside
    the bounding radius of the frame loop. *)
Theorem spawn_in_bounds :
  forall now w,
    0 <= random (randomCalls w + 2)%nat < 1 ->
    exists e,
      store (spawnEnemy random randomId now w) = store w ++ [e] /\
      enemies (spawnEnemy random randomId now w)
      = enemies w ++ [List.length (store w)] /\
      isDying e = false /\ id e = randomId (idCalls w) /\
      vx (position (mesh e)) * vx (position (mesh e))
      + vz (position (mesh e)) * vz (position (mesh e))
      = SPAWN_RADIUS * SPAWN_RADIUS /\
      -5 <= vy (position (mesh e)) < 5 /\
      15 <= V3.length (position (mesh e)) < 30 /\
      outOfBounds e = false.
Proof.
  intros now w Hr. destruct (spawnEnemy_store now w) as (e & Hs & He & ->).
  eexists. split; [exact Hs|]. split; [exact He|].
  cbn [isDying id mesh position vx vy vz].
  set (a := random (randomCalls w + 1)%nat * PI * 2).
  set (y := (random (randomCalls w + 2)%nat - 0.5) * 10).
  assert (Hy : -5 <= y < 5) by (unfold y; lra).
  pose proof (spawn_point_length a y ltac:(lra)) as Hlen.
  repeat split; try reflexivity; try lra.
  - pose proof (sin2_cos2 a) as H. unfold Rsqr in H. unfold SPAWN_RADIUS.
    replace (cos a * 15 * (cos a * 15) + - sin a * 15 * (- sin a * 15))
      with (225 * (sin a * sin a + cos a * cos a)) by ring.
    rewrite H. lra.
  - unfold outOfBounds. cbn [mesh position].
    destruct (Rlt_dec 30 _); [lra | reflexivity].
Qed.

(** X2. The velocity of a spawned target points from its spawn point
    straight at the origin, and its magnitude is the speed drawn,
    SPEED_MIN + d * (SPEED_MAX - SPEED_MIN) for the fourth draw d, times
    the speed multiplier of the type chosen by the first draw: between
    0.03 and 0.216 units per frame.  One frame of advancement therefore
    brings the target exactly that much closer to the origin. *)
Theorem spawn_velocity :
  forall now w,
    0 <= random (randomCalls w + 3)%nat < 1 ->
    let speed :=
      (SPEED_MIN + random (randomCalls w + 3)%nat * (SPEED_MAX - SPEED_MIN))
      * cfg_speedMult (chooseConfig (random (randomCalls w))) in
    exists e,
      store (spawnEnemy random randomId now w) = store w ++ [e] /\
      0.03 <= speed <= 0.216 /\
      velocity e
      = V3.multiplyScalar (position (mesh e))
          (- (speed / V3.length (position (mesh e)))) /\
      V3.length (velocity e) = speed /\
      forall t,
        V3.length (position (mesh (advance t e)))
        = V3.length (position (mesh e)) - speed.
Proof.
  intros now w Hr. cbv zeta.
  destruct (spawnEnemy_store now w) as (e & Hs & _ & ->).
  set (a := random (randomCalls w + 1)%nat * PI * 2).
  set (y := (random (randomCalls w + 2)%nat - 0.5) * 10).
  set (p := mkV (cos a * SPAWN_RADIUS) y (- sin a * SPAWN_RADIUS)) in *.
  set (speed := (SPEED_MIN + random (randomCalls w + 3)%nat * (SPEED_MAX - SPEED_MIN))
                * cfg_speedMult (chooseConfig (random (randomCalls w)))) in *.
  assert (Hspeed : 0.03 <= speed <= 0.216).
  { destruct (chooseConfig_bounds (random (randomCalls w))) as (_ & Hm & _).
    unfold speed, SPEED_MIN, SPEED_MAX.
    set (m := cfg_speedMult _) in *. set (r := random _) in *.
    assert (0.05 <= 0.05 + r * (0.12 - 0.05) <= 0.12) by lra.
    set (b := 0.05 + r * (0.12 - 0.05)) in *.
    split.
    - apply Rle_trans with (0.05 * 0.6); [lra|].
      apply Rmult_le_compat; lra.
    - apply Rle_trans with (0.12 * 1.8); [|lra].
      apply Rmult_le_compat; lra. }
  assert (HL : 15 <= V3.length p).
  { unfold V3.length, p. rewrite spawn_point.
    replace 15 with (sqrt (15 * 15)) by (rewrite sqrt_square; lra).
    apply sqrt_le_1_alt. pose proof (Rle_0_sqr y) as Hy. unfold Rsqr in Hy. lra. }
  assert (Hsub : V3.sub V3.zero p = V3.multiplyScalar p (-1)).
  { unfold V3.sub, V3.zero, V3.multiplyScalar. cbn [vx vy vz]. f_equal; ring. }
  assert (Hneg : V3.length (V3.sub V3.zero p) = V3.length p).
  { rewrite Hsub, length_scaled.
    replace (Rabs (-1)) with 1 by (unfold Rabs; destruct (Rcase_abs (-1)); lra).
    ring. }
  assert (Hv : V3.multiplyScalar (V3.normalize (V3.sub V3.zero p)) speed
               = V3.multiplyScalar p (- (speed / V3.length p))).
  { unfold V3.normalize. rewrite Hneg. unfold V3.or_one.
    destruct (Req_dec_T (V3.length p) 0); [lra|].
    rewrite Hsub. unfold V3.divideScalar, V3.multiplyScalar. cbn [vx vy vz].
    f_equal; field; lra. }
  exists (mkEnemy (randomId (idCalls w))
            (mkMesh p V3.zero
               (V3.setScalar (cfg_scale (chooseConfig (random (randomCalls w)))))
               (cfg_color (chooseConfig (random (randomCalls w))))
               (cfg_color (chooseConfig (random (randomCalls w)))))
            (V3.multiplyScalar (V3.normalize (V3.sub V3.zero p)) speed)
            now false (cfg_points (chooseConfig (random (randomCalls w))))
            (cfg_type (chooseConfig (random (randomCalls w))))).
  split; [exact Hs|]. split; [exact Hspeed|].
  cbn [velocity mesh position]. rewrite Hv.
  assert (Hq : 0 <= speed / V3.length p < 1).
  { split.
    - apply Rmult_le_pos; [lra|]. apply Rlt_le, Rinv_0_lt_compat. lra.
    - apply Rmult_lt_reg_r with (V3.length p); [lra|].
      unfold Rdiv. rewrite Rmult_assoc, Rinv_l, Rmult_1_r by lra. lra. }
  repeat split.
  - rewrite length_scaled, Rabs_Ropp, Rabs_pos_eq by lra. field. lra.
  - intros t. unfold advance. cbn [mesh position velocity].
    replace (V3.add p (V3.multiplyScalar p (- (speed / V3.length p))))
      with (V3.multiplyScalar p (1 - speed / V3.length p))
      by (unfold V3.add, V3.multiplyScalar; cbn [vx vy vz]; f_equal; ring).
    rewrite length_scaled, Rabs_pos_eq by lra. field. lra.
Qed.

End Spawn.

Lemma spawn_in_bounds_witness :
  exists e, store (spawnEnemy draws ids 0 emptyWorld) = [e] /\ outOfBounds e = false.
Proof.
  destruct (spawn_in_bounds draws ids 0 emptyWorld) as (e & Hs & _ & _ & _ & _ & _ & _ & Ho).
  - unfold draws. lra.
  - exists e. split; [exact Hs | exact Ho].
Defined.

Lemma spawn_velocity_witness :
  exists e,
    store (spawnEnemy draws ids 0 emptyWorld) = [e] /\ V3.length (velocity e) = 0.085.
Proof.
  destruct (spawn_velocity draws ids 0 emptyWorld) as (e & Hs & _ & _ & Hl & _).
  - unfold draws. lra.
  - exists e. split; [exact Hs|]. rewrite Hl.
    unfold draws. rewrite chooseConfig_normal by lra.
    unfold SPEED_MIN, SPEED_MAX. cbn [cfg_speedMult]. lra.
Defined.

(** X3. [initThree] leaves exactly [ENEMY_COUNT] targets in the array, the
    first four enemy objects in creation order, all live, with the first
    four ids drawn; nothing else has happened yet: no timer, no floating
    text, the initial game state.  When the draws are numbers of [0, 1) all
    four are inside the bounding radius. *)
Theorem initThree_population :
  forall (random : nat -> R) (randomId : nat -> string) (now : Z),
    let w := initThree random randomId now in
    enemies w = [0; 1; 2; 3]%nat /\
    List.length (enemies w) = ENEMY_COUNT /\
    map id (store w) = [randomId 0; randomId 1; randomId 2; randomId 3]%nat /\
    map isDying (store w) = [false; false; false; false] /\
    map spawnTime (store w) = [now; now; now; now] /\
    timers w = [] /\ vfx w = [] /\ state w = initialGameState /\
    randomCalls w = 16%nat /\ idCalls w = 4%nat /\
    ((forall k, 0 <= random k < 1) ->
     Forall (fun e => outOfBounds e = false) (store w)).
Proof.
  intros random randomId now w.
  repeat (split; [reflexivity|]).
  intros Hr. unfold w, initThree, ENEMY_COUNT. cbn [Nat.iter nat_rect].
  do 4 (apply spawnEnemy_all_in_bounds; [apply Hr|]). constructor.
Qed.

Lemma initThree_population_witness :
  Forall (fun e => outOfBounds e = false) (store (initThree draws ids 0)).
Proof.
  apply (initThree_population draws ids 0). intros k. unfold draws. lra.
Defined.

(** ** Flight of a target *)

Lemma advanceAll_snoc times now e :
  advanceAll (times ++ [now]) e = advance now (advanceAll times e).
Proof. unfold advanceAll. now rewrite fold_left_app. Qed.

Lemma advanceAll_fields times e :
  position (mesh (advanceAll times e))
  = V3.add (position (mesh e)) (V3.multiplyScalar (velocity e) (INR (List.length times))) /\
  rotation (mesh (advanceAll times e))
  = mkV (vx (rotation (mesh e)) + 0.02 * INR (List.length times))
        (vy (rotation (mesh e)) + 0.03 * INR (List.length times))
        (vz (rotation (mesh e))) /\
  velocity (advanceAll times e) = velocity e /\
  id (advanceAll times e) = id e /\
  isDying (advanceAll times e) = isDying e /\
  points (advanceAll times e) = points e /\
  type (advanceAll times e) = type e.
Proof.
  induction times as [|now times IH] using rev_ind.
  - cbn [advanceAll fold_left List.length INR].
    repeat split; try reflexivity.
    + unfold V3.add, V3.multiplyScalar. destruct (position (mesh e)); cbn [vx vy vz].
      f_equal; ring.
    + destruct (rotation (mesh e)); cbn [vx vy vz]. f_equal; ring.
  - rewrite advanceAll_snoc, List.length_app. cbn [List.length].
    rewrite Nat.add_1_r, S_INR.
    destruct IH as (Hp & Hr & Hv & Hi & Hd & Hpt & Ht).
    unfold advance at 1 2 3 4 5 6 7. cbn [mesh position rotation velocity id isDying points type].
    rewrite Hp, Hr, Hv. repeat split; try assumption.
    + unfold V3.add, V3.multiplyScalar. cbn [vx vy vz]. f_equal; ring.
    + cbn [vx vy vz]. f_equal; lra.
Qed.

Lemma length_towards_origin (p : Vector3) (speed n : R) :
  0 < V3.length p ->
  V3.length (V3.add p (V3.multiplyScalar
                         (V3.multiplyScalar p (- (speed / V3.length p))) n))
  = Rabs (V3.length p - n * speed).
Proof.
  intros HL. remember (V3.length p) as L eqn:EL.
  replace (V3.add p (V3.multiplyScalar (V3.multiplyScalar p (- (speed / L))) n))
    with (V3.multiplyScalar p (1 - n * speed / L))
    by (unfold V3.add, V3.multiplyScalar; cbn [vx vy vz]; f_equal; unfold Rdiv; ring).
  rewrite length_scaled, <- EL.
  rewrite <- (Rabs_pos_eq L) at 1 by lra. rewrite <- Rabs_mult.
  f_equal. field. lra.
Qed.

(** X4. A target whose velocity points from its position straight at the
    origin, as that of every spawned target does, flies through the origin
    and out the other side: after n frames of advancement its distance from
    the origin is | L - n * speed |, where L is the distance it started at.
    Started inside the bounding radius it is beyond it exactly when
    n * speed exceeds L + 30.  Advancement never touches id, points, type,
    velocity or the dying flag. *)
Theorem straight_flight :
  forall (e : Enemy) (speed : R) (times : list Z),
    0 < V3.length (position (mesh e)) ->
    velocity e
    = V3.multiplyScalar (position (mesh e))
        (- (speed / V3.length (position (mesh e)))) ->
    let n := INR (List.length times) in
    let L := V3.length (position (mesh e)) in
    V3.length (position (mesh (advanceAll times e))) = Rabs (L - n * speed) /\
    (0 <= speed -> L <= 30 ->
     (outOfBounds (advanceAll times e) = true <-> L + 30 < n * speed)) /\
    id (advanceAll times e) = id e /\ points (advanceAll times e) = points e /\
    velocity (advanceAll times e) = velocity e /\
    isDying (advanceAll times e) = isDying e.
Proof.
  intros e speed times HL Hv. cbv zeta.
  destruct (advanceAll_fields times e) as (Hp & _ & Hvel & Hid & Hd & Hpt & _).
  assert (Hlen : V3.length (position (mesh (advanceAll times e)))
                 = Rabs (V3.length (position (mesh e))
                         - INR (List.length times) * speed)).
  { rewrite Hp, Hv. now apply length_towards_origin. }
  repeat split; try assumption.
  - unfold outOfBounds. rewrite Hlen.
    destruct (Rlt_dec _ _) as [Hlt|]; [intros _|discriminate].
    assert (0 <= INR (List.length times) * speed)
      by (apply Rmult_le_pos; [apply pos_INR | assumption]).
    revert Hlt. unfold Rabs. destruct (Rcase_abs _); intros; lra.
  - intros Hfar. unfold outOfBounds. rewrite Hlen.
    destruct (Rlt_dec _ _) as [|Hn]; [reflexivity|].
    exfalso. apply Hn. unfold Rabs. destruct (Rcase_abs _); lra.
Qed.

Lemma straight_flight_witness :
  V3.length (position (mesh (advanceAll [0; 16; 33]%Z
                               (mkEnemy "a" (normalMesh (-15))
                                        (mkV 0 0 0.1) 0 false 100 "normal"))))
  = Rabs (15 - 3 * 0.1).
Proof.
  pose (e := mkEnemy "a" (normalMesh (-15)) (mkV 0 0 0.1) 0 false 100 "normal").
  assert (HL : V3.length (position (mesh e)) = 15).
  { unfold e, normalMesh. cbn [mesh position].
    replace (mkV 0 0 (-15)) with (mkV 0 0 (- (15))) by (f_equal; lra).
    apply length_on_axis. lra. }
  assert (H := straight_flight e 0.1 [0; 16; 33]%Z).
  cbv zeta in H. rewrite HL in H.
  destruct H as (H & _).
  - lra.
  - unfold e, normalMesh. cbn [mesh position velocity].
    unfold V3.multiplyScalar. cbn [vx vy vz]. f_equal; lra.
  - fold e. rewrite H. cbn [List.length INR]. f_equal. lra.
Defined.

(** ** A frame in which no target leaves *)

Lemma outOfBounds_within e :
  V3.lengthSq (position (mesh e)) <= 30 * 30 -> outOfBounds e = false.
Proof.
  intros H. unfold outOfBounds. destruct (Rlt_dec _ _) as [Hlt|]; [|reflexivity].
  exfalso. unfold V3.length in Hlt.
  apply sqrt_le_1_alt in H. rewrite sqrt_square in H by lra. lra.
Qed.

Section Quiet.

Variable random : nat -> R.
Variable randomId : nat -> string.

Lemma animateEnemy_stays now w r :
  leaves now w r = false ->
  let w' := animateEnemy random randomId now w r in
  w' = set_store (store w') w /\
  List.length (store w') = List.length (store w) /\
  store w' !! r = afterAdvance now <$> store w !! r /\
  (forall r', r' <> r -> store w' !! r' = store w !! r').
Proof.
  cbv zeta. unfold leaves. destruct (store w !! r) as [e|] eqn:He.
  - intros Hl. rewrite (animateEnemy_cases random randomId now w r e He).
    cbv zeta. rewrite Hl.
    destruct (afterAdvance_store now w r e He) as (H1 & H2 & _ & H4).
    repeat split; try assumption.
    destruct (isDying e); destruct w; reflexivity.
  - intros _. unfold animateEnemy. rewrite He.
    repeat split; try reflexivity.
    + destruct w; reflexivity.
    + now rewrite He.
Qed.

Lemma quiet_walk now l : forall w,
  NoDup l -> (forall r, In r l -> leaves now w r = false) ->
  let w' := fold_left (animateEnemy random randomId now) l w in
  w' = set_store (store w') w /\
  List.length (store w') = List.length (store w) /\
  (forall r, In r l -> store w' !! r = afterAdvance now <$> store w !! r) /\
  (forall r, ~ In r l -> store w' !! r = store w !! r).
Proof.
  induction l as [|r l IH]; intros w Hnd Hq; cbv zeta.
  - cbn [fold_left]. repeat split; try reflexivity.
    + destruct w; reflexivity.
    + intros r [].
  - apply NoDup_cons in Hnd as [Hr Hnd]. rewrite list_elem_of_In in Hr.
    destruct (animateEnemy_stays now w r (Hq r (or_introl eq_refl)))
      as (E1 & L1 & A1 & O1).
    set (w1 := animateEnemy random randomId now w r) in *.
    assert (Hq1 : forall r', In r' l -> leaves now w1 r' = false).
    { intros r' Hr'. unfold leaves. rewrite O1 by (intros ->; contradiction).
      apply (Hq r'). now right. }
    destruct (IH w1 Hnd Hq1) as (Ea & La & Aa & Oa). cbn [fold_left]. fold w1.
    set (w2 := fold_left (animateEnemy random randomId now) l w1) in *.
    repeat split.
    + rewrite Ea, E1. destruct w; reflexivity.
    + lia.
    + intros r' [<-|Hr'].
      * rewrite Oa by assumption. exact A1.
      * rewrite Aa by assumption. rewrite O1 by (intros ->; contradiction).
        reflexivity.
    + intros r' Hr'. rewrite Oa by (intros H; apply Hr'; now right).
      apply O1. intros ->. apply Hr'. now left.
Qed.

(** X5. A frame in which no target of the array ends beyond the bounding
    radius changes nothing but the enemy objects and the floating texts:
    every live target of the array is advanced exactly once, every dying
    target is left exactly as it is, objects outside the array are not
    touched, no enemy is created or removed, no timer started, no random
    number drawn, and the floating texts age one frame. *)
Theorem quiet_frame :
  forall (now : Z) (w : World),
    NoDup (enemies w) ->
    (forall r, In r (enemies w) -> leaves now w r = false) ->
    let w' := animate random randomId now w in
    w' = set_vfx (ageVfx (vfx w)) (set_store (store w') w) /\
    List.length (store w') = List.length (store w) /\
    (forall r e, In r (enemies w) -> store w !! r = Some e ->
                 store w' !! r = Some (if isDying e then e else advance now e)) /\
    (forall r, ~ In r (enemies w) -> store w' !! r = store w !! r).
Proof.
  intros now w Hnd Hq. cbv zeta.
  destruct (quiet_walk now (enemies w) w Hnd Hq) as (E & L & A & O).
  unfold animate.
  set (w1 := fold_left (animateEnemy random randomId now) (enemies w) w) in *.
  cbn [store set_vfx]. repeat split.
  - rewrite E at 1 2. destruct w; reflexivity.
  - exact L.
  - intros r e Hr He. rewrite (A r Hr), He. reflexivity.
  - exact O.
Qed.

End Quiet.

Lemma quiet_frame_witness :
  store (animate draws ids 16 lineUp) !! 0%nat = Some targetA.
Proof.
  assert (Hq : forall r, In r (enemies lineUp) -> leaves 16 lineUp r = false).
  { intros r [<-|[<-|[]]]; unfold leaves, lineUp, afterAdvance;
      cbn [store lookup list_lookup]; apply outOfBounds_within.
    - unfold targetA, flare, setDying, normalMesh.
      cbn [isDying mesh position]. unfold V3.lengthSq, V3.dot. cbn [vx vy vz]. lra.
    - unfold targetB, advance, normalMesh.
      cbn [isDying mesh position velocity]. unfold V3.add, V3.lengthSq, V3.dot.
      cbn [vx vy vz]. lra. }
  assert (Hnd : NoDup (enemies lineUp)).
  { unfold lineUp. cbn [enemies]. apply NoDup_ListNoDup.
    repeat constructor; cbn [In]; lia. }
  destruct (quiet_frame draws ids 16 lineUp Hnd Hq) as (_ & _ & H & _).
  apply (H 0%nat targetA); [now left | reflexivity].
Defined.

(** ** What each callback leaves alone *)

Section Effects.

Variable intersectObject : Raycaster -> Mesh -> list Intersection.
Variable random : nat -> R.
Variable randomId : nat -> string.

Lemma besidesEnemies_refl w : besidesEnemies w w.
Proof. now repeat split. Qed.

Lemma besidesEnemies_trans w1 w2 w3 :
  besidesEnemies w1 w2 -> besidesEnemies w2 w3 -> besidesEnemies w1 w3.
Proof.
  unfold besidesEnemies.
  intros (A1 & A2 & A3 & A4 & A5 & A6 & A7 & A8) (B1 & B2 & B3 & B4 & B5 & B6 & B7 & B8).
  repeat split; congruence.
Qed.

Lemma removeAndRespawn_besides now r w :
  besidesEnemies w (removeAndRespawn random randomId now r w).
Proof.
  unfold removeAndRespawn. destruct (store w !! r); now repeat split.
Qed.

Lemma animateEnemy_besides now w r :
  besidesEnemies w (animateEnemy random randomId now w r).
Proof.
  destruct (store w !! r) as [e|] eqn:He.
  - rewrite (animateEnemy_cases random randomId now w r e He). cbv zeta.
    assert (H1 : besidesEnemies w (if isDying e then w else updateEnemy r (advance now) w))
      by (destruct (isDying e); now repeat split).
    destruct (outOfBounds _); [|exact H1].
    eapply besidesEnemies_trans; [exact H1|]. apply removeAndRespawn_besides.
  - unfold animateEnemy. rewrite He. apply besidesEnemies_refl.
Qed.

Lemma walk_besides now l : forall w,
  besidesEnemies w (fold_left (animateEnemy random randomId now) l w).
Proof.
  induction l as [|r l IH]; intros w; cbn [fold_left].
  - apply besidesEnemies_refl.
  - eapply besidesEnemies_trans; [apply animateEnemy_besides | apply IH].
Qed.

Lemma animate_state now w :
  state (animate random randomId now w) = state w /\
  timers (animate random randomId now w) = timers w /\
  isTriggered (animate random randomId now w) = isTriggered w /\
  lastDetection (animate random randomId now w) = lastDetection w.
Proof.
  destruct (walk_besides now (enemies w) w) as (A1 & _ & A3 & A4 & A5 & _).
  unfold animate. cbn [state timers isTriggered lastDetection set_vfx]. tauto.
Qed.

Lemma handSeen_score gs :
  score (handSeen gs) = score gs /\ combo (handSeen gs) = combo gs.
Proof. unfold handSeen. now destruct (handDetected gs). Qed.

Lemma handLost_score gs :
  score (handLost gs) = score gs /\ combo (handLost gs) = combo gs.
Proof. unfold handLost. now destruct (handDetected gs). Qed.

Lemma aimWorld_noShot now base tip w : noShot w (aimWorld now base tip w).
Proof.
  unfold noShot, aimWorld. cbn [store vfx timers idCalls sounds state].
  destruct (handSeen_score (state w)). now repeat split.
Qed.

Lemma onResults_effect gs now results w :
  let w' := onResults intersectObject randomId gs now results w in
  enemies w' = enemies w /\ randomCalls w' = randomCalls w /\
  (noShot w w' \/
   (isTriggered w = false /\ isTriggered w' = true /\
    (missShot randomId now w w' \/ hitShot randomId gs now w w'))).
Proof.
  cbv zeta.
  destruct (onResults_cases intersectObject randomId gs now results w)
    as [->|[->|[->|(base & tip & [->|[->|[Hi ->]]])]]].
  - repeat split. left. now repeat split.
  - repeat split. left. unfold noShot.
    cbn [store vfx timers idCalls sounds state setGameState set_lastDetection].
    destruct (handLost_score (state w)). now repeat split.
  - repeat split. left. unfold noShot.
    cbn [store vfx timers idCalls sounds state setGameState set_lastDetection].
    destruct (handSeen_score (state w)). now repeat split.
  - repeat split. left. apply aimWorld_noShot.
  - repeat split. left. apply (aimWorld_noShot now base tip w).
  - destruct (handSeen_score (state w)) as [Hs Hc].
    destruct (handleShoot_cases intersectObject randomId gs now
                (shotDirection base tip w) (gunOrigin base)
                (set_isTriggered true (aimWorld now base tip w)))
      as [->|(i & r & e & Hr & He & ->)].
    + repeat split. right. repeat split; [assumption|].
      left. eexists. unfold missWorld, aimWorld.
      cbn [store vfx timers idCalls sounds state set_isTriggered score combo].
      repeat split. exact Hs.
    + repeat split. right. repeat split; [assumption|].
      right. exists i, r, e. unfold hitWorld, aimWorld.
      cbn [store vfx timers idCalls sounds state set_isTriggered score combo].
      repeat split; try assumption; now rewrite ?Hs, ?Hc.
Qed.

Lemma runTimer_effect now a w :
  let w' := runTimer random randomId now a w in
  score (state w') = score (state w) /\ combo (state w') = combo (state w) /\
  vfx w' = vfx w /\ timers w' = timers w /\ isTriggered w' = isTriggered w /\
  (store w' = store w /\ enemies w' = enemies w \/
   exists r, a = RemoveEnemy r /\ w' = removeAndRespawn random randomId now r w).
Proof.
  cbv zeta. destruct a as [| |r]; cbn [runTimer].
  - repeat split. now left.
  - repeat split. now left.
  - destruct (removeAndRespawn_besides now r w) as (A1 & A2 & A3 & A4 & _).
    rewrite A1, A2, A3, A4. repeat split. right. now exists r.
Qed.

End Effects.

(** ** Properties of the enemy objects kept by every callback *)

Section EnemyInvariant.

Variable intersectObject : Raycaster -> Mesh -> list Intersection.
Variable random : nat -> R.
Variable randomId : nat -> string.

Variable P : Enemy -> Prop.
Hypothesis P_advance : forall now e, P e -> P (advance now e).
Hypothesis P_setDying : forall e, P e -> P (setDying e).
Hypothesis P_flare : forall e, P e -> P (flare e).
Hypothesis P_spawn : forall now w,
  Forall P (store w) -> Forall P (store (spawnEnemy random randomId now w)).

Lemma removeAndRespawn_Forall now r w :
  Forall P (store w) -> Forall P (store (removeAndRespawn random randomId now r w)).
Proof.
  intros H. unfold removeAndRespawn. destruct (store w !! r); [|assumption].
  now apply P_spawn.
Qed.

Lemma animateEnemy_Forall now w r :
  Forall P (store w) -> Forall P (store (animateEnemy random randomId now w r)).
Proof.
  intros H. destruct (store w !! r) as [e|] eqn:He.
  - rewrite (animateEnemy_cases random randomId now w r e He). cbv zeta.
    assert (H1 : Forall P (store (if isDying e then w else updateEnemy r (advance now) w))).
    { destruct (isDying e); [assumption|]. unfold updateEnemy. cbn [store set_store].
      apply Forall_alter; [assumption|]. intros x _. apply P_advance. }
    destruct (outOfBounds _); [|exact H1]. now apply removeAndRespawn_Forall.
  - unfold animateEnemy. now rewrite He.
Qed.

Lemma animate_Forall now w :
  Forall P (store w) -> Forall P (store (animate random randomId now w)).
Proof.
  unfold animate. cbn [store set_vfx]. generalize (enemies w) at 1. intros l. revert w.
  induction l as [|r l IH]; intros w H; [assumption|].
  cbn [fold_left]. apply IH. now apply animateEnemy_Forall.
Qed.

Lemma onResults_Forall gs now results w :
  Forall P (store w) ->
  Forall P (store (onResults intersectObject randomId gs now results w)).
Proof.
  intros H.
  destruct (onResults_effect intersectObject randomId gs now results w)
    as (_ & _ & [N|(_ & _ & [(pos & M)|(i & r & e & _ & _ & Hh & _)])]).
  { destruct N as [-> _]. assumption. }
  { destruct M as [-> _]. assumption. }
  rewrite Hh.
  apply Forall_alter; [apply Forall_alter; [assumption|]|].
  - intros x _. apply P_setDying.
  - intros x _. apply P_flare.
Qed.

Lemma step_Forall clock ev w w' :
  step intersectObject random randomId clock ev w = Some w' ->
  Forall P (store w) -> Forall P (store w').
Proof.
  intros Hs H.
  destruct (step_cases intersectObject random randomId clock ev w w' Hs)
    as [(now & results & ->)|[(now & ->)|(now & k & t & Ht & ->)]].
  - now apply onResults_Forall.
  - now apply animate_Forall.
  - destruct (action t) as [| |r]; cbn [runTimer]; try assumption.
    now apply removeAndRespawn_Forall.
Qed.

Lemma reachable_Forall w :
  reachable intersectObject random randomId w -> Forall P (store w).
Proof.
  apply (reachable_inv intersectObject random randomId (fun w => Forall P (store w))).
  - intros t0. unfold initThree, ENEMY_COUNT. cbn [Nat.iter nat_rect].
    do 4 apply P_spawn. constructor.
  - intros clock ev w0 w1 H Hs. now apply (step_Forall clock ev w0 w1).
Qed.

End EnemyInvariant.

Lemma spawnEnemy_points random randomId now w :
  Forall tablePoints (store w) ->
  Forall tablePoints (store (spawnEnemy random randomId now w)).
Proof.
  intros H. destruct (spawnEnemy_store random randomId now w) as (e & -> & _ & ->).
  apply Forall_app. split; [assumption|]. constructor; [|constructor].
  unfold tablePoints. cbn [points].
  destruct (chooseConfig_cases (random (randomCalls w))) as [[_ ->]|[[_ ->]|[[_ ->]|[_ ->]]]];
    cbn [cfg_points]; tauto.
Qed.

Lemma step_points io random randomId clock ev w w' :
  step io random randomId clock ev w = Some w' ->
  Forall tablePoints (store w) -> Forall tablePoints (store w').
Proof.
  apply step_Forall; try (intros; assumption).
  intros now w0. apply spawnEnemy_points.
Qed.

Lemma reachable_points io random randomId w :
  reachable io random randomId w -> Forall tablePoints (store w).
Proof.
  apply reachable_Forall; try (intros; assumption).
  intros now w0. apply spawnEnemy_points.
Qed.


(** ** Score and combo *)

Section Score.

Variable intersectObject : Raycaster -> Mesh -> list Intersection.
Variable random : nat -> R.
Variable randomId : nat -> string.

(** The change of score and combo by one callback, from a state in which
    every enemy carries table points. *)
Lemma step_score clock ev w w' :
  Forall tablePoints (store w) ->
  step intersectObject random randomId clock ev w = Some w' ->
  (score (state w') = score (state w) /\ combo (state w') = combo (state w)) \/
  (score (state w') = score (state w) /\ combo (state w') = 0%Z) \/
  (exists p, (p = 100 \/ p = 150 \/ p = 250 \/ p = 500)%Z /\
             score (state w') = (score (state w) + p)%Z /\
             combo (state w') = (combo (state w) + 1)%Z).
Proof.
  intros HP Hs.
  destruct (step_cases intersectObject random randomId clock ev w w' Hs)
    as [(now & results & ->)|[(now & ->)|(now & k & t & Ht & ->)]].
  - destruct (onResults_effect intersectObject randomId initialGameState now results w)
      as (_ & _ & [N|(_ & _ & [(pos & M)|(i & r & e & _ & He & H)])]).
    + left. unfold noShot in N. tauto.
    + right; left. tauto.
    + right; right. exists (points e).
      rewrite Forall_lookup in HP. split; [exact (HP r e He)|].
      destruct H as (_ & _ & _ & _ & -> & ->).
      change (combo initialGameState / 5 * 50)%Z with 0%Z. split; [lia|reflexivity].
  - left. destruct (animate_state random randomId now w) as (-> & _). tauto.
  - left.
    destruct (runTimer_effect random randomId now (action t)
                (set_timers (delete k (timers w)) w)) as (-> & -> & _).
    tauto.
Qed.

(** X6. In every state the mounted component can reach, the combo is not
    negative, the score is a multiple of 50, and the score is at least 100
    times the combo: every hit of the running streak has paid at least the
    100 points of the cheapest target. *)
Theorem score_covers_combo :
  forall w,
    reachable intersectObject random randomId w ->
    (0 <= combo (state w))%Z /\
    (100 * combo (state w) <= score (state w))%Z /\
    (exists k, score (state w) = 50 * k)%Z.
Proof.
  intros w Hw.
  assert (H : Forall tablePoints (store w) /\
              (0 <= combo (state w))%Z /\
              (100 * combo (state w) <= score (state w))%Z /\
              (exists k, score (state w) = 50 * k)%Z); [|tauto].
  revert w Hw.
  apply (reachable_inv intersectObject random randomId
           (fun w => Forall tablePoints (store w) /\
                     (0 <= combo (state w))%Z /\
                     (100 * combo (state w) <= score (state w))%Z /\
                     (exists k, score (state w) = 50 * k)%Z)).
  - intros t0. split.
    + apply (reachable_points intersectObject random randomId). now exists t0, [].
    + change (state (initThree random randomId t0)) with initialGameState.
      cbn [combo score initialGameState]. repeat split; try lia. now exists 0%Z.
  - intros clock ev w w' (HP & Hc & Hs & k & Hk) Hstep. split.
    + exact (step_points intersectObject random randomId clock ev w w' Hstep HP).
    + destruct (step_score clock ev w w' HP Hstep)
        as [(-> & ->)|[(-> & ->)|(p & Hp & -> & ->)]].
      * repeat split; try lia. now exists k.
      * repeat split; try lia. now exists k.
      * repeat split; try lia.
        destruct Hp as [-> | [-> | [-> | ->]]];
          [exists (k + 2)%Z | exists (k + 3)%Z | exists (k + 5)%Z | exists (k + 10)%Z]; lia.
Qed.

(** X7. No callback lowers the score.  From a reachable state, one event
    changes the score only together with the combo going up by one, and
    then by 100, 150, 250 or 500: the points of one target, no bonus.  The
    combo otherwise stays or is reset to 0. *)
Theorem score_never_decreases :
  forall clock ev w w',
    reachable intersectObject random randomId w ->
    step intersectObject random randomId clock ev w = Some w' ->
    (score (state w) <= score (state w'))%Z /\
    (score (state w') <> score (state w) ->
     combo (state w') = (combo (state w) + 1)%Z /\
     (score (state w') - score (state w) = 100 \/
      score (state w') - score (state w) = 150 \/
      score (state w') - score (state w) = 250 \/
      score (state w') - score (state w) = 500)%Z) /\
    (score (state w') = score (state w) ->
     combo (state w') = combo (state w) \/ combo (state w') = 0%Z).
Proof.
  intros clock ev w w' Hw Hstep.
  pose proof (reachable_points intersectObject random randomId w Hw) as HP.
  destruct (step_score clock ev w w' HP Hstep)
    as [(Hs & Hc)|[(Hs & Hc)|(p & Hp & Hs & Hc)]];
    rewrite Hs, Hc; repeat split; lia.
Qed.

End Score.

(** ** The first shot of a session, a miss *)

Lemma hitsNone_miss rc w l : findIndex (hitTest hitsNone rc w) l = None.
Proof.
  induction l as [|r l IH]; [reflexivity|]. cbn [findIndex].
  rewrite IH. unfold hitTest, intersects, hitsNone.
  now destruct (store w !! r).
Qed.

Lemma firstMiss_reachable : reachable hitsNone draws ids firstMiss.
Proof.
  exists 0%Z, [Detect 1000 (pinchAt 0.03)].
  erewrite run_cons; [|apply step_Detect; lia]. unfold firstMiss. reflexivity.
Qed.

Lemma firstMiss_eq :
  exists base tip,
    firstMiss
    = missWorld ids 1000 (shotDirection base tip (initThree draws ids 0)) (gunOrigin base)
        (set_isTriggered true (aimWorld 1000 base tip (initThree draws ids 0))).
Proof.
  destruct (onResults_fire hitsNone ids initialGameState 1000 (pinchAt 0.03) 0.03
              (initThree draws ids 0)) as (thumb & base & tip & _ & H).
  - change (lastDetection (initThree draws ids 0)) with 0%Z.
    unfold DETECTION_FREQ_MS. lia.
  - apply triggerDistance_pinchAt. lra.
  - unfold TRIGGER_THRESHOLD. lra.
  - reflexivity.
  - exists base, tip. unfold firstMiss, registeredOnResults. rewrite H.
    apply handleShoot_miss. apply hitsNone_miss.
Qed.

Lemma firstMiss_vfx :
  exists pos, vfx firstMiss = [mkFloatingText (ids 4) MissText pos "#f87171" 1.0].
Proof.
  destruct firstMiss_eq as (base & tip & ->). eexists. reflexivity.
Qed.

(** ** Floating texts *)

Section Texts.

Variable intersectObject : Raycaster -> Mesh -> list Intersection.
Variable random : nat -> R.
Variable randomId : nat -> string.

Lemma step_vfx clock ev w w' :
  step intersectObject random randomId clock ev w = Some w' ->
  vfx w' = vfx w \/ vfx w' = ageVfx (vfx w) \/
  exists v, life v = 1.0 /\ ft_id v = randomId (idCalls w) /\ vfx w' = vfx w ++ [v].
Proof.
  intros Hs.
  destruct (step_cases intersectObject random randomId clock ev w w' Hs)
    as [(now & results & ->)|[(now & ->)|(now & k & t & Ht & ->)]].
  - destruct (onResults_effect intersectObject randomId initialGameState now results w)
      as (_ & _ & [N|(_ & _ & [(pos & M)|(i & r & e & _ & _ & _ & H & _)])]).
    + left. unfold noShot in N. tauto.
    + right; right. destruct M as (_ & -> & _).
      eexists. split; [|split]. 3: reflexivity. all: reflexivity.
    + right; right. rewrite H.
      eexists. split; [|split]. 3: reflexivity. all: reflexivity.
  - right; left. apply animate_vfx.
  - left.
    destruct (runTimer_effect random randomId now (action t)
                (set_timers (delete k (timers w)) w)) as (_ & _ & -> & _).
    reflexivity.
Qed.

(** X8. In every state the mounted component can reach, the life of every
    floating text is above 0 and at most 1, as the comment of the type says.
    Whenever the overlay is rendered, each text therefore has an opacity in
    (0, 1], a scale factor in (0.8, 2] and a vertical shift in (-100, 0]
    pixels. *)
Theorem text_life_in_range :
  forall w v,
    reachable intersectObject random randomId w -> In v (vfx w) ->
    0 < life v <= 1 /\
    0 < style_opacity (textStyle v) <= 1 /\
    0.8 < style_scale (textStyle v) <= 2 /\
    -100 < style_translateY (textStyle v) <= 0.
Proof.
  intros w v Hw Hv.
  assert (H : Forall (fun v => 0 < life v <= 1) (vfx w)).
  { clear Hv. revert w Hw.
    apply (reachable_inv intersectObject random randomId
             (fun w => Forall (fun v => 0 < life v <= 1) (vfx w))).
    - intros t0. constructor.
    - intros clock ev w w' H Hs.
      destruct (step_vfx clock ev w w' Hs) as [->|[->|(v' & Hl & _ & ->)]].
      + assumption.
      + eapply Forall_impl; [apply (ageVfx_bound 1)|].
        * eapply Forall_impl; [exact H|]. cbv beta. intros; lra.
        * cbv beta. intros; lra.
      + apply Forall_app. split; [assumption|].
        constructor; [|constructor]. rewrite Hl. lra. }
  rewrite Forall_forall in H. apply list_elem_of_In in Hv. specialize (H v Hv).
  unfold textStyle. cbn [style_opacity style_scale style_translateY].
  repeat split; lra.
Qed.

End Texts.

(** X9. Rendering after a frame: the frame moves a floating text that
    survives it up by a third of a percent of the overlay's height, leaves
    its horizontal place, and lowers its opacity by 0.025, its scale factor
    by 0.03 and shifts it 2.5 pixels further up. *)
Theorem text_style_after_frame :
  forall v,
    style_left (textStyle (tickVfx v)) = style_left (textStyle v) /\
    style_top (textStyle (tickVfx v)) = style_top (textStyle v) - 1 / 3 /\
    style_opacity (textStyle (tickVfx v)) = style_opacity (textStyle v) - 0.025 /\
    style_scale (textStyle (tickVfx v)) = style_scale (textStyle v) - 0.03 /\
    style_translateY (textStyle (tickVfx v)) = style_translateY (textStyle v) - 2.5.
Proof.
  intros v. unfold textStyle, tickVfx.
  cbn [style_left style_top style_opacity style_scale style_translateY
       ft_position life vx vy vz].
  repeat split; lra.
Qed.

Lemma text_life_in_range_witness :
  exists v, In v (vfx firstMiss) /\ 0 < life v <= 1.
Proof.
  destruct firstMiss_vfx as (pos & Hv). eexists. split.
  - rewrite Hv. left. reflexivity.
  - apply (text_life_in_range hitsNone draws ids firstMiss);
      [exact firstMiss_reachable | rewrite Hv; now left].
Defined.

(** ** The throttle and the edge flag across results *)

Section Detection.

Variable intersectObject : Raycaster -> Mesh -> list Intersection.
Variable randomId : nat -> string.

Lemma handleShoot_lastDetection gs now direction origin w :
  lastDetection (handleShoot intersectObject randomId gs now direction origin w)
  = lastDetection w /\
  isTriggered (handleShoot intersectObject randomId gs now direction origin w)
  = isTriggered w.
Proof.
  destruct (handleShoot_cases intersectObject randomId gs now direction origin w)
    as [->|(i & r & e & _ & _ & ->)]; now split.
Qed.

(** A result that is processed stamps [lastDetection], whatever it holds
    and also when its processing throws. *)
Lemma onResults_stamp gs now results w :
  (DETECTION_FREQ_MS <= now - lastDetection w)%Z ->
  lastDetection (onResults intersectObject randomId gs now results w) = now.
Proof.
  intros Ht. destruct (noHand results) eqn:Hn.
  { now rewrite (onResults_noHand intersectObject randomId gs now results w Ht Hn). }
  destruct (trackedHand results) as [[[thumb base] tip]|] eqn:Hh.
  - rewrite (onResults_tracked intersectObject randomId gs now results
               thumb base tip w Ht Hh).
    destruct (Rlt_dec _ _); [destruct (isTriggered w)|]; try reflexivity.
    now rewrite (proj1 (handleShoot_lastDetection _ _ _ _ _)).
  - pose proof (onResultsBody_untracked intersectObject randomId gs now results
                  (set_lastDetection now w) Hn Hh) as Hthrow.
    destruct (onResults_throws intersectObject randomId gs now results w Ht Hthrow)
      as (_ & [(_ & ->) | (base & tip & _ & ->)]); reflexivity.
Qed.

(** A result without a complete first hand (no hand at all, or a hand with
    one of the landmarks 4, 5, 8 missing) neither fires nor moves the edge
    flag. *)
Lemma onResults_untracked gs now results w :
  trackedHand results = None ->
  isTriggered (onResults intersectObject randomId gs now results w) = isTriggered w /\
  noShot w (onResults intersectObject randomId gs now results w).
Proof.
  intros Hh.
  destruct (Z.lt_ge_cases (now - lastDetection w) DETECTION_FREQ_MS) as [Ht|Ht].
  { rewrite (onResults_throttled intersectObject randomId gs now results w Ht).
    now repeat split. }
  destruct (noHand results) eqn:Hn.
  { rewrite (onResults_noHand intersectObject randomId gs now results w Ht Hn).
    split; [reflexivity|]. unfold noShot.
    cbn [store vfx timers idCalls sounds state setGameState set_lastDetection].
    destruct (handLost_score (state w)). now repeat split. }
  pose proof (onResultsBody_untracked intersectObject randomId gs now results
                (set_lastDetection now w) Hn Hh) as Hthrow.
  destruct (onResults_throws intersectObject randomId gs now results w Ht Hthrow)
    as (_ & [(_ & ->) | (base & tip & _ & ->)]).
  - split; [reflexivity|]. unfold noShot.
    cbn [store vfx timers idCalls sounds state setGameState set_lastDetection].
    destruct (handSeen_score (state w)). now repeat split.
  - split; [reflexivity|]. apply aimWorld_noShot.
Qed.

(** X10. The throttle window runs from the last result that was processed.
    A result that arrives at least 33 ms after it is processed and becomes
    the new start of the window, whatever it holds; every result that
    arrives less than 33 ms after that one is dropped without any effect,
    so the world after it is the world before it. *)
Theorem throttle_window :
  forall gs gs' now results now' results' w,
    (DETECTION_FREQ_MS <= now - lastDetection w)%Z ->
    (now' - now < DETECTION_FREQ_MS)%Z ->
    let w1 := onResults intersectObject randomId gs now results w in
    lastDetection w1 = now /\
    onResults intersectObject randomId gs' now' results' w1 = w1.
Proof.
  intros gs gs' now results now' results' w Ht Hd. cbv zeta.
  pose proof (onResults_stamp gs now results w Ht) as Hs.
  split; [exact Hs|]. apply onResults_throttled. now rewrite Hs.
Qed.

(** X11. Losing the hand does not release the trigger.  When the edge flag
    is up and a processed result has no complete hand (none at all, or one
    with a landmark missing), the flag stays up and nothing is fired; a
    pinch below the threshold in the next processed result then fires
    nothing either: score, combo, floating texts, timers and recorded
    sounds are those from before the two results. *)
Theorem hand_loss_keeps_trigger :
  forall gs now1 now2 lost again d w,
    isTriggered w = true ->
    (DETECTION_FREQ_MS <= now1 - lastDetection w)%Z ->
    (DETECTION_FREQ_MS <= now2 - now1)%Z ->
    trackedHand lost = None ->
    pinch again = Some d -> d < TRIGGER_THRESHOLD ->
    let w1 := onResults intersectObject randomId gs now1 lost w in
    let w2 := onResults intersectObject randomId gs now2 again w1 in
    isTriggered w1 = true /\ isTriggered w2 = true /\
    shots w2 = shots w /\ noShot w w2 /\
    (noHand lost = true -> handDetected (state w1) = false) /\
    handDetected (state w2) = true.
Proof.
  intros gs now1 now2 lost again d w Hi Ht1 Ht2 Hl Hp Hd. cbv zeta.
  destruct (onResults_untracked gs now1 lost w Hl) as (Hi1 & N1).
  pose proof (onResults_stamp gs now1 lost w Ht1) as Hs1.
  set (w1 := onResults intersectObject randomId gs now1 lost w) in *.
  rewrite Hi in Hi1.
  assert (Ht2' : (DETECTION_FREQ_MS <= now2 - lastDetection w1)%Z) by now rewrite Hs1.
  unfold pinch in Hp.
  destruct (trackedHand again) as [[[thumb base] tip]|] eqn:Hh; [|discriminate].
  injection Hp as Hp.
  assert (E2 : onResults intersectObject randomId gs now2 again w1
               = aimWorld now2 base tip w1).
  { rewrite (onResults_tracked intersectObject randomId gs now2 again
               thumb base tip w1 Ht2' Hh).
    rewrite Hp. destruct (Rlt_dec d TRIGGER_THRESHOLD); [|contradiction].
    now rewrite Hi1. }
  assert (N2 : noShot w (aimWorld now2 base tip w1)).
  { pose proof (aimWorld_noShot now2 base tip w1) as N2.
    unfold noShot in *. intuition congruence. }
  rewrite E2. repeat split; try apply N2.
  - exact Hi1.
  - exact Hi1.
  - unfold shots. now destruct N2 as (_ & _ & _ & _ & -> & _).
  - intros Hn. unfold w1.
    rewrite (onResults_noHand intersectObject randomId gs now1 lost w Ht1 Hn).
    cbn [state setGameState set_lastDetection]. unfold handLost.
    destruct (handDetected (state w)) eqn:E; cbn [negb handDetected]; [reflexivity|exact E].
  - unfold aimWorld. cbn [state]. apply handSeen_spec.
Qed.

End Detection.

Lemma throttle_window_witness :
  onResults hitsNone ids initialGameState 1010 (pinchAt 0.03)
    (onResults hitsNone ids initialGameState 1000 (pinchAt 0.08) comboFive)
  = onResults hitsNone ids initialGameState 1000 (pinchAt 0.08) comboFive.
Proof.
  apply (throttle_window hitsNone ids initialGameState initialGameState
           1000 (pinchAt 0.08) 1010 (pinchAt 0.03) comboFive).
  - cbv [comboFive lastDetection DETECTION_FREQ_MS]. lia.
  - unfold DETECTION_FREQ_MS. lia.
Defined.

Lemma hand_loss_keeps_trigger_witness :
  shots (onResults hitsNone ids initialGameState 1033 (pinchAt 0.03)
           (onResults hitsNone ids initialGameState 1000 (mkResults None) lineUp))
  = shots lineUp.
Proof.
  apply (hand_loss_keeps_trigger hitsNone ids initialGameState
           1000 1033 (mkResults None) (pinchAt 0.03) 0.03 lineUp).
  - reflexivity.
  - cbv [lineUp lastDetection DETECTION_FREQ_MS]. lia.
  - unfold DETECTION_FREQ_MS. lia.
  - reflexivity.
  - apply triggerDistance_pinchAt. lra.
  - unfold TRIGGER_THRESHOLD. lra.
Defined.

(** ** Aim assist keeps the aim a direction *)

Lemma lengthSq_normalize (a : Vector3) :
  V3.lengthSq (V3.normalize a) = 0 \/ V3.lengthSq (V3.normalize a) = 1.
Proof.
  destruct (Req_dec_T (V3.length a) 0) as [E|Hne].
  - left. unfold V3.normalize, V3.or_one. destruct (Req_dec_T _ _); [|contradiction].
    unfold V3.divideScalar.
    replace (V3.lengthSq (V3.multiplyScalar a (1 / 1))) with (V3.lengthSq a)
      by (unfold V3.lengthSq, V3.dot, V3.multiplyScalar; cbn [vx vy vz]; field).
    rewrite <- length_sqr, E. ring.
  - right. rewrite <- length_sqr, (normalize_unit a Hne). ring.
Qed.

Lemma assistStep_safe gunOrigin acc enemy :
  0 < V3.lengthSq (fst acc) <= 1 ->
  0 < V3.lengthSq (fst (assistStep gunOrigin acc enemy)) <= 1.
Proof.
  intros Ha. unfold assistStep. destruct (isDying enemy); [assumption|]. cbv zeta.
  destruct (Rlt_dec _ _) as [Hlt|]; [|assumption]. cbn [fst].
  apply angleTo_acute in Hlt as [Hdot Hpos].
  set (t := V3.normalize (V3.sub (position (mesh enemy)) gunOrigin)) in *.
  rewrite lengthSq_lerp.
  pose proof (cauchy_schwarz (fst acc) t) as Hcs.
  destruct (lengthSq_normalize (V3.sub (position (mesh enemy)) gunOrigin)) as [E|E];
    fold t in E; rewrite E in *; [lra|].
  assert (Hd1 : V3.dot (fst acc) t <= 1) by nra.
  lra.
Qed.

Lemma aimAssist_safe gunOrigin es : forall acc,
  0 < V3.lengthSq (fst acc) <= 1 ->
  0 < V3.lengthSq (fst (fold_left (assistStep gunOrigin) es acc)) <= 1.
Proof.
  induction es as [|e es IH]; intros acc Ha; [assumption|].
  cbn [fold_left]. apply IH. now apply assistStep_safe.
Qed.

Lemma aimAssist_untouched gunOrigin es : forall acc,
  snd (fold_left (assistStep gunOrigin) es acc) = false ->
  snd acc = false /\ fst (fold_left (assistStep gunOrigin) es acc) = fst acc.
Proof.
  induction es as [|e es IH]; intros acc H; [now split|].
  cbn [fold_left] in *. destruct (IH _ H) as [Hs Hf]. rewrite Hf.
  revert Hs. unfold assistStep. destruct (isDying e); [now split|]. cbv zeta.
  destruct (Rlt_dec _ _); [discriminate | now split].
Qed.

Lemma aimDirection_unit tip base : V3.lengthSq (aimDirection tip base) = 1.
Proof.
  rewrite <- length_sqr. unfold aimDirection. rewrite normalize_unit; [ring|].
  pose proof (aimVector_length_ge tip base). lra.
Qed.

Lemma assisted_aim_length base tip w :
  0 < V3.length (fst (assisted base tip w)) <= 1.
Proof.
  unfold assisted, aimAssist.
  pose proof (aimAssist_safe (gunOrigin base) (enemyObjects w) (aimDirection tip base, false))
    as Hs.
  cbn [fst] in Hs. rewrite aimDirection_unit in Hs. specialize (Hs ltac:(lra)).
  unfold V3.length. split.
  - apply sqrt_lt_R0. lra.
  - rewrite <- sqrt_1. apply sqrt_le_1_alt. lra.
Qed.

(** X12. Whatever the hand and the targets are, aim assist leaves an aim
    vector that is not zero and not longer than 1, so the direction handed
    to the shot, its normalisation, is a unit vector and the fallback of
    [normalize] for a zero vector is never taken.  When the crosshair does
    not report a target, the aim is exactly the raw aim direction. *)
Theorem assisted_aim_is_direction :
  forall (base tip : Point) (w : World),
    0 < V3.length (fst (assisted base tip w)) <= 1 /\
    V3.length (shotDirection base tip w) = 1 /\
    (snd (assisted base tip w) = false ->
     fst (assisted base tip w) = aimDirection tip base /\
     shotDirection base tip w = aimDirection tip base).
Proof.
  intros base tip w. unfold shotDirection, assisted, aimAssist.
  pose proof (aimAssist_safe (gunOrigin base) (enemyObjects w) (aimDirection tip base, false))
    as Hs.
  cbn [fst] in Hs. rewrite aimDirection_unit in Hs. specialize (Hs ltac:(lra)).
  set (d := fst (fold_left (assistStep (gunOrigin base)) (enemyObjects w)
                   (aimDirection tip base, false))) in *.
  assert (Hlen : 0 < V3.length d <= 1).
  { unfold V3.length. split.
    - apply sqrt_lt_R0. lra.
    - rewrite <- sqrt_1. apply sqrt_le_1_alt. lra. }
  assert (Hunit : V3.length (V3.normalize (V3.multiplyScalar d 20)) = 1).
  { apply normalize_unit. rewrite length_multiplyScalar by lra. lra. }
  repeat split; try lra.
  - apply (aimAssist_untouched (gunOrigin base) (enemyObjects w)
             (aimDirection tip base, false)). assumption.
  - destruct (aimAssist_untouched (gunOrigin base) (enemyObjects w)
                (aimDirection tip base, false)) as [_ Hf]; [assumption|].
    fold d in Hf. cbn [fst] in Hf. rewrite Hf.
    pose proof (aimDirection_unit tip base) as Hu.
    assert (Hl : V3.length (V3.multiplyScalar (aimDirection tip base) 20) = 20).
    { rewrite length_multiplyScalar by lra. unfold V3.length. rewrite Hu, sqrt_1. lra. }
    unfold V3.normalize at 1. rewrite Hl. unfold V3.or_one.
    destruct (Req_dec_T 20 0); [lra|].
    unfold V3.divideScalar, V3.multiplyScalar. cbn [vx vy vz].
    destruct (aimDirection tip base) as [x y z]. cbn [vx vy vz]. f_equal; field.
Qed.

(** ** What a shot leaves alone *)

(** X13. A shot, hit or miss, never adds, removes, reorders or moves a
    target and never revives a dying one: the array of targets is the same,
    every enemy object keeps its id, points, type, velocity, spawn time,
    position and rotation, at most one object changes at all, and no random
    number is drawn.  The shot always shows exactly one new floating text,
    of life 1 and with the id just drawn, and leaves the edge flag, the
    time of the last detection and the crosshair as they are. *)
Theorem shot_touches_one_target :
  forall (intersectObject : Raycaster -> Mesh -> list Intersection)
         (randomId : nat -> string) gs now direction origin w,
    let w' := handleShoot intersectObject randomId gs now direction origin w in
    enemies w' = enemies w /\ List.length (store w') = List.length (store w) /\
    randomCalls w' = randomCalls w /\ idCalls w' = S (idCalls w) /\
    isTriggered w' = isTriggered w /\ lastDetection w' = lastDetection w /\
    crosshair w' = crosshair w /\
    (exists v, vfx w' = vfx w ++ [v] /\ life v = 1.0 /\
               ft_id v = randomId (idCalls w)) /\
    (forall r e, store w !! r = Some e ->
       exists e', store w' !! r = Some e' /\
         id e' = id e /\ points e' = points e /\ type e' = type e /\
         velocity e' = velocity e /\ spawnTime e' = spawnTime e /\
         position (mesh e') = position (mesh e) /\
         rotation (mesh e') = rotation (mesh e) /\
         (isDying e = true -> isDying e' = true)) /\
    (exists r0, forall r, r <> r0 -> store w' !! r = store w !! r).
Proof.
  intros intersectObject randomId gs now direction origin w. cbv zeta.
  destruct (handleShoot_cases intersectObject randomId gs now direction origin w)
    as [->|(i & r0 & e0 & _ & He0 & ->)].
  - unfold missWorld.
    cbn [enemies store randomCalls idCalls isTriggered lastDetection crosshair vfx].
    repeat split.
    + eexists. split; [reflexivity|]. now split.
    + intros r e He. exists e. now repeat split.
    + now exists 0%nat.
  - unfold hitWorld.
    cbn [enemies store randomCalls idCalls isTriggered lastDetection crosshair vfx].
    repeat split.
    + now rewrite !length_alter.
    + eexists. split; [reflexivity|]. now split.
    + intros r e He. destruct (Nat.eq_dec r r0) as [->|Hne].
      * exists (flare (setDying e)).
        rewrite !list_lookup_alter_eq, He. cbn [fmap option_fmap option_map].
        split; [reflexivity|]. now repeat split.
      * exists e. rewrite !list_lookup_alter_ne by congruence. now repeat split.
    + exists r0. intros r Hne. now rewrite !list_lookup_alter_ne by congruence.
Qed.

(** ** Dying targets and their removal timers *)

Section Dying.

Variable intersectObject : Raycaster -> Mesh -> list Intersection.
Variable random : nat -> R.
Variable randomId : nat -> string.

Lemma noNewDying_refl w : noNewDying w w.
Proof. intros r e Hr He Hd. split; [assumption|]. now exists e. Qed.

Lemma noNewDying_trans w1 w2 w3 :
  noNewDying w1 w2 -> noNewDying w2 w3 -> noNewDying w1 w3.
Proof.
  intros H12 H23 r e Hr He Hd.
  destruct (H23 r e Hr He Hd) as (Hr2 & e2 & He2 & Hd2).
  exact (H12 r e2 Hr2 He2 Hd2).
Qed.

Lemma removeAndRespawn_noNewDying now r0 w :
  noNewDying w (removeAndRespawn random randomId now r0 w).
Proof.
  destruct (store w !! r0) as [e0|] eqn:He0.
  - destruct (removeAndRespawn_fields random randomId now r0 w e0 He0) as [Hen _].
    unfold removeAndRespawn in *. rewrite He0 in *.
    destruct (spawnEnemy_store random randomId now
                (set_enemies
                   (List.filter (fun r' => match store w !! r' with
                                           | Some e => negb (String.eqb (id e) (id e0))
                                           | None => true
                                           end) (enemies w)) w))
      as (new & Hst & _ & Hnew).
    cbn [store set_enemies] in Hst.
    intros r e' Hr He' Hd. rewrite Hst in He'. rewrite Hen in Hr.
    destruct (Nat.lt_ge_cases r (List.length (store w))) as [Hlt|Hge].
    + rewrite lookup_app_l in He' by assumption.
      apply List.in_app_iff in Hr as [Hr|[Hr|[]]]; [|lia].
      apply List.filter_In in Hr as [Hr _]. split; [assumption|]. now exists e'.
    + exfalso. rewrite lookup_app_r in He' by assumption.
      destruct (r - List.length (store w))%nat as [|n];
        cbn [lookup list_lookup] in He'; [|destruct n; discriminate].
      injection He' as <-. rewrite Hnew in Hd. cbn [isDying] in Hd. discriminate.
  - unfold removeAndRespawn. rewrite He0. apply noNewDying_refl.
Qed.

Lemma animateEnemy_noNewDying now w r0 :
  noNewDying w (animateEnemy random randomId now w r0).
Proof.
  destruct (store w !! r0) as [e0|] eqn:He0.
  - rewrite (animateEnemy_cases random randomId now w r0 e0 He0). cbv zeta.
    assert (H1 : noNewDying w (if isDying e0 then w else updateEnemy r0 (advance now) w)).
    { destruct (isDying e0) eqn:Hd0; [apply noNewDying_refl|].
      intros r e' Hr He' Hd. unfold updateEnemy in *. cbn [enemies store set_store] in *.
      split; [assumption|]. destruct (Nat.eq_dec r r0) as [->|Hne].
      - rewrite list_lookup_alter_eq, He0 in He'. injection He' as <-.
        unfold advance in Hd. cbn [isDying] in Hd. congruence.
      - rewrite list_lookup_alter_ne in He' by congruence. now exists e'. }
    destruct (outOfBounds _); [|exact H1].
    eapply noNewDying_trans; [exact H1|]. apply removeAndRespawn_noNewDying.
  - unfold animateEnemy. rewrite He0. apply noNewDying_refl.
Qed.

Lemma animate_noNewDying now w : noNewDying w (animate random randomId now w).
Proof.
  assert (H : forall l w, noNewDying w (fold_left (animateEnemy random randomId now) l w)).
  { induction l as [|r l IH]; intros w0; cbn [fold_left]; [apply noNewDying_refl|].
    eapply noNewDying_trans; [apply animateEnemy_noNewDying | apply IH]. }
  intros r e' Hr He' Hd. unfold animate in Hr, He'. cbn [enemies store set_vfx] in Hr, He'.
  exact (H (enemies w) w r e' Hr He' Hd).
Qed.

Lemma In_delete_other {A : Type} (l : list A) (k : nat) (t t' : A) :
  l !! k = Some t -> In t' l -> t' <> t -> In t' (delete k l).
Proof.
  revert k. induction l as [|a l IH]; intros k Hk Hin Hne; [destruct Hin|].
  destruct k as [|k]; cbn in Hk |- *.
  - injection Hk as ->. destruct Hin as [->|Hin]; [contradiction | assumption].
  - destruct Hin as [->|Hin]; [now left | right; now apply (IH k)].
Qed.

(** The invariant is kept by every callback. *)
Lemma step_removalPending clock ev w w' :
  (forall r e, In r (enemies w) -> store w !! r = Some e -> isDying e = true ->
               removalPending w r) ->
  step intersectObject random randomId clock ev w = Some w' ->
  forall r e, In r (enemies w') -> store w' !! r = Some e -> isDying e = true ->
              removalPending w' r.
Proof.
  intros Inv Hs.
  destruct (step_cases intersectObject random randomId clock ev w w' Hs)
    as [(now & results & ->)|[(now & ->)|(now & k & t & Ht & ->)]].
  - destruct (onResults_effect intersectObject randomId initialGameState now results w)
      as (Hen & _ & [N|(_ & _ & [(pos & M)|(i & r0 & e0 & _ & He0 & Hst & _ & Htm & _)])]).
    + destruct N as (Hst & _ & Htm & _). intros r e Hr He Hd.
      rewrite Hen in Hr. rewrite Hst in He.
      destruct (Inv r e Hr He Hd) as (t & Hin & Ha). exists t. now rewrite Htm.
    + destruct M as (Hst & _ & Htm & _). intros r e Hr He Hd.
      rewrite Hen in Hr. rewrite Hst in He.
      destruct (Inv r e Hr He Hd) as (t & Hin & Ha). exists t. rewrite Htm.
      split; [|assumption]. apply List.in_app_iff. now left.
    + intros r e Hr He Hd. rewrite Hen in Hr. rewrite Hst in He.
      unfold removalPending. rewrite Htm.
      destruct (Nat.eq_dec r r0) as [->|Hne].
      * exists (mkTimer (now + 100) (RemoveEnemy r0)). split; [|reflexivity].
        apply List.in_app_iff. right. cbn [In]. tauto.
      * rewrite !list_lookup_alter_ne in He by congruence.
        destruct (Inv r e Hr He Hd) as (t & Hin & Ha). exists t.
        split; [|assumption]. apply List.in_app_iff. now left.
  - intros r e Hr He Hd.
    destruct (animate_noNewDying now w r e Hr He Hd) as (Hr0 & e0 & He0 & Hd0).
    destruct (Inv r e0 Hr0 He0 Hd0) as (t & Hin & Ha). exists t.
    destruct (animate_state random randomId now w) as (_ & -> & _). now split.
  - set (w0 := set_timers (delete k (timers w)) w) in *.
    assert (Hkeep : forall r e, In r (enemies w) -> store w !! r = Some e ->
                                isDying e = true -> action t <> RemoveEnemy r ->
                                removalPending w0 r).
    { intros r e Hr He Hd Hne. destruct (Inv r e Hr He Hd) as (t' & Hin & Ha).
      exists t'. split; [|assumption]. unfold w0. cbn [timers set_timers].
      apply (In_delete_other _ k t t' Ht Hin). intros ->. congruence. }
    destruct (action t) as [| |r0] eqn:Hact; cbn [runTimer].
    + intros r e Hr He Hd. destruct (Hkeep r e Hr He Hd ltac:(discriminate)) as (t' & Hin & Ha).
      now exists t'.
    + intros r e Hr He Hd. destruct (Hkeep r e Hr He Hd ltac:(discriminate)) as (t' & Hin & Ha).
      now exists t'.
    + intros r e Hr He Hd.
      destruct (removeAndRespawn_noNewDying now r0 w0 r e Hr He Hd) as (Hr' & e' & He' & Hd').
      assert (Hne : r <> r0).
      { intros ->. revert Hr. apply (removeAndRespawn_removes random randomId now r0 w0 e').
        exact He'. }
      destruct (Hkeep r e' Hr' He' Hd' ltac:(congruence)) as (t' & Hin & Ha).
      exists t'. split; [|assumption].
      destruct (removeAndRespawn_besides random randomId now r0 w0) as (_ & _ & -> & _).
      exact Hin.
Qed.

(** X14. In every state the mounted component can reach, each dying target
    that is still in the array has a removal timer pending: no target stays
    hit but unremovable.  Targets become dying only through a shot: after a
    frame or a timer callback, every dying target of the array was a dying
    target of the array before it. *)
Theorem dying_target_has_removal_timer :
  forall w,
    reachable intersectObject random randomId w ->
    (forall r e,
        In r (enemies w) -> store w !! r = Some e -> isDying e = true ->
        exists t, In t (timers w) /\ action t = RemoveEnemy r) /\
    (forall clock ev w' r e',
        step intersectObject random randomId clock ev w = Some w' ->
        (forall now results, ev <> Detect now results) ->
        In r (enemies w') -> store w' !! r = Some e' -> isDying e' = true ->
        In r (enemies w) /\ exists e, store w !! r = Some e /\ isDying e = true).
Proof.
  intros w Hw. split.
  - revert w Hw.
    apply (reachable_inv intersectObject random randomId
             (fun w => forall r e, In r (enemies w) -> store w !! r = Some e ->
                                   isDying e = true -> removalPending w r)).
    + intros t0 r e Hr He Hd. exfalso.
      assert (H : Forall (fun e => isDying e = false) (store (initThree random randomId t0))).
      { unfold initThree, ENEMY_COUNT. cbn [Nat.iter nat_rect].
        repeat (match goal with
                | |- Forall _ (store (spawnEnemy _ _ ?now ?w)) =>
                    destruct (spawnEnemy_store random randomId now w) as (? & -> & _ & ->);
                    apply Forall_app; split; [|constructor; [reflexivity|constructor]]
                end).
        constructor. }
      rewrite Forall_lookup in H. specialize (H r e He). cbv beta in H.
      rewrite H in Hd. discriminate.
    + intros clock ev w0 w' Inv Hs. now apply (step_removalPending clock ev w0 w').
  - clear Hw. intros clock ev w' r e'. unfold step.
    destruct (eventTime ev <? clock)%Z; [discriminate|].
    destruct ev as [now results|now|now k].
    + intros _ Hev. now contradiction (Hev now results).
    + intros [= <-] _. apply animate_noNewDying.
    + destruct (timers w !! k) as [t|]; [|discriminate].
      destruct (now <? due t)%Z; [discriminate|]. intros [= <-] _.
      destruct (action t) as [| |r0]; cbn [runTimer].
      * intros Hr He Hd. split; [exact Hr|]. now exists e'.
      * intros Hr He Hd. split; [exact Hr|]. now exists e'.
      * apply (removeAndRespawn_noNewDying now r0 (set_timers (delete k (timers w)) w)).
Qed.

End Dying.

(** ** The first shot of a session, a hit *)

Lemma initThree_store random randomId now :
  exists e0 e1 e2 e3,
    store (initThree random randomId now) = [e0; e1; e2; e3] /\
    enemies (initThree random randomId now) = [0; 1; 2; 3]%nat.
Proof.
  unfold initThree, ENEMY_COUNT. cbn [Nat.iter nat_rect].
  set (w1 := spawnEnemy random randomId now emptyWorld).
  set (w2 := spawnEnemy random randomId now w1).
  set (w3 := spawnEnemy random randomId now w2).
  destruct (spawnEnemy_store random randomId now emptyWorld) as (e0 & S1 & E1 & _).
  destruct (spawnEnemy_store random randomId now w1) as (e1 & S2 & E2 & _).
  destruct (spawnEnemy_store random randomId now w2) as (e2 & S3 & E3 & _).
  destruct (spawnEnemy_store random randomId now w3) as (e3 & S4 & E4 & _).
  fold w1 in S1, E1, S2, E2. fold w2 in S2, E2, S3, E3. fold w3 in S3, E3, S4, E4.
  change (store emptyWorld) with (@nil Enemy) in *.
  change (enemies emptyWorld) with (@nil nat) in *.
  exists e0, e1, e2, e3.
  rewrite S4, E4, S3, E3, S2, E2, S1, E1. split; reflexivity.
Qed.

Lemma firstHit_reachable randomId : reachable hitsAll draws randomId (firstHit randomId).
Proof.
  exists 0%Z, [Detect 1000 (pinchAt 0.03)].
  erewrite run_cons; [|apply step_Detect; lia]. unfold firstHit. reflexivity.
Qed.

Lemma armed_enemies now base tip w :
  enemies (set_isTriggered true (aimWorld now base tip w)) = enemies w /\
  store (set_isTriggered true (aimWorld now base tip w)) = store w /\
  timers (set_isTriggered true (aimWorld now base tip w)) = timers w.
Proof. repeat split; reflexivity. Qed.

Lemma firstHit_eq randomId :
  exists e0 base tip,
    store (initThree draws randomId 0) !! 0%nat = Some e0 /\
    firstHit randomId
    = hitWorld randomId initialGameState 1000 0 e0
        (set_isTriggered true (aimWorld 1000 base tip (initThree draws randomId 0))).
Proof.
  destruct (initThree_store draws randomId 0) as (e0 & e1 & e2 & e3 & Hst & Hen).
  destruct (onResults_fire hitsAll randomId initialGameState 1000 (pinchAt 0.03) 0.03
              (initThree draws randomId 0)) as (thumb & base & tip & _ & H).
  - change (lastDetection (initThree draws randomId 0)) with 0%Z.
    unfold DETECTION_FREQ_MS. lia.
  - apply triggerDistance_pinchAt. lra.
  - unfold TRIGGER_THRESHOLD. lra.
  - reflexivity.
  - exists e0, base, tip. split; [now rewrite Hst|].
    unfold firstHit, registeredOnResults. rewrite H.
    destruct (armed_enemies 1000 base tip (initThree draws randomId 0)) as (Aen & Ast & _).
    rewrite Hen in Aen. rewrite Hst in Ast.
    set (w0 := set_isTriggered true (aimWorld 1000 base tip (initThree draws randomId 0))) in *.
    assert (Hf : findIndex (hitTest hitsAll
                              (mkRaycaster (gunOrigin base)
                                 (shotDirection base tip (initThree draws randomId 0))) w0)
                   (enemies w0) = Some 0%nat).
    { rewrite Aen. cbn [findIndex]. unfold hitTest at 1. rewrite Ast. reflexivity. }
    destruct (handleShoot_hit hitsAll randomId initialGameState 1000 _ _ w0 0 Hf)
      as (r & e & Hr & He & _ & ->).
    rewrite Aen in Hr. injection Hr as <-.
    rewrite Ast in He. injection He as <-. reflexivity.
Qed.

Lemma hitWorld_fields randomId gs now r e w :
  enemies (hitWorld randomId gs now r e w) = enemies w /\
  store (hitWorld randomId gs now r e w) = alter flare r (alter setDying r (store w)) /\
  timers (hitWorld randomId gs now r e w)
  = timers w ++ [mkTimer (now + 50) LaserReset; mkTimer (now + 150) FlashReset;
                 mkTimer (now + 100) (RemoveEnemy r)].
Proof. repeat split; reflexivity. Qed.

(** After the first hit the target behind reference 0 is dying, still in
    the array, and its removal timer is the third of the pending timers. *)
Lemma firstHit_target randomId :
  exists e0,
    In 0%nat (enemies (firstHit randomId)) /\
    store (firstHit randomId) !! 0%nat = Some (flare (setDying e0)) /\
    timers (firstHit randomId) !! 2%nat = Some (mkTimer 1100 (RemoveEnemy 0)).
Proof.
  destruct (firstHit_eq randomId) as (e0 & base & tip & He0 & Heq).
  destruct (initThree_store draws randomId 0) as (e0' & e1 & e2 & e3 & _ & Hen).
  destruct (armed_enemies 1000 base tip (initThree draws randomId 0)) as (Aen & Ast & Atm).
  exists e0. rewrite Heq.
  destruct (hitWorld_fields randomId initialGameState 1000 0 e0
              (set_isTriggered true (aimWorld 1000 base tip (initThree draws randomId 0))))
    as (-> & -> & ->).
  rewrite Aen, Hen, Ast, Atm, !list_lookup_alter_eq, He0.
  change (timers (initThree draws randomId 0)) with (@nil Timer).
  repeat split. now left.
Qed.

Lemma dying_target_has_removal_timer_witness :
  exists t, In t (timers (firstHit ids)) /\ action t = RemoveEnemy 0.
Proof.
  destruct (firstHit_target ids) as (e0 & Hin & He & _).
  exact (proj1 (dying_target_has_removal_timer hitsAll draws ids (firstHit ids)
                  (firstHit_reachable ids))
           0%nat (flare (setDying e0)) Hin He eq_refl).
Defined.

Lemma initThree_first_points random randomId now :
  exists e0,
    store (initThree random randomId now) !! 0%nat = Some e0 /\
    points e0 = cfg_points (chooseConfig (random 0%nat)).
Proof.
  unfold initThree, ENEMY_COUNT. cbn [Nat.iter nat_rect].
  set (w1 := spawnEnemy random randomId now emptyWorld).
  set (w2 := spawnEnemy random randomId now w1).
  set (w3 := spawnEnemy random randomId now w2).
  destruct (spawnEnemy_store random randomId now emptyWorld) as (e0 & S1 & _ & E0).
  destruct (spawnEnemy_store random randomId now w1) as (e1 & S2 & _ & _).
  destruct (spawnEnemy_store random randomId now w2) as (e2 & S3 & _ & _).
  destruct (spawnEnemy_store random randomId now w3) as (e3 & S4 & _ & _).
  fold w1 in S1, S2. fold w2 in S2, S3. fold w3 in S3, S4.
  change (store emptyWorld) with (@nil Enemy) in S1.
  exists e0. rewrite S4, S3, S2, S1. split; [reflexivity|].
  rewrite E0. reflexivity.
Qed.

Lemma hitWorld_score randomId gs now r e w :
  score (state (hitWorld randomId gs now r e w))
  = (score (state w) + (points e + combo gs / 5 * 50))%Z /\
  combo (state (hitWorld randomId gs now r e w)) = (combo (state w) + 1)%Z.
Proof. split; reflexivity. Qed.

Lemma armed_score now base tip w :
  score (state (set_isTriggered true (aimWorld now base tip w))) = score (state w) /\
  combo (state (set_isTriggered true (aimWorld now base tip w))) = combo (state w).
Proof.
  unfold aimWorld. cbn [state set_isTriggered]. apply handSeen_score.
Qed.

(** The first hit, on a target of 100 points, brings score 100 and combo 1. *)
Lemma firstHit_score randomId :
  score (state (firstHit randomId)) = 100%Z /\ combo (state (firstHit randomId)) = 1%Z.
Proof.
  destruct (firstHit_eq randomId) as (e0 & base & tip & He0 & ->).
  destruct (initThree_first_points draws randomId 0) as (e0' & He0' & Hp).
  rewrite He0' in He0. injection He0 as ->.
  destruct (hitWorld_score randomId initialGameState 1000 0 e0
              (set_isTriggered true (aimWorld 1000 base tip (initThree draws randomId 0))))
    as [-> ->].
  destruct (armed_score 1000 base tip (initThree draws randomId 0)) as [-> ->].
  change (state (initThree draws randomId 0)) with initialGameState.
  rewrite Hp. unfold draws. rewrite chooseConfig_normal by lra.
  split; reflexivity.
Qed.

Lemma firstHit_step randomId :
  step hitsAll draws randomId 0 (Detect 1000 (pinchAt 0.03)) (initThree draws randomId 0)
  = Some (firstHit randomId).
Proof. rewrite step_Detect by lia. unfold firstHit. reflexivity. Qed.

Lemma score_covers_combo_witness :
  score (state (firstHit ids)) = 100%Z /\ combo (state (firstHit ids)) = 1%Z /\
  (100 * combo (state (firstHit ids)) <= score (state (firstHit ids)))%Z /\
  (exists k, score (state (firstHit ids)) = 50 * k)%Z.
Proof.
  destruct (firstHit_score ids) as [Hs Hc].
  destruct (score_covers_combo hitsAll draws ids (firstHit ids) (firstHit_reachable ids))
    as (_ & H1 & H2).
  repeat split; assumption.
Defined.

Lemma score_never_decreases_witness :
  score (state (initThree draws ids 0)) = 0%Z /\
  score (state (firstHit ids)) = 100%Z /\
  (score (state (initThree draws ids 0)) <= score (state (firstHit ids)))%Z /\
  combo (state (firstHit ids)) = (combo (state (initThree draws ids 0)) + 1)%Z.
Proof.
  destruct (firstHit_score ids) as [Hs Hc].
  assert (H0 : score (state (initThree draws ids 0)) = 0%Z) by reflexivity.
  destruct (score_never_decreases hitsAll draws ids 0 (Detect 1000 (pinchAt 0.03))
              (initThree draws ids 0) (firstHit ids)) as (H1 & H2 & _).
  - exists 0%Z, []. reflexivity.
  - apply firstHit_step.
  - split; [exact H0|]. split; [exact Hs|]. split; [exact H1|].
    apply H2. rewrite Hs, H0. discriminate.
Defined.

(** ** Ids *)

Lemma unaryId_length k : String.length (unaryId k) = k.
Proof.
  unfold unaryId. induction k as [|k IH]; [reflexivity|].
  cbn [Nat.iter nat_rect String.append String.length]. now f_equal.
Qed.

Lemma unaryId_inj j k : unaryId j = unaryId k -> j = k.
Proof. intros H. apply (f_equal String.length) in H. now rewrite !unaryId_length in H. Qed.

Lemma map_alter_same {A B : Type} (key : A -> B) (f : A -> A) (r : nat) (l : list A) :
  (forall x, key (f x) = key x) -> map key (alter f r l) = map key l.
Proof.
  intros Hf. revert r. induction l as [|a l IH]; intros r; [reflexivity|].
  destruct r as [|r]; cbn [alter list_alter map]; [now rewrite Hf|]. f_equal. apply IH.
Qed.

Lemma Forall_alter_same {A : Type} (P : A -> Prop) (f : A -> A) (r : nat) (l : list A) :
  (forall x, P x -> P (f x)) -> Forall P l -> Forall P (alter f r l).
Proof. intros Hf H. apply Forall_alter; [assumption|]. intros x _. apply Hf. Qed.

Section Ids.

Variable randomId : nat -> string.
Hypothesis randomId_inj : forall j k, randomId j = randomId k -> j = k.

Lemma drawnIds_mono {A : Type} (key : A -> string) n m (l : list A) :
  (n <= m)%nat -> drawnIds randomId key n l -> drawnIds randomId key m l.
Proof.
  intros Hle [H1 H2]. split; [|assumption].
  eapply Forall_impl; [exact H1|]. cbv beta. intros x (k & Hk & E). exists k. split; [lia|assumption].
Qed.

Lemma drawnIds_snoc {A : Type} (key : A -> string) n (l : list A) (x : A) :
  drawnIds randomId key n l -> key x = randomId n ->
  drawnIds randomId key (S n) (l ++ [x]).
Proof.
  intros [H1 H2] Hx. split.
  - apply Forall_app. split.
    + eapply Forall_impl; [exact H1|]. cbv beta. intros y (k & Hk & E). exists k. split; [lia|assumption].
    + constructor; [|constructor]. exists n. split; [lia|assumption].
  - rewrite map_app. cbn [map]. apply NoDup_app. repeat split.
    + assumption.
    + intros s Hs Hs'. apply list_elem_of_singleton in Hs'. subst s.
      apply list_elem_of_In, List.in_map_iff in Hs as (y & Ey & Hy).
      rewrite Forall_forall in H1. apply list_elem_of_In in Hy.
      destruct (H1 y Hy) as (k & Hk & E).
      rewrite Hx, E in Ey. apply randomId_inj in Ey. lia.
    + apply NoDup_singleton.
Qed.

Lemma drawnIds_alter n (f : Enemy -> Enemy) r (l : list Enemy) :
  (forall e, id (f e) = id e) ->
  drawnIds randomId id n l -> drawnIds randomId id n (alter f r l).
Proof.
  intros Hf [H1 H2]. split.
  - apply Forall_alter_same; [|assumption]. intros x. now rewrite Hf.
  - now rewrite map_alter_same.
Qed.

Lemma ageVfx_ids l s :
  In s (map ft_id (ageVfx l)) -> In s (map ft_id l).
Proof.
  rewrite !List.in_map_iff. intros (v' & <- & Hv').
  apply ageVfx_In in Hv' as (v & Hv & -> & _). now exists v.
Qed.

Lemma drawnIds_ageVfx n l :
  drawnIds randomId ft_id n l -> drawnIds randomId ft_id n (ageVfx l).
Proof.
  intros [H1 H2]. split.
  - apply List.Forall_forall. intros v' Hv'.
    apply ageVfx_In in Hv' as (v & Hv & -> & _).
    rewrite List.Forall_forall in H1. exact (H1 v Hv).
  - clear H1. induction l as [|v l IH]; [constructor|].
    cbn [map] in H2. apply NoDup_cons in H2 as [Hv H2].
    unfold ageVfx in *. cbn [map List.filter].
    destruct (alive (tickVfx v)); [|now apply IH].
    cbn [map]. apply NoDup_cons. split; [|now apply IH].
    intros Hin. apply Hv. apply list_elem_of_In. apply list_elem_of_In in Hin.
    exact (ageVfx_ids l _ Hin).
Qed.

End Ids.

Section IdInvariant.

Variable intersectObject : Raycaster -> Mesh -> list Intersection.
Variable random : nat -> R.
Variable randomId : nat -> string.
Hypothesis randomId_inj : forall j k, randomId j = randomId k -> j = k.

Lemma spawnEnemy_ids now w :
  exists e, store (spawnEnemy random randomId now w) = store w ++ [e] /\
            id e = randomId (idCalls w) /\ isDying e = false /\
            idCalls (spawnEnemy random randomId now w) = S (idCalls w) /\
            vfx (spawnEnemy random randomId now w) = vfx w.
Proof. eexists. repeat split. Qed.

Lemma spawnEnemy_idsDrawn now w :
  idsDrawn randomId w -> idsDrawn randomId (spawnEnemy random randomId now w).
Proof.
  intros [HE HT]. destruct (spawnEnemy_ids now w) as (e & Hs & Hi & _ & Hc & Hv).
  unfold idsDrawn. rewrite Hs, Hc, Hv. split.
  - now apply drawnIds_snoc.
  - apply (drawnIds_mono randomId ft_id (idCalls w)); [lia|assumption].
Qed.

Lemma removeAndRespawn_idsDrawn now r w :
  idsDrawn randomId w -> idsDrawn randomId (removeAndRespawn random randomId now r w).
Proof.
  intros H. unfold removeAndRespawn. destruct (store w !! r); [|assumption].
  now apply spawnEnemy_idsDrawn.
Qed.

Lemma advance_id now e : id (advance now e) = id e.
Proof. reflexivity. Qed.

Lemma animateEnemy_idsDrawn now w r :
  idsDrawn randomId w -> idsDrawn randomId (animateEnemy random randomId now w r).
Proof.
  intros H. destruct (store w !! r) as [e|] eqn:He.
  - rewrite (animateEnemy_cases random randomId now w r e He). cbv zeta.
    assert (H1 : idsDrawn randomId (if isDying e then w else updateEnemy r (advance now) w)).
    { destruct (isDying e); [assumption|]. destruct H as [HE HT]. split; [|assumption].
      unfold updateEnemy. cbn [store set_store idCalls].
      apply drawnIds_alter; [apply advance_id | assumption]. }
    destruct (outOfBounds _); [|exact H1]. now apply removeAndRespawn_idsDrawn.
  - unfold animateEnemy. now rewrite He.
Qed.

Lemma animate_idsDrawn now w :
  idsDrawn randomId w -> idsDrawn randomId (animate random randomId now w).
Proof.
  intros H.
  assert (Hf : forall l w, idsDrawn randomId w ->
                 idsDrawn randomId (fold_left (animateEnemy random randomId now) l w)).
  { induction l as [|r l IH]; intros w0 H0; [assumption|].
    cbn [fold_left]. apply IH. now apply animateEnemy_idsDrawn. }
  specialize (Hf (enemies w) w H). destruct Hf as [HE HT].
  unfold animate, idsDrawn. cbn [store vfx idCalls set_vfx]. split; [assumption|].
  now apply drawnIds_ageVfx.
Qed.

Lemma onResults_idsDrawn gs now results w :
  idsDrawn randomId w ->
  idsDrawn randomId (onResults intersectObject randomId gs now results w).
Proof.
  intros [HE HT]. unfold idsDrawn.
  destruct (onResults_effect intersectObject randomId gs now results w)
    as (_ & _ & [N|(_ & _ & [(pos & M)|(i & r & e & _ & _ & Hst & Hv & _ & Hc & _)])]).
  - destruct N as (-> & -> & _ & -> & _). now split.
  - destruct M as (-> & -> & _ & -> & _). split.
    + apply (drawnIds_mono randomId id (idCalls w)); [lia|assumption].
    + now apply drawnIds_snoc.
  - rewrite Hst, Hv, Hc. split.
    + apply (drawnIds_mono randomId id (idCalls w)); [lia|].
      apply drawnIds_alter; [reflexivity|]. apply drawnIds_alter; [reflexivity|assumption].
    + now apply drawnIds_snoc.
Qed.

Lemma step_idsDrawn clock ev w w' :
  step intersectObject random randomId clock ev w = Some w' ->
  idsDrawn randomId w -> idsDrawn randomId w'.
Proof.
  intros Hs H.
  destruct (step_cases intersectObject random randomId clock ev w w' Hs)
    as [(now & results & ->)|[(now & ->)|(now & k & t & Ht & ->)]].
  - now apply onResults_idsDrawn.
  - now apply animate_idsDrawn.
  - destruct (action t) as [| |r]; cbn [runTimer]; try assumption.
    now apply removeAndRespawn_idsDrawn.
Qed.

Lemma idsDrawn_lookup w i j e1 e2 :
  idsDrawn randomId w ->
  store w !! i = Some e1 -> store w !! j = Some e2 -> id e1 = id e2 -> i = j.
Proof.
  intros [[_ HE] _] H1 H2 E.
  apply (NoDup_lookup (map id (store w)) i j (id e1)); [assumption| |].
  - change (map id (store w)) with (id <$> store w). now rewrite list_lookup_fmap, H1.
  - change (map id (store w)) with (id <$> store w). now rewrite list_lookup_fmap, H2, E.
Qed.

Lemma reachable_idsDrawn w :
  reachable intersectObject random randomId w -> idsDrawn randomId w.
Proof.
  revert w. apply (reachable_inv intersectObject random randomId (idsDrawn randomId)).
  - intros t0. unfold initThree, ENEMY_COUNT. cbn [Nat.iter nat_rect].
    do 4 apply spawnEnemy_idsDrawn. repeat split; constructor.
  - intros clock ev w w' H Hs. now apply (step_idsDrawn clock ev w w').
Qed.

(** X15. When the strings that [Math.random().toString()] yields never
    repeat, then in every state the mounted component can reach no two
    enemy objects share an id and no two floating texts share one: the
    removal of a target by id removes that target only, and the keys of the
    rendered texts are distinct. *)
Theorem ids_are_unique :
  forall w,
    reachable intersectObject random randomId w ->
    NoDup (map id (store w)) /\ NoDup (map ft_id (vfx w)) /\
    (forall i j e1 e2, store w !! i = Some e1 -> store w !! j = Some e2 ->
                       id e1 = id e2 -> i = j).
Proof.
  intros w Hw. pose proof (reachable_idsDrawn w Hw) as H.
  repeat split.
  - apply H.
  - apply H.
  - intros i j e1 e2. now apply idsDrawn_lookup.
Qed.

(** *** The number of targets *)

Lemma removeAndRespawn_keeps_in now r w e r' :
  idsDrawn randomId w -> store w !! r = Some e ->
  In r' (enemies w) -> r' <> r ->
  In r' (enemies (removeAndRespawn random randomId now r w)).
Proof.
  intros HI He Hr' Hne.
  destruct (removeAndRespawn_fields random randomId now r w e He) as [-> _].
  apply List.in_app_iff. left. apply List.filter_In. split; [assumption|].
  destruct (store w !! r') as [e'|] eqn:He'; [|reflexivity].
  apply negb_true_iff, String.eqb_neq. intros E.
  apply Hne. exact (idsDrawn_lookup w r' r e' e HI He' He E).
Qed.

Lemma removeAndRespawn_length now r w e :
  wellFormed w -> idsDrawn randomId w -> store w !! r = Some e ->
  (In r (enemies w) ->
   List.length (enemies (removeAndRespawn random randomId now r w))
   = List.length (enemies w)) /\
  (~ In r (enemies w) ->
   List.length (enemies (removeAndRespawn random randomId now r w))
   = S (List.length (enemies w))).
Proof.
  intros HW HI He. split; intros Hr.
  - apply (removeAndRespawn_replaces random randomId now r w e HW He Hr).
    intros r' e' _ Hne He' E. apply Hne.
    exact (idsDrawn_lookup w r' r e' e HI He' He E).
  - apply (removeAndRespawn_adds random randomId now r w e He).
    intros r' e' Hr' He' E. apply Hr.
    now rewrite <- (idsDrawn_lookup w r' r e' e HI He' He E).
Qed.

Lemma animateEnemy_population now w r :
  wellFormed w -> idsDrawn randomId w -> In r (enemies w) ->
  List.length (enemies (animateEnemy random randomId now w r))
  = List.length (enemies w) /\
  (forall r', In r' (enemies w) -> r' <> r ->
              In r' (enemies (animateEnemy random randomId now w r))).
Proof.
  intros HW HI Hr. destruct (store w !! r) as [e|] eqn:He.
  - rewrite (animateEnemy_cases random randomId now w r e He). cbv zeta.
    destruct (afterAdvance_store now w r e He) as (H1 & H2 & H3 & H4).
    assert (HW1 : wellFormed (if isDying e then w else updateEnemy r (advance now) w))
      by (destruct (isDying e); [assumption | now apply wellFormed_updateEnemy]).
    assert (HI1 : idsDrawn randomId (if isDying e then w else updateEnemy r (advance now) w)).
    { destruct (isDying e); [assumption|]. destruct HI as [HE HT]. split; [|assumption].
      unfold updateEnemy. cbn [store set_store idCalls].
      apply drawnIds_alter; [apply advance_id | assumption]. }
    set (w1 := if isDying e then w else updateEnemy r (advance now) w) in *.
    destruct (outOfBounds _).
    + rewrite <- H3 in Hr.
      destruct (removeAndRespawn_length now r w1 _ HW1 HI1 H1) as [Hin _].
      split; [now rewrite (Hin Hr), H3|].
      intros r' Hr' Hne. rewrite <- H3 in Hr'.
      now apply (removeAndRespawn_keeps_in now r w1 _ r' HI1 H1).
    + rewrite H3. split; [reflexivity | tauto].
  - unfold animateEnemy. rewrite He. split; [reflexivity | tauto].
Qed.

Lemma walk_population now l : forall w,
  NoDup l -> wellFormed w -> idsDrawn randomId w ->
  (forall r, In r l -> In r (enemies w)) ->
  List.length (enemies (fold_left (animateEnemy random randomId now) l w))
  = List.length (enemies w).
Proof.
  induction l as [|r l IH]; intros w Hnd HW HI Hin; [reflexivity|].
  apply NoDup_cons in Hnd as [Hr Hnd]. rewrite list_elem_of_In in Hr.
  destruct (animateEnemy_population now w r HW HI (Hin r (or_introl eq_refl)))
    as [Hlen Hkeep].
  cbn [fold_left]. rewrite IH; try assumption.
  - now apply wellFormed_animateEnemy.
  - now apply animateEnemy_idsDrawn.
  - intros r' Hr'. apply Hkeep; [apply Hin; now right|]. intros ->. contradiction.
Qed.

Lemma step_population clock ev w w' :
  wellFormed w -> idsDrawn randomId w ->
  step intersectObject random randomId clock ev w = Some w' ->
  match ev with
  | Fire _ _ => (List.length (enemies w) <= List.length (enemies w')
                 <= S (List.length (enemies w)))%nat
  | _ => List.length (enemies w') = List.length (enemies w)
  end.
Proof.
  intros HW HI. unfold step. destruct (eventTime ev <? clock)%Z; [discriminate|].
  destruct ev as [now results|now|now k].
  - intros [= <-]. unfold registeredOnResults.
    now destruct (onResults_effect intersectObject randomId initialGameState now results w)
      as (-> & _).
  - intros [= <-]. unfold animate. cbn [enemies set_vfx].
    destruct HW as [Hnd Hv]. apply walk_population; try assumption; [now split | tauto].
  - destruct (timers w !! k) as [t|]; [|discriminate].
    destruct (now <? due t)%Z; [discriminate|]. intros [= <-].
    destruct (action t) as [| |r];
      cbn [runTimer enemies set_laser setGameState set_timers]; try lia.
    set (w0 := set_timers (delete k (timers w)) w).
    assert (HW0 : wellFormed w0) by exact HW.
    assert (HI0 : idsDrawn randomId w0) by exact HI.
    change (enemies w) with (enemies w0).
    destruct (store w0 !! r) as [e|] eqn:He.
    + destruct (removeAndRespawn_length now r w0 e HW0 HI0 He) as [Hin Hout].
      destruct (List.in_dec Nat.eq_dec r (enemies w0)) as [Hr|Hr];
        [rewrite (Hin Hr) | rewrite (Hout Hr)]; lia.
    + unfold removeAndRespawn. rewrite He. lia.
Qed.

(** X16. When the id strings never repeat, the number of targets in play
    never drops: detection results and frames leave it exactly as it is (a
    frame replaces each target that leaves by one new target), a timer
    leaves it or raises it by one, and it is at least the 4 of the start in
    every state the mounted component can reach. *)
Theorem population_never_drops :
  forall w,
    reachable intersectObject random randomId w ->
    (ENEMY_COUNT <= List.length (enemies w))%nat /\
    forall clock ev w',
      step intersectObject random randomId clock ev w = Some w' ->
      match ev with
      | Fire _ _ => (List.length (enemies w) <= List.length (enemies w')
                     <= S (List.length (enemies w)))%nat
      | _ => List.length (enemies w') = List.length (enemies w)
      end.
Proof.
  intros w Hw.
  pose proof (reachable_wellFormed intersectObject random randomId w Hw) as HW.
  pose proof (reachable_idsDrawn w Hw) as HI.
  split; [|intros clock ev w'; now apply step_population].
  clear HW HI. revert w Hw.
  apply (reachable_inv intersectObject random randomId
           (fun w => wellFormed w /\ idsDrawn randomId w /\
                     (ENEMY_COUNT <= List.length (enemies w))%nat)).
  - intros t0. split; [apply wellFormed_initThree|]. split.
    + apply reachable_idsDrawn. now exists t0, [].
    + destruct (initThree_store random randomId t0) as (e0 & e1 & e2 & e3 & _ & ->).
      reflexivity.
  - intros clock ev w w' (HW & HI & Hn) Hs. split; [|split].
    + exact (wellFormed_step intersectObject random randomId clock ev w w' Hs HW).
    + exact (step_idsDrawn clock ev w w' Hs HI).
    + pose proof (step_population clock ev w w' HW HI Hs) as Hp.
      destruct ev; lia.
Qed.

End IdInvariant.

Lemma ids_are_unique_witness :
  NoDup (map id (store (initThree draws unaryId 0))).
Proof.
  apply (ids_are_unique hitsAll draws unaryId unaryId_inj (initThree draws unaryId 0)).
  exists 0%Z, []. reflexivity.
Defined.

Lemma population_never_drops_witness :
  (ENEMY_COUNT <= List.length (enemies (initThree draws unaryId 0)))%nat.
Proof.
  apply (population_never_drops hitsAll draws unaryId unaryId_inj
           (initThree draws unaryId 0)).
  exists 0%Z, []. reflexivity.
Defined.

(** ** The removal timer of a hit target *)

Section Removal.

Variable intersectObject : Raycaster -> Mesh -> list Intersection.
Variable random : nat -> R.
Variable randomId : nat -> string.
Hypothesis randomId_inj : forall j k, randomId j = randomId k -> j = k.

(** X17. When the id strings never repeat and the removal timer of a
    target that is still in the array fires, at or after its due time, the
    callback runs and replaces that target by one new target: the target is
    gone from the array, every other target stays, the number of targets is
    the same, one new live enemy object with the time of the callback as
    spawn time is appended, and the timer is no longer pending. *)
Theorem removal_timer_replaces_target :
  forall w clock now k t r,
    reachable intersectObject random randomId w ->
    timers w !! k = Some t -> action t = RemoveEnemy r ->
    (clock <= now)%Z -> (due t <= now)%Z ->
    In r (enemies w) ->
    exists w' new,
      step intersectObject random randomId clock (Fire now k) w = Some w' /\
      ~ In r (enemies w') /\
      (forall r', In r' (enemies w) -> r' <> r -> In r' (enemies w')) /\
      List.length (enemies w') = List.length (enemies w) /\
      In (List.length (store w)) (enemies w') /\
      store w' = store w ++ [new] /\
      isDying new = false /\ spawnTime new = now /\
      timers w' = delete k (timers w).
Proof.
  intros w clock now k t r Hw Ht Ha Hc Hd Hr.
  pose proof (reachable_wellFormed intersectObject random randomId w Hw) as HW.
  pose proof (reachable_idsDrawn intersectObject random randomId randomId_inj w Hw) as HI.
  set (w0 := set_timers (delete k (timers w)) w).
  assert (HW0 : wellFormed w0) by exact HW.
  assert (HI0 : idsDrawn randomId w0) by exact HI.
  assert (He : exists e, store w0 !! r = Some e).
  { destruct HW as [_ Hv]. rewrite Forall_forall in Hv.
    apply list_elem_of_In in Hr. specialize (Hv r Hr). cbv beta in Hv.
    apply lookup_lt_is_Some in Hv. destruct Hv as [e He]. now exists e. }
  destruct He as [e He].
  destruct (removeAndRespawn_fields random randomId now r w0 e He) as [Hen _].
  destruct (removeAndRespawn_besides random randomId now r w0) as (_ & _ & Htm & _).
  assert (Hsp : exists new,
             store (removeAndRespawn random randomId now r w0) = store w ++ [new] /\
             isDying new = false /\ spawnTime new = now).
  { unfold removeAndRespawn. rewrite He. eexists. repeat split. }
  destruct Hsp as (new & Hst & Hdy & Hsp).
  exists (removeAndRespawn random randomId now r w0), new.
  split; [|repeat split].
  - rewrite (step_Fire intersectObject random randomId clock now k t w Hc Ht Hd).
    now rewrite Ha.
  - apply (removeAndRespawn_removes random randomId now r w0 e He).
  - intros r' Hr' Hne.
    now apply (removeAndRespawn_keeps_in random randomId now r w0 e r').
  - now apply (removeAndRespawn_length random randomId now r w0 e).
  - rewrite Hen. apply List.in_app_iff. right. now left.
  - exact Hst.
  - exact Hdy.
  - exact Hsp.
  - exact Htm.
Qed.

End Removal.

Lemma removal_timer_replaces_target_witness :
  exists w' new,
    step hitsAll draws unaryId 1000 (Fire 1100 2) (firstHit unaryId) = Some w' /\
    ~ In 0%nat (enemies w') /\
    (forall r', In r' (enemies (firstHit unaryId)) -> r' <> 0%nat -> In r' (enemies w')) /\
    List.length (enemies w') = List.length (enemies (firstHit unaryId)) /\
    In (List.length (store (firstHit unaryId))) (enemies w') /\
    store w' = store (firstHit unaryId) ++ [new] /\
    isDying new = false /\ spawnTime new = 1100%Z /\
    timers w' = delete 2%nat (timers (firstHit unaryId)).
Proof.
  destruct (firstHit_target unaryId) as (e0 & Hin & _ & Ht).
  exact (removal_timer_replaces_target hitsAll draws unaryId unaryId_inj
           (firstHit unaryId) 1000 1100 2 (mkTimer 1100 (RemoveEnemy 0)) 0
           (firstHit_reachable unaryId) Ht eq_refl ltac:(lia) ltac:(cbn [due]; lia) Hin).
Defined.

(** ** The overlay and the hand share one coordinate system *)

(** X18. The overlay places a floating text by the inverse of the map that
    takes a landmark to the gun origin: a text positioned at the gun origin
    of a landmark is drawn at that landmark's place in the camera picture,
    [left = 100 x %] and [top = 100 y %]. *)
Theorem overlay_inverts_gunOrigin :
  forall (p : Point) (i : string) (t : VfxText) (c : string) (l : R),
    style_left (textStyle (mkFloatingText i t (gunOrigin p) c l)) = 100 * px p /\
    style_top (textStyle (mkFloatingText i t (gunOrigin p) c l)) = 100 * py p.
Proof.
  intros p i t c l. unfold textStyle, gunOrigin.
  cbn [style_left style_top ft_position vx vy]. split; lra.
Qed.

(** ** Crosshair and laser after a tracked result *)

Section Feedback.

Variable intersectObject : Raycaster -> Mesh -> list Intersection.
Variable randomId : nat -> string.

Lemma handleShoot_crosshair gs now direction origin w :
  crosshair (handleShoot intersectObject randomId gs now direction origin w) = crosshair w /\
  laser_position (laser (handleShoot intersectObject randomId gs now direction origin w))
  = laser_position (laser w) /\
  laser_lookAt (laser (handleShoot intersectObject randomId gs now direction origin w))
  = laser_lookAt (laser w).
Proof.
  destruct (handleShoot_cases intersectObject randomId gs now direction origin w)
    as [->|(i & r & e & _ & _ & ->)]; now repeat split.
Qed.

(** X19. After a processed result with a complete hand, whether it fires
    or not: the laser starts at the gun origin and looks along the assisted
    aim; the crosshair sits on that line, more than 0 and at most 20 from the
    gun origin; it is yellow exactly when aim assist found a target and green
    otherwise; and its scale is 1 without a target and between 1.4 and 1.8
    with one. *)
Theorem crosshair_feedback :
  forall gs now results thumb base tip w,
    (DETECTION_FREQ_MS <= now - lastDetection w)%Z ->
    trackedHand results = Some (thumb, base, tip) ->
    let w' := onResults intersectObject randomId gs now results w in
    let d := fst (assisted base tip w) in
    let found := snd (assisted base tip w) in
    laser_position (laser w') = gunOrigin base /\
    laser_lookAt (laser w') = V3.add (gunOrigin base) d /\
    crosshair_position (crosshair w')
    = V3.add (gunOrigin base) (V3.multiplyScalar d 20) /\
    0 < V3.length (V3.sub (crosshair_position (crosshair w')) (gunOrigin base)) <= 20 /\
    crosshair_color (crosshair w') = (if found then 0xffff00 else 0x00ff00)%Z /\
    (found = false -> crosshair_scale (crosshair w') = 1.0) /\
    (found = true -> 1.4 <= crosshair_scale (crosshair w') <= 1.8).
Proof.
  intros gs now results thumb base tip w Ht Hh. cbv zeta.
  assert (Hw : crosshair (onResults intersectObject randomId gs now results w)
               = crosshair (aimWorld now base tip w) /\
               laser_position (laser (onResults intersectObject randomId gs now results w))
               = laser_position (laser (aimWorld now base tip w)) /\
               laser_lookAt (laser (onResults intersectObject randomId gs now results w))
               = laser_lookAt (laser (aimWorld now base tip w))).
  { rewrite (onResults_tracked intersectObject randomId gs now results
               thumb base tip w Ht Hh).
    destruct (Rlt_dec _ _); [destruct (isTriggered w)|]; try (now repeat split).
    destruct (handleShoot_crosshair gs now (shotDirection base tip w) (gunOrigin base)
                (set_isTriggered true (aimWorld now base tip w))) as (-> & -> & ->).
    now repeat split. }
  destruct Hw as (-> & -> & ->).
  unfold aimWorld. cbn [crosshair laser laser_position laser_lookAt
                        crosshair_position crosshair_color crosshair_scale].
  destruct (assisted_aim_length base tip w) as [Hpos Hle].
  set (d := fst (assisted base tip w)) in *.
  assert (Hlen : 0 < V3.length (V3.sub (V3.add (gunOrigin base) (V3.multiplyScalar d 20))
                                  (gunOrigin base)) <= 20).
  { replace (V3.sub (V3.add (gunOrigin base) (V3.multiplyScalar d 20)) (gunOrigin base))
      with (V3.multiplyScalar d 20)
      by (unfold V3.sub, V3.add, V3.multiplyScalar; cbn [vx vy vz]; f_equal; ring).
    rewrite length_multiplyScalar by lra. lra. }
  pose proof (SIN_bound (IZR now * 0.01)) as Hsin.
  destruct (snd (assisted base tip w));
    repeat split; try apply Hlen; try discriminate; lra.
Qed.

End Feedback.

Lemma crosshair_feedback_witness :
  laser_position (laser (onResults hitsNone ids initialGameState 1000 (pinchAt 0.08) lineUp))
  = gunOrigin middle.
Proof.
  apply (crosshair_feedback hitsNone ids initialGameState 1000 (pinchAt 0.08)
           (mkPoint (0.5 + 0.08) 0.5 0) middle (mkPoint 0.5 0.4 0) lineUp).
  - cbv [lineUp lastDetection DETECTION_FREQ_MS]. lia.
  - apply pinchAt_tracked.
Defined.

(** ** The hand indicator *)

Section Indicator.

Variable intersectObject : Raycaster -> Mesh -> list Intersection.
Variable randomId : nat -> string.

(** The fields of the game state that only mounting sets. *)
Lemma onResults_status gs now results w :
  let w' := onResults intersectObject randomId gs now results w in
  isGameOver (state w') = isGameOver (state w) /\
  loading (state w') = loading (state w) /\
  loadingProgress (state w') = loadingProgress (state w) /\
  statusMessage (state w') = statusMessage (state w).
Proof.
  cbv zeta.
  assert (HS : forall s, isGameOver (handSeen s) = isGameOver s /\
                         loading (handSeen s) = loading s /\
                         loadingProgress (handSeen s) = loadingProgress s /\
                         statusMessage (handSeen s) = statusMessage s)
    by (intros s; unfold handSeen; now destruct (handDetected s)).
  assert (HL : forall s, isGameOver (handLost s) = isGameOver s /\
                         loading (handLost s) = loading s /\
                         loadingProgress (handLost s) = loadingProgress s /\
                         statusMessage (handLost s) = statusMessage s)
    by (intros s; unfold handLost; now destruct (handDetected s)).
  destruct (onResults_cases intersectObject randomId gs now results w)
    as [->|[->|[->|(base & tip & [->|[->|[Hi ->]]])]]].
  - now repeat split.
  - apply HL.
  - apply HS.
  - apply HS.
  - apply HS.
  - destruct (handleShoot_cases intersectObject randomId gs now
                (shotDirection base tip w) (gunOrigin base)
                (set_isTriggered true (aimWorld now base tip w)))
      as [->|(i & r & e & _ & _ & ->)]; apply HS.
Qed.

(** X20. After every processed result the hand flag says whether that
    result reported a hand: true when the list of hands is not empty, also
    when the hand's landmarks are incomplete and the processing throws,
    false when the list is absent or empty.  No result changes the
    game-over flag, the loading flag, the loading progress or the status
    message. *)
Theorem hand_indicator :
  forall gs now results w,
    let w' := onResults intersectObject randomId gs now results w in
    ((DETECTION_FREQ_MS <= now - lastDetection w)%Z ->
     handDetected (state w') = negb (noHand results)) /\
    isGameOver (state w') = isGameOver (state w) /\
    loading (state w') = loading (state w) /\
    loadingProgress (state w') = loadingProgress (state w) /\
    statusMessage (state w') = statusMessage (state w).
Proof.
  intros gs now results w. cbv zeta. split; [|apply onResults_status].
  intros Ht. destruct (noHand results) eqn:Hn; cbn [negb].
  - rewrite (onResults_noHand intersectObject randomId gs now results w Ht Hn).
    cbn [state setGameState set_lastDetection]. unfold handLost.
    destruct (handDetected (state w)) eqn:E; cbn [negb handDetected]; [reflexivity|exact E].
  - now apply onResults_hand.
Qed.

End Indicator.

Lemma hand_indicator_witness :
  handDetected (state (onResults hitsNone ids initialGameState 1000 noLandmarks comboFive))
  = negb (noHand noLandmarks).
Proof.
  apply (hand_indicator hitsNone ids initialGameState 1000 noLandmarks comboFive).
  cbv [comboFive lastDetection DETECTION_FREQ_MS]. lia.
Defined.

(** ** Flash and laser are always taken back *)

Section FeedbackReset.

Variable intersectObject : Raycaster -> Mesh -> list Intersection.
Variable random : nat -> R.
Variable randomId : nat -> string.

Lemma feedbackBacked_more w w' ts :
  timers w' = timers w ++ ts ->
  (hitFlash (state w') = hitFlash (state w) \/
   exists t, In t ts /\ action t = FlashReset) ->
  (laser_color (laser w') = laser_color (laser w) \/
   exists t, In t ts /\ action t = LaserReset) ->
  feedbackBacked w -> feedbackBacked w'.
Proof.
  intros Htm Hf Hl [F L]. split.
  - intros Hne. destruct Hf as [Hf|(t & Hin & Ha)].
    + rewrite Hf in Hne. destruct (F Hne) as (t & Hin & Ha). exists t.
      rewrite Htm. split; [apply List.in_app_iff; now left | assumption].
    + exists t. rewrite Htm. split; [apply List.in_app_iff; now right | assumption].
  - intros Hne. destruct Hl as [Hl|(t & Hin & Ha)].
    + rewrite Hl in Hne. destruct (L Hne) as (t & Hin & Ha). exists t.
      rewrite Htm. split; [apply List.in_app_iff; now left | assumption].
    + exists t. rewrite Htm. split; [apply List.in_app_iff; now right | assumption].
Qed.

Lemma handSeen_flash s : hitFlash (handSeen s) = hitFlash s.
Proof. unfold handSeen. now destruct (handDetected s). Qed.

Lemma handLost_flash s : hitFlash (handLost s) = hitFlash s.
Proof. unfold handLost. now destruct (handDetected s). Qed.

Lemma aimWorld_feedbackBacked now base tip w :
  feedbackBacked w -> feedbackBacked (aimWorld now base tip w).
Proof.
  apply (feedbackBacked_more w _ []).
  - unfold aimWorld. cbn [timers]. now rewrite app_nil_r.
  - left. unfold aimWorld. cbn [state]. apply handSeen_flash.
  - now left.
Qed.

Lemma handleShoot_feedbackBacked gs now direction origin w :
  feedbackBacked w ->
  feedbackBacked (handleShoot intersectObject randomId gs now direction origin w).
Proof.
  destruct (handleShoot_cases intersectObject randomId gs now direction origin w)
    as [->|(i & r & e & _ & _ & ->)].
  - apply (feedbackBacked_more w _ [mkTimer (now + 50) LaserReset;
                                    mkTimer (now + 150) FlashReset]).
    + reflexivity.
    + right. eexists. split; [right; now left | reflexivity].
    + right. eexists. split; [now left | reflexivity].
  - apply (feedbackBacked_more w _ [mkTimer (now + 50) LaserReset;
                                    mkTimer (now + 150) FlashReset;
                                    mkTimer (now + 100) (RemoveEnemy r)]).
    + reflexivity.
    + right. eexists. split; [right; now left | reflexivity].
    + right. eexists. split; [now left | reflexivity].
Qed.

Lemma onResults_feedbackBacked gs now results w :
  feedbackBacked w ->
  feedbackBacked (onResults intersectObject randomId gs now results w).
Proof.
  intros H.
  destruct (onResults_cases intersectObject randomId gs now results w)
    as [->|[->|[->|(base & tip & [->|[->|[Hi ->]]])]]].
  - assumption.
  - revert H. apply (feedbackBacked_more w _ []).
    + cbn [timers setGameState set_lastDetection]. now rewrite app_nil_r.
    + left. cbn [state setGameState set_lastDetection]. apply handLost_flash.
    + now left.
  - revert H. apply (feedbackBacked_more w _ []).
    + cbn [timers setGameState set_lastDetection]. now rewrite app_nil_r.
    + left. cbn [state setGameState set_lastDetection]. apply handSeen_flash.
    + now left.
  - now apply aimWorld_feedbackBacked.
  - apply (aimWorld_feedbackBacked now base tip w H).
  - apply handleShoot_feedbackBacked. apply (aimWorld_feedbackBacked now base tip w H).
Qed.

Lemma feedbackBacked_same w w' :
  state w' = state w -> timers w' = timers w -> laser w' = laser w ->
  feedbackBacked w -> feedbackBacked w'.
Proof. intros Hs Ht Hl. unfold feedbackBacked. now rewrite Hs, Ht, Hl. Qed.

(** Taking the timer [t] away keeps the other kinds of timer pending. *)
Lemma feedbackBacked_delete k t w :
  timers w !! k = Some t -> feedbackBacked w ->
  (action t <> FlashReset -> hitFlash (state w) <> None ->
   exists t', In t' (delete k (timers w)) /\ action t' = FlashReset) /\
  (action t <> LaserReset -> laser_color (laser w) <> 0xff0000%Z ->
   exists t', In t' (delete k (timers w)) /\ action t' = LaserReset).
Proof.
  intros Ht [F L]. split; intros Hne Hshow.
  - destruct (F Hshow) as (t' & Hin & Ha). exists t'. split; [|assumption].
    apply (In_delete_other _ k t t' Ht Hin). intros ->. contradiction.
  - destruct (L Hshow) as (t' & Hin & Ha). exists t'. split; [|assumption].
    apply (In_delete_other _ k t t' Ht Hin). intros ->. contradiction.
Qed.

Lemma step_feedbackBacked clock ev w w' :
  step intersectObject random randomId clock ev w = Some w' ->
  feedbackBacked w -> feedbackBacked w'.
Proof.
  intros Hs H.
  destruct (step_cases intersectObject random randomId clock ev w w' Hs)
    as [(now & results & ->)|[(now & ->)|(now & k & t & Ht & ->)]].
  - now apply onResults_feedbackBacked.
  - revert H.
    destruct (walk_besides random randomId now (enemies w) w)
      as (A1 & _ & A3 & _ & _ & _ & A7 & _).
    now apply feedbackBacked_same.
  - destruct (feedbackBacked_delete k t w Ht H) as [F L].
    destruct (action t) as [| |r] eqn:Ha; cbn [runTimer].
    + split.
      * cbn [state timers set_laser set_timers]. apply F. discriminate.
      * cbn [laser laser_color set_laser]. intros Hne. now contradiction Hne.
    + split.
      * cbn [state hitFlash setGameState]. intros Hne. now contradiction Hne.
      * cbn [laser timers setGameState set_timers]. apply L. discriminate.
    + destruct (removeAndRespawn_besides random randomId now r
                  (set_timers (delete k (timers w)) w))
        as (A1 & _ & A3 & _ & _ & _ & A7 & _).
      unfold feedbackBacked. rewrite A1, A3, A7.
      cbn [state timers laser set_timers]. split; [apply F | apply L]; discriminate.
Qed.

(** X21. The feedback of a shot is always taken back: in every state the
    mounted component can reach, a screen flash that is showing has a
    pending timer that will clear it, and a laser that is not in its idle
    red has a pending timer that will reset it. *)
Theorem feedback_is_taken_back :
  forall w,
    reachable intersectObject random randomId w ->
    (hitFlash (state w) <> None ->
     exists t, In t (timers w) /\ action t = FlashReset) /\
    (laser_color (laser w) <> 0xff0000%Z ->
     exists t, In t (timers w) /\ action t = LaserReset).
Proof.
  apply (reachable_inv intersectObject random randomId feedbackBacked).
  - intros t0. split; intros Hne; now contradiction Hne.
  - intros clock ev w w' H Hs. now apply (step_feedbackBacked clock ev w w').
Qed.

End FeedbackReset.

Lemma feedback_is_taken_back_witness :
  exists t, In t (timers firstMiss) /\ action t = FlashReset.
Proof.
  apply (feedback_is_taken_back hitsNone draws ids firstMiss firstMiss_reachable).
  destruct firstMiss_eq as (base & tip & ->). discriminate.
Defined.
